(** * loopy/statistics.py: operation, memory-access and barrier counting

    A shallow embedding of [src/loopy/statistics.py] and proofs about it.

    The module leans on three libraries that are not part of the file:
    islpy (polyhedral sets and piecewise quasi-polynomials), pymbolic
    (expression trees and the mapper dispatch) and the rest of loopy (the
    kernel, its type inference, its dependency and coefficient
    collectors).  What the file calls in them is taken as data of the
    objects involved (record fields) or as a variable of the section that
    embeds the caller.  Two of them can raise: [get_access_range], whose
    exception the file catches, and [CoefficientCollector], whose
    exception it does not.  What the file itself computes is written out,
    exceptions included.

    - A dictionary is a [gmap]: Python compares dictionaries as mappings,
      and the loops that only read a dictionary do not depend on the
      order of its keys, so such a loop is a [map_fold].  The loops that
      replace the keys of the dictionary they iterate over depend on what
      the iterator of the interpreter does with a dictionary that
      changes under it; that is a variable, [iterate], of the functions
      that run them.
    - A quasi-polynomial is its value at one fixed binding of the kernel
      parameters, and so are the bounds of a set.
    - A kernel is the one the entry points work on after
      [infer_unknown_types], [preprocess_kernel] and, for the barriers,
      [get_one_scheduled_kernel].
    - Embedded are [ToCountMap], the keys, [ExpressionOpCounter],
      [LocalSubscriptCounter], [GlobalSubscriptCounter],
      [AccessFootprintGatherer], [count], [get_op_poly],
      [sum_ops_to_dtypes], [get_lmem_access_poly], [get_gmem_access_poly],
      [sum_mem_access_to_bytes], [get_barrier_poly] and
      [gather_access_footprints]. *)

From Stdlib Require Import ZArith QArith Qcanon Lia.
From stdpp Require Import gmap strings list fin_maps.

Set Default Proof Using "Type".
Local Open Scope Z_scope.

(** ** Python exceptions and results *)

Inductive exn :=
| ValueError | AttributeError | AssertionError | NotImplementedError
| KeyError | IndexError | TypeError | RuntimeError.

Inductive result (A : Type) :=
| Ok (a : A)
| Raise (e : exn).
Arguments Ok {A} a.
Arguments Raise {A} e.

Global Instance result_ret : MRet result := @Ok.
Global Instance result_bind : MBind result := λ A B f r,
  match r with Ok a => f a | Raise e => Raise e end.

Global Instance result_fmap : FMap result := λ A B f r,
  match r with Ok a => Ok (f a) | Raise e => Raise e end.

Global Instance exn_eq_dec : EqDecision exn.
Proof. solve_decision. Defined.

(** ** Numbers

    The values of a [ToCountMap] are Python integers (as produced by the
    expression counters) or [isl.PwQPolynomial]s (after weighting by an
    execution count).  A [PwQPolynomial] is represented by its value at one
    fixed binding of the kernel parameters, a rational number: sums and
    products of quasi-polynomials are pointwise, so evaluation commutes with
    every operation used below.  The two classes are kept apart because
    [ToCountMap.__mul__] tests [isinstance(other, isl.PwQPolynomial)]. *)

Inductive num :=
| PyInt (n : Z)
| PwQPolynomial (q : Qc).

Definition Z2Qc (n : Z) : Qc := Q2Qc (inject_Z n).

(** [a + b] and [a * b] on numbers; an integer operand is promoted. *)
Definition num_add (a b : num) : num :=
  match a, b with
  | PyInt x, PyInt y => PyInt (x + y)
  | PyInt x, PwQPolynomial q => PwQPolynomial (Z2Qc x + q)
  | PwQPolynomial p, PyInt y => PwQPolynomial (p + Z2Qc y)
  | PwQPolynomial p, PwQPolynomial q => PwQPolynomial (p + q)
  end.

Definition num_mul (a b : num) : num :=
  match a, b with
  | PyInt x, PyInt y => PyInt (x * y)
  | PyInt x, PwQPolynomial q => PwQPolynomial (Z2Qc x * q)
  | PwQPolynomial p, PyInt y => PwQPolynomial (p * Z2Qc y)
  | PwQPolynomial p, PwQPolynomial q => PwQPolynomial (p * q)
  end.

(** The rational a number stands for. *)
Definition num_value (a : num) : Qc :=
  match a with PyInt x => Z2Qc x | PwQPolynomial q => q end.

(** ** ToCountMap *)

Section ToCountMap.
Context {K : Type} `{Countable K}.

(** The Python objects that reach the operators of [ToCountMap]:
    numbers, other count maps, and [None] for an object that is neither. *)
Inductive pyobj :=
| PyNum (v : num)
| PyCountMap (m : gmap K num)
| PyNone.

(** [ToCountMap.__add__]: copy [self.dict], then for every item [(k, v)]
    of [other.dict] store [self.dict.get(k, 0) + v]. *)
Definition __add__ (self other : gmap K num) : gmap K num :=
  map_fold
    (λ k v result, <[k := num_add (default (PyInt 0) (self !! k)) v]> result)
    self other.

(** [ToCountMap.__radd__]: only [0 + self] is allowed. *)
Definition __radd__ (self : gmap K num) (other : pyobj) : result (gmap K num) :=
  match other with
  | PyNum (PyInt 0) => Ok self
  | _ => Raise ValueError
  end.

(** [ToCountMap.__mul__] (also [__rmul__]). *)
Definition __mul__ (self : gmap K num) (other : pyobj) : result (gmap K num) :=
  match other with
  | PyNum (PwQPolynomial q) =>
      Ok ((λ v, num_mul v (PwQPolynomial q)) <$> self)
  | _ => Raise ValueError
  end.

(** [ToCountMap.__getitem__]. *)
Definition __getitem__ (self : gmap K num) (index : K) : num :=
  match self !! index with
  | Some v => v
  | None => PwQPolynomial 0%Qc
  end.

(** Python's [a + b] on these objects: [ToCountMap.__add__] reads
    [other.dict]; an integer on the left defers to [__radd__]. *)
Definition py_add (a b : pyobj) : result pyobj :=
  match a, b with
  | PyNum x, PyNum y => Ok (PyNum (num_add x y))
  | PyCountMap m, PyCountMap m' => Ok (PyCountMap (__add__ m m'))
  | PyCountMap _, _ => Raise AttributeError
  | _, PyCountMap m => PyCountMap <$> __radd__ m a
  | _, _ => Raise TypeError
  end.
End ToCountMap.

(** ** The geometry backend (islpy)

    An [isl.BasicSet] is known to this file through a handful of methods.
    A basic set is represented by what those methods answer, at the fixed
    parameter binding: its number of set dimensions, the values of
    [dim_max(i)] and [dim_min(i)], the strides found by
    [loopy.isl_helpers.get_simple_strides(bset, key_by="index")], and the
    two comparisons against the box that [count] rebuilds. *)

(** One conjunct of [bset_rebuilt]: for the dimension at this position,
    [dmin <= iname <= dmax] and [(iname - dmin) mod stride == 0]. *)
Record DimBounds := mkDimBounds {
  box_dmin : Z;
  box_dmax : Z;
  box_stride : Z
}.

Record BasicSet := mkBasicSet {
  bset_dim : nat;
  dim_max : nat → Z;
  dim_min : nat → Z;
  get_simple_strides : gmap nat Z;
  bset_le : list DimBounds → bool;
  bset_ge : list DimBounds → bool
}.

(** An [isl.Set]: [card] is [None] when [set.card()] raises
    [AttributeError] (the Barvinok wrappers are not installed);
    [get_basic_sets] is [set.make_disjoint().get_basic_sets()]. *)
Record IslSet := mkIslSet {
  card : option num;
  get_basic_sets : list BasicSet
}.

(** *** Basic sets given by their integer points

    A bounded basic set, at the fixed binding, is a finite set of integer
    points; the methods above can then be computed.  The strides come from
    the constraint representation and stay a table. *)

Definition coord (i : nat) (x : list Z) : Z := nth i x 0.

Definition in_box (box : list DimBounds) (x : list Z) : bool :=
  forallb (λ '(i, b),
      (box_dmin b <=? coord i x) && (coord i x <=? box_dmax b)
      && ((coord i x - box_dmin b) `mod` box_stride b =? 0))
    (imap (λ i b, (i, b)) box).

(** The values [dmin, dmin + stride, ...] up to [dmax]. *)
Definition axis_points (b : DimBounds) : list Z :=
  (λ k : nat, box_dmin b + Z.of_nat k * box_stride b) <$>
    seq 0 (Z.to_nat ((box_dmax b - box_dmin b) `div` box_stride b + 1)).

Fixpoint box_points (box : list DimBounds) : list (list Z) :=
  match box with
  | [] => [[]]
  | b :: box' => x ← axis_points b; (λ xs, x :: xs) <$> box_points box'
  end.

Definition points_max (i : nat) (points : list (list Z)) : Z :=
  match points with
  | [] => 0
  | x :: xs => foldl (λ m y, Z.max m (coord i y)) (coord i x) xs
  end.

Definition points_min (i : nat) (points : list (list Z)) : Z :=
  match points with
  | [] => 0
  | x :: xs => foldl (λ m y, Z.min m (coord i y)) (coord i x) xs
  end.

Definition basic_set_of_points (d : nat) (points : list (list Z))
    (strides : gmap nat Z) : BasicSet :=
  {| bset_dim := d;
     dim_max := λ i, points_max i points;
     dim_min := λ i, points_min i points;
     get_simple_strides := strides;
     bset_le := λ box, forallb (in_box box) points;
     bset_ge := λ box,
       forallb (λ x, bool_decide (x ∈ points)) (box_points box) |}.

(** The rectangle [0 <= i <= N-1, 0 <= j <= M-1]. *)
Definition rectangle_points (N M : Z) : list (list Z) :=
  i ← seqZ 0 N; (λ j, [i; j]) <$> seqZ 0 M.

Definition rectangle (N M : Z) : IslSet :=
  {| card := None;
     get_basic_sets := [basic_set_of_points 2 (rectangle_points N M) ∅] |}.

(** The interval [0 <= i <= N-1]. *)
Definition interval (N : Z) : IslSet :=
  {| card := None;
     get_basic_sets :=
       [basic_set_of_points 1 ((λ i, [i]) <$> seqZ 0 N) ∅] |}.

(** A set with no set dimensions and one point. *)
Definition zero_dim_set : IslSet :=
  {| card := None;
     get_basic_sets := [basic_set_of_points 0 [[]] ∅] |}.

(** ** Expressions (pymbolic)

    The node kinds the counters of this file handle.  A numeric literal is
    an integer; a tuple (of indices or of call parameters) is a node of its
    own, as the mapper dispatch treats it ([map_tuple]). *)

Set Warnings "-register-all".
Inductive Expression :=
| Constant (value : Z)
| Var (name : string)
| TaggedVariable (name tag : string)
| Call (function : string) (parameters : list Expression)
| Subscript (aggregate : Expression) (index : Expression)
| Tuple (items : list Expression)
| Sum (children : list Expression)
| Product (children : list Expression)
| Quotient (numerator denominator : Expression)
| FloorDiv (numerator denominator : Expression)
| Remainder (numerator denominator : Expression)
| Power (base exponent : Expression)
| LeftShift (shiftee shift : Expression)
| RightShift (shiftee shift : Expression)
| BitwiseNot (child : Expression)
| BitwiseOr (children : list Expression)
| BitwiseXor (children : list Expression)
| BitwiseAnd (children : list Expression)
| Comparison (left : Expression) (operator : string) (right : Expression)
| LogicalNot (child : Expression)
| LogicalOr (children : list Expression)
| LogicalAnd (children : list Expression)
| If (condition then_ else_ : Expression)
| IfPositive (criterion then_ else_ : Expression)
| Min (children : list Expression)
| Max (children : list Expression)
| CommonSubexpression (child : Expression)
| Substitution (child : Expression)
| Derivative (child : Expression)
| Slice (children : list Expression).
Set Warnings "register-all".

(** [pymbolic.primitives.is_zero(child + 1)]: true for the literal [-1]
    only; adding 1 to an expression object builds a sum, which is not a
    constant. *)
Definition is_zero_plus_one (child : Expression) : bool :=
  match child with
  | Constant value => bool_decide (value + 1 = 0)
  | _ => false
  end.

(** Leaves: constants and plain or tagged variables. *)
Definition is_leaf (e : Expression) : bool :=
  match e with
  | Constant _ | Var _ | TaggedVariable _ _ => true
  | _ => false
  end.

(** [expr.aggregate.name]. *)
Definition aggregate_name (aggregate : Expression) : result string :=
  match aggregate with
  | Var name | TaggedVariable name _ => Ok name
  | _ => Raise AttributeError
  end.

(** [index = expr.index; if not isinstance(index, tuple): index = (index,)] *)
Definition index_tuple (index : Expression) : list Expression :=
  match index with
  | Tuple items => items
  | _ => [index]
  end.

(** ** The kernel (loopy) *)

Abbreviation dtype := string (only parsing).

Inductive IndexTag :=
| LocalIndexTag (axis : Z)
| GroupIndexTag (axis : Z)
| UnrollTag
| ForceSequentialTag.

Inductive ArrayDimTag :=
| FixedStrideArrayDimTag (stride : Z)
| SeparateArrayArrayDimTag
| VectorArrayDimTag.

Inductive KernelArgument :=
| GlobalArg (dim_tags : list ArrayDimTag)
| ConstantArg
| ImageArg
| ValueArg.

Inductive Instruction :=
| Assignment (assignee expression : Expression) (insn_inames : list string)
| CInstruction (insn_inames : list string).

Inductive ScheduleItem :=
| EnterLoop (iname : string)
| LeaveLoop (iname : string)
| RunInstruction (insn_id : string)
| Barrier.

(** The preprocessed, scheduled kernel.  [inames_domain inames] is
    [knl.get_inames_domain(inames).project_out_except(inames, [dim_type.set])]. *)
Record LoopKernel := mkLoopKernel {
  arg_dict : gmap string KernelArgument;
  all_inames : gset string;
  iname_to_tag : gmap string IndexTag;
  instructions : list Instruction;
  schedule : list ScheduleItem;
  inames_domain : list string → IslSet
}.

Definition is_local_tag (tag : option IndexTag) : bool :=
  match tag with
  | Some (LocalIndexTag _) => true
  | _ => false
  end.

(** ** Classification keys *)

Record TypedOp := mkTypedOp {
  op_dtype : dtype;
  op_name : string
}.

Global Instance TypedOp_eq_dec : EqDecision TypedOp.
Proof. solve_decision. Defined.

Global Instance TypedOp_countable : Countable TypedOp :=
  inj_countable' (λ k, (op_dtype k, op_name k))
    (λ p, mkTypedOp p.1 p.2) (λ k, match k with mkTypedOp _ _ => eq_refl end).

(** [StridedGmemAccess]: the stride is [None] or an integer, the direction
    [None], ['load'] or ['store'].  A key built by this file always carries
    the array name as [variable], never the wildcard ['ANY_VAR'], so
    dictionary lookup (hash, then [__eq__]) is equality of the four fields. *)
Record StridedGmemAccess := mkStridedGmemAccess {
  gmem_dtype : dtype;
  gmem_stride : option Z;
  gmem_direction : option string;
  gmem_variable : string
}.

Global Instance StridedGmemAccess_eq_dec : EqDecision StridedGmemAccess.
Proof. solve_decision. Defined.

Global Instance StridedGmemAccess_countable : Countable StridedGmemAccess :=
  inj_countable'
    (λ k, (gmem_dtype k, gmem_stride k, gmem_direction k, gmem_variable k))
    (λ p, mkStridedGmemAccess p.1.1.1 p.1.1.2 p.1.2 p.2)
    (λ k, match k with mkStridedGmemAccess _ _ _ _ => eq_refl end).

(** [sys.maxsize] *)
Definition sys_maxsize : Z := 2 ^ 63 - 1.

(** ** Summing mapper results

    [sum(values)] starts from the integer 0 and adds from the left; a
    generator's items are produced, and may raise, one by one. *)
Definition py_sum `{Countable K} (values : list (result (@pyobj K _ _)))
    : result pyobj :=
  foldl (λ acc value, a ← acc; v ← value; py_add a v)
    (Ok (PyNum (PyInt 0))) values.


(** ** ExpressionOpCounter

    One definition per [map_*] method; [rec] is the mapper dispatch on the
    node kind.  The diagnostics of [warnings.warn] in [map_if] and
    [map_if_positive] do not change the value returned and are left out. *)

Module ExpressionOpCounter.
Section ExpressionOpCounter.
(** [self.type_inf = TypeInferenceMapper(knl)] *)
Variable type_inf : Expression → dtype.

Abbreviation res := (result (@pyobj TypedOp _ _)).

(** [ToCountMap({TypedOp(dtype, name): n})] *)
Definition ToCountMap1 (dt : dtype) (name : string) (n : Z)
    : @pyobj TypedOp _ _ :=
  PyCountMap {[ mkTypedOp dt name := PyInt n ]}.

Definition combine (values : list res) : res := py_sum values.

Definition map_constant (expr : Expression) : res := Ok (PyCountMap ∅).

Definition map_call (rec : Expression → res) (expr : Expression)
    (function : string) (parameters : list Expression) : res :=
  r ← combine (rec <$> parameters);
  py_add (ToCountMap1 (type_inf expr) ("func:" +:+ function) 1) r.

Definition map_subscript (rec : Expression → res) (expr : Expression)
    (index : Expression) : res :=
  rec index.

Definition map_sum (rec : Expression → res) (expr : Expression)
    (children : list Expression) : res :=
  match children with
  | [] => Raise AssertionError
  | _ =>
      s ← py_sum (rec <$> children);
      py_add
        (ToCountMap1 (type_inf expr) "add" (Z.of_nat (length children) - 1)) s
  end.

(** The generator keeps the children with [not is_zero(child + 1)] and
    yields [ToCountMap({mul: 1}) + self.rec(child)] for each. *)
Definition map_product (rec : Expression → res) (expr : Expression)
    (children : list Expression) : res :=
  match children with
  | [] => Raise AssertionError
  | _ =>
      let terms :=
        (λ child,
           (child,
            r ← rec child; py_add (ToCountMap1 (type_inf expr) "mul" 1) r))
          <$> children in
      s ← py_sum (snd <$> filter (λ t, ¬ is_zero_plus_one t.1) terms);
      py_add s (ToCountMap1 (type_inf expr) "mul" (-1))
  end.

(** [ToCountMap({kind: 1}) + self.rec(a) + self.rec(b)] *)
Definition map_binary (kind : string) (rec : Expression → res)
    (expr a b : Expression) : res :=
  ra ← rec a;
  s ← py_add (ToCountMap1 (type_inf expr) kind 1) ra;
  rb ← rec b;
  py_add s rb.

Definition map_quotient := map_binary "div".
Definition map_floor_div := map_quotient.
Definition map_remainder := map_quotient.
Definition map_power := map_binary "pow".
Definition map_left_shift := map_binary "shift".
Definition map_right_shift := map_left_shift.

Definition map_bitwise_not (rec : Expression → res) (expr child : Expression)
    : res :=
  r ← rec child;
  py_add (ToCountMap1 (type_inf expr) "bw" 1) r.

Definition map_bitwise_or (rec : Expression → res) (expr : Expression)
    (children : list Expression) : res :=
  s ← py_sum (rec <$> children);
  py_add
    (ToCountMap1 (type_inf expr) "bw" (Z.of_nat (length children) - 1)) s.
Definition map_bitwise_xor := map_bitwise_or.
Definition map_bitwise_and := map_bitwise_or.

Definition map_comparison (rec : Expression → res) (left right : Expression)
    : res :=
  l ← rec left; r ← rec right; py_add l r.

Definition map_logical_not (rec : Expression → res) (child : Expression)
    : res :=
  rec child.

Definition map_logical_or (rec : Expression → res)
    (children : list Expression) : res :=
  py_sum (rec <$> children).
Definition map_logical_and := map_logical_or.

(** [self.rec(a) + self.rec(b) + self.rec(c)] *)
Definition map_if (rec : Expression → res) (a b c : Expression) : res :=
  ra ← rec a; rb ← rec b; s ← py_add ra rb; rc ← rec c; py_add s rc.
Definition map_if_positive := map_if.

Definition map_min (rec : Expression → res) (expr : Expression)
    (children : list Expression) : res :=
  s ← py_sum (rec <$> children);
  py_add
    (ToCountMap1 (type_inf expr) "maxmin" (Z.of_nat (length children) - 1)) s.
Definition map_max := map_min.

Definition map_common_subexpression : res := Raise NotImplementedError.
Definition map_substitution : res := Raise NotImplementedError.
Definition map_derivative : res := Raise NotImplementedError.
Definition map_slice : res := Raise NotImplementedError.

Fixpoint rec (expr : Expression) : res :=
  match expr with
  | Constant _ | Var _ | TaggedVariable _ _ => map_constant expr
  | Call function parameters => map_call rec expr function parameters
  | Subscript _ index => map_subscript rec expr index
  | Tuple items => combine (rec <$> items)
  | Sum children => map_sum rec expr children
  | Product children => map_product rec expr children
  | Quotient n d => map_quotient rec expr n d
  | FloorDiv n d => map_floor_div rec expr n d
  | Remainder n d => map_remainder rec expr n d
  | Power b e => map_power rec expr b e
  | LeftShift a b => map_left_shift rec expr a b
  | RightShift a b => map_right_shift rec expr a b
  | BitwiseNot child => map_bitwise_not rec expr child
  | BitwiseOr children => map_bitwise_or rec expr children
  | BitwiseXor children => map_bitwise_xor rec expr children
  | BitwiseAnd children => map_bitwise_and rec expr children
  | Comparison l _ r => map_comparison rec l r
  | LogicalNot child => map_logical_not rec child
  | LogicalOr children => map_logical_or rec children
  | LogicalAnd children => map_logical_and rec children
  | If c t e => map_if rec c t e
  | IfPositive c t e => map_if_positive rec c t e
  | Min children => map_min rec expr children
  | Max children => map_max rec expr children
  | CommonSubexpression _ => map_common_subexpression
  | Substitution _ => map_substitution
  | Derivative _ => map_derivative
  | Slice _ => map_slice
  end.
End ExpressionOpCounter.
End ExpressionOpCounter.

(** ** GlobalSubscriptCounter *)

Module GlobalSubscriptCounter.
Section GlobalSubscriptCounter.
Variable knl : LoopKernel.
(** [self.type_inf = TypeInferenceMapper(knl)] *)
Variable type_inf : Expression → dtype.
(** [loopy.symbolic.get_dependencies], on the index tuple. *)
Variable get_dependencies : list Expression → gset string.
(** [loopy.symbolic.CoefficientCollector()(idx)]: the coefficient stored
    for each variable, where a variable without an entry is a [KeyError];
    or the exception the collector raises, which is [RuntimeError] on an
    index that is not linear or holds a subscript. *)
Variable CoefficientCollector : Expression → result (gmap string Z).

Abbreviation res := (result (@pyobj StridedGmemAccess _ _)).

(** [ToCountMap({StridedGmemAccess(dtype, stride, direction=None,
    variable=name): 1})] *)
Definition ToCountMap1 (dt : dtype) (stride : option Z) (name : string)
    : @pyobj StridedGmemAccess _ _ :=
  PyCountMap {[ mkStridedGmemAccess dt stride None name := PyInt 1 ]}.

Definition combine (values : list res) : res := py_sum values.

Definition map_constant (expr : Expression) : res := Ok (PyCountMap ∅).

Definition map_call (rec : Expression → res)
    (parameters : list Expression) : res :=
  combine (rec <$> parameters).

(** [my_inames = get_dependencies(index) & self.knl.all_inames()], in
    the order the set is iterated. *)
Definition my_inames (index : list Expression) : list string :=
  elements (get_dependencies index ∩ all_inames knl).

(** The first loop over [my_inames]: [(local_id_found, min_tag_axis)]. *)
Definition find_min_tag_axis (inames : list string) : bool * Z :=
  foldl (λ '(local_id_found, min_tag_axis) iname,
      match iname_to_tag knl !! iname with
      | Some (LocalIndexTag axis) =>
          (true, if axis <? min_tag_axis then axis else min_tag_axis)
      | _ => (local_id_found, min_tag_axis)
      end)
    (false, sys_maxsize) inames.

(** The second loop: the first iname whose local tag has that axis. *)
Definition find_min_lid (inames : list string) (min_tag_axis : Z)
    : option string :=
  List.find (λ iname,
      match iname_to_tag knl !! iname with
      | Some (LocalIndexTag axis) => bool_decide (axis = min_tag_axis)
      | _ => false
      end) inames.

(** [coeffs[Variable(min_lid)]]; [None] stands for the [KeyError]. *)
Definition coeff_of (coeffs : gmap string Z) (min_lid : option string)
    : option Z :=
  name ← min_lid; coeffs !! name.

(** The loop over [zip(index, array.dim_tags)]; [extra_stride] is 1.
    The collector is called outside the [try], so what it raises ends the
    loop. *)
Definition find_total_stride (index : list Expression)
    (dim_tags : list ArrayDimTag) (min_lid : option string)
    : result (option Z) :=
  let extra_stride := 1 in
  foldl (λ acc '(idx, axis_tag),
      total_stride ← acc;
      coeffs ← CoefficientCollector idx;
      match coeff_of coeffs min_lid with
      | None => Ok total_stride
      | Some coeff_min_lid =>
          match axis_tag with
          | FixedStrideArrayDimTag stride =>
              Ok (Some (stride * coeff_min_lid * extra_stride))
          | _ => Ok total_stride
          end
      end)
    (Ok None) (zip index dim_tags).

Definition map_subscript (rec : Expression → res) (expr : Expression)
    (aggregate index : Expression) : res :=
  name ← aggregate_name aggregate;
  match arg_dict knl !! name with
  | None => rec index
  | Some (GlobalArg dim_tags) =>
      let index_t := index_tuple index in
      let inames := my_inames index_t in
      let '(local_id_found, min_tag_axis) := find_min_tag_axis inames in
      if negb local_id_found then
        r ← rec index;
        py_add (ToCountMap1 (type_inf expr) (Some 0) name) r
      else
        let min_lid := find_min_lid inames min_tag_axis in
        total_stride ← find_total_stride index_t dim_tags min_lid;
        if bool_decide (min_tag_axis ≠ 0) then
          r ← rec index;
          py_add (ToCountMap1 (type_inf expr) (Some sys_maxsize) name) r
        else
          r ← rec index;
          py_add (ToCountMap1 (type_inf expr) total_stride name) r
  | Some _ => rec index
  end.

Definition map_sum (rec : Expression → res)
    (children : list Expression) : res :=
  match children with
  | [] => Ok (PyCountMap ∅)
  | _ => py_sum (rec <$> children)
  end.
Definition map_product := map_sum.

Definition map_quotient (rec : Expression → res) (a b : Expression) : res :=
  ra ← rec a; rb ← rec b; py_add ra rb.
Definition map_floor_div := map_quotient.
Definition map_remainder := map_quotient.
Definition map_power := map_quotient.
Definition map_left_shift := map_quotient.
Definition map_right_shift := map_left_shift.

Definition map_bitwise_not (rec : Expression → res) (child : Expression)
    : res :=
  rec child.

Definition map_bitwise_or (rec : Expression → res)
    (children : list Expression) : res :=
  py_sum (rec <$> children).
Definition map_bitwise_xor := map_bitwise_or.
Definition map_bitwise_and := map_bitwise_or.

Definition map_comparison := map_quotient.
Definition map_logical_not := map_bitwise_not.
Definition map_logical_or := map_bitwise_or.
Definition map_logical_and := map_logical_or.

Definition map_if (rec : Expression → res) (a b c : Expression) : res :=
  ra ← rec a; rb ← rec b; s ← py_add ra rb; rc ← rec c; py_add s rc.
Definition map_if_positive := map_if.

Definition map_min := map_bitwise_or.
Definition map_max := map_min.

Definition map_common_subexpression : res := Raise NotImplementedError.
Definition map_substitution : res := Raise NotImplementedError.
Definition map_derivative : res := Raise NotImplementedError.
Definition map_slice : res := Raise NotImplementedError.

Fixpoint rec (expr : Expression) : res :=
  match expr with
  | Constant _ | Var _ | TaggedVariable _ _ => map_constant expr
  | Call _ parameters => map_call rec parameters
  | Subscript aggregate index => map_subscript rec expr aggregate index
  | Tuple items => combine (rec <$> items)
  | Sum children => map_sum rec children
  | Product children => map_product rec children
  | Quotient n d => map_quotient rec n d
  | FloorDiv n d => map_floor_div rec n d
  | Remainder n d => map_remainder rec n d
  | Power b e => map_power rec b e
  | LeftShift a b => map_left_shift rec a b
  | RightShift a b => map_right_shift rec a b
  | BitwiseNot child => map_bitwise_not rec child
  | BitwiseOr children => map_bitwise_or rec children
  | BitwiseXor children => map_bitwise_xor rec children
  | BitwiseAnd children => map_bitwise_and rec children
  | Comparison l _ r => map_comparison rec l r
  | LogicalNot child => map_logical_not rec child
  | LogicalOr children => map_logical_or rec children
  | LogicalAnd children => map_logical_and rec children
  | If c t e => map_if rec c t e
  | IfPositive c t e => map_if_positive rec c t e
  | Min children => map_min rec children
  | Max children => map_max rec children
  | CommonSubexpression _ => map_common_subexpression
  | Substitution _ => map_substitution
  | Derivative _ => map_derivative
  | Slice _ => map_slice
  end.
End GlobalSubscriptCounter.
End GlobalSubscriptCounter.

(** ** AccessFootprintGatherer

    A footprint is an [isl] set of index tuples, here the set of its
    points.  A mapper result is a dictionary from array names to
    footprints, or [None]. *)

Abbreviation Footprint := (gset (list Z)) (only parsing).

Inductive fp_val :=
| FpNone
| FpDict (d : gmap string (gset (list Z))).

Module AccessFootprintGatherer.
Section AccessFootprintGatherer.
Variable domain : IslSet.
(** [loopy.symbolic.get_access_range(domain, subscript,
    self.kernel.assumptions)]; [None] when it raises [isl.Error] or
    [TypeError]. *)
Variable get_access_range : IslSet → list Expression → option Footprint.
(** The [map_*] method a node kind inherits from pymbolic's
    [CombineMapper], given the node and the results for its children. *)
Variable inherited : Expression → list (result fp_val) → result fp_val.

(** [a.copy()] and [six.iteritems(b)] need dictionaries. *)
Definition merge_dicts (a b : fp_val) : result fp_val :=
  match a with
  | FpNone => Raise AttributeError
  | FpDict a =>
      match b with
      | FpNone => Raise AttributeError
      | FpDict b =>
          Ok (FpDict (map_fold (λ var_name footprint (result : gmap string Footprint),
                match result !! var_name with
                | Some old => <[var_name := old ∪ footprint]> result
                | None => <[var_name := footprint]> result
                end) a b))
      end
  end.

(** [assert values; reduce(merge_dicts, values)] *)
Definition combine (values : list fp_val) : result fp_val :=
  match values with
  | [] => Raise AssertionError
  | v :: vs => foldl (λ acc b, a ← acc; merge_dicts a b) (Ok v) vs
  end.

Definition map_constant (expr : Expression) : result fp_val := Ok (FpDict ∅).
Definition map_variable (expr : Expression) : result fp_val := Ok (FpDict ∅).

Definition map_subscript (rec : Expression → result fp_val)
    (expr aggregate index : Expression) : result fp_val :=
  let subscript := index_tuple index in
  match get_access_range domain subscript with
  | None => Ok FpNone
  | Some access_range =>
      match aggregate with
      | Var name | TaggedVariable name _ =>
          r ← rec index;
          combine [r; FpDict {[ name := access_range ]}]
      | _ => Raise AssertionError
      end
  end.

Fixpoint rec (expr : Expression) : result fp_val :=
  match expr with
  | Constant _ => map_constant expr
  | Var _ => map_variable expr
  | Subscript aggregate index => map_subscript rec expr aggregate index
  | TaggedVariable _ _ => inherited expr []
  | Call _ children | Tuple children | Sum children | Product children
  | BitwiseOr children | BitwiseXor children | BitwiseAnd children
  | LogicalOr children | LogicalAnd children | Min children | Max children
  | Slice children =>
      inherited expr (rec <$> children)
  | Quotient a b | FloorDiv a b | Remainder a b | Power a b
  | LeftShift a b | RightShift a b | Comparison a _ b =>
      inherited expr [rec a; rec b]
  | BitwiseNot c | LogicalNot c | CommonSubexpression c | Substitution c
  | Derivative c =>
      inherited expr [rec c]
  | If a b c | IfPositive a b c => inherited expr [rec a; rec b; rec c]
  end.
End AccessFootprintGatherer.
End AccessFootprintGatherer.

(** ** count *)

(** [isl.PwQPolynomial.from_pw_aff] and [scale_down_val]: the latter
    divides the quasi-polynomial by the value, exactly. *)
Definition from_pw_aff (a : Z) : Qc := Z2Qc a.
Definition scale_down_val (p : Qc) (v : Z) : Qc := (p / Z2Qc v)%Qc.

(** The body of the loop over the dimensions of one basic set: the state is
    [(bset_count, bset_rebuilt)], the second as the list of conjuncts
    intersected so far. *)
Definition count_dim (bset : BasicSet) (st : option Qc * list DimBounds)
    (i : nat) : option Qc * list DimBounds :=
  let '(bset_count, bset_rebuilt) := st in
  let dmax := dim_max bset i in
  let dmin := dim_min bset i in
  let stride := default 1 (get_simple_strides bset !! i) in
  let length := from_pw_aff (dmax - dmin + stride) in
  let length := scale_down_val length stride in
  let bset_count :=
    match bset_count with
    | None => length
    | Some c => (c * length)%Qc
    end in
  (Some bset_count, bset_rebuilt ++ [mkDimBounds dmin dmax stride]).

(** The body of the loop over the basic sets: the state is the running
    [count] and the diagnostics given to [warn] so far. *)
Definition count_bset (st : num * list string) (bset : BasicSet)
    : num * list string :=
  let '(count, warnings) := st in
  let '(bset_count, bset_rebuilt) :=
    foldl (count_dim bset) (None, []) (seq 0 (bset_dim bset)) in
  let count :=
    match bset_count with
    | Some c => num_add count (PwQPolynomial c)
    | None => count
    end in
  let is_subset := bset_le bset bset_rebuilt in
  let is_superset := bset_ge bset bset_rebuilt in
  if negb (is_subset && is_superset) then
    if is_subset then (count, warnings ++ ["count_overestimate"])
    else if is_superset then (count, warnings ++ ["count_underestimate"])
    else (count, warnings ++ ["count_misestimate"])
  else (count, warnings).

(** [count(kernel, set)]: the count and the diagnostics emitted. *)
Definition count (kernel : LoopKernel) (set : IslSet) : num * list string :=
  match card set with
  | Some c => (c, [])
  | None => foldl count_bset (PyInt 0, []) (get_basic_sets set)
  end.

(** ** Replacing the keys of a dictionary while iterating over it

    [for key in d: d[f(key)] = d.pop(key)] removes and inserts keys of
    the dictionary its iterator runs over.  Python leaves open what the
    iterator does then: it may raise [RuntimeError], and it may skip keys
    or yield again a key that the loop has inserted.  On an empty
    dictionary there is nothing to yield and the loop ends at once.

    An [iteration] stands for the interpreter: for the dictionary the
    loop starts on, it gives the keys the iterator yields, in order, and
    whether the iterator then raises [RuntimeError] instead of ending the
    loop. *)
Definition iteration (K : Type) `{Countable K} : Type :=
  gmap K num → list K * bool.

(** The loop run on the yielded keys; [d.pop(key)] raises [KeyError] for
    a key that is not in the dictionary. *)
Definition replace_keys `{Countable K} (iterate : iteration K) (f : K → K)
    (d : gmap K num) : result (gmap K num) :=
  if decide (d = ∅) then Ok d
  else
    let '(keys, raises) := iterate d in
    d ← foldl (λ acc key,
           d ← acc;
           match d !! key with
           | Some v => Ok (<[f key := v]> (delete key d))
           | None => Raise KeyError
           end)
         (Ok d) keys;
    if raises : bool then Raise RuntimeError else Ok d.

(** ** get_gmem_access_poly

    The kernel is taken after [infer_unknown_types] and
    [preprocess_kernel].  [get_insn_count] is memoized in the source; it
    has no effect but the diagnostics of [count], which are not collected
    here. *)

Section get_gmem_access_poly.
Variable knl : LoopKernel.
Variable type_inf : Expression → dtype.
Variable get_dependencies : list Expression → gset string.
Variable CoefficientCollector : Expression → result (gmap string Z).
(** What the iterator of a dictionary of these keys does while the loops
    at the head of the loop body replace the keys. *)
Variable iterate : iteration StridedGmemAccess.

Definition get_insn_count (insn_inames : list string) (uniform : bool)
    : num :=
  let insn_inames :=
    if uniform then
      filter (λ iname, ¬ is_local_tag (iname_to_tag knl !! iname)) insn_inames
    else insn_inames in
  let domain := inames_domain knl insn_inames in
  (count knl domain).1.

(** [StridedGmemAccess(key.dtype, key.stride, direction=...,
    variable=key.variable)] *)
Definition with_direction (direction : string) (key : StridedGmemAccess)
    : StridedGmemAccess :=
  mkStridedGmemAccess (gmem_dtype key) (gmem_stride key) (Some direction)
    (gmem_variable key).

(** [for key in d: d[StridedGmemAccess(...)] = d.pop(key)], over the keys
    the iterator of [d] yields while the loop changes [d]. *)
Definition relabel (direction : string) (d : gmap StridedGmemAccess num)
    : result (gmap StridedGmemAccess num) :=
  replace_keys iterate (with_direction direction) d.

(** [isinstance(key.stride, int) and key.stride == 0] *)
Definition is_uniform (key : StridedGmemAccess) : bool :=
  bool_decide (gmem_stride key = Some 0).

(** [for key in subs.dict: poly = ToCountMap({key: subs.dict[key]}); ...]:
    each key's unit map is scaled by the count chosen for the key and
    added to [subs_poly]. *)
Definition weigh (insn_inames : list string)
    (subs subs_poly : gmap StridedGmemAccess num)
    : result (gmap StridedGmemAccess num) :=
  map_fold (λ key v acc,
      subs_poly ← acc;
      let poly : gmap StridedGmemAccess num := {[ key := v ]} in
      scaled ←
        (if is_uniform key then
           __mul__ poly (PyNum (get_insn_count insn_inames true))
         else
           __mul__ poly (PyNum (get_insn_count insn_inames false)));
      Ok (__add__ subs_poly scaled))
    (Ok subs_poly) subs.

(** [subscript_counter(e).dict] *)
Definition counter_dict (e : Expression)
    : result (gmap StridedGmemAccess num) :=
  r ← GlobalSubscriptCounter.rec knl type_inf get_dependencies
        CoefficientCollector e;
  match r with
  | PyCountMap m => Ok m
  | _ => Raise AttributeError
  end.

(** The body of the loop over [knl.instructions]. *)
Definition gmem_insn (subs_poly : gmap StridedGmemAccess num)
    (insn : Instruction) : result (gmap StridedGmemAccess num) :=
  match insn with
  | Assignment assignee expression insn_inames =>
      subs_expr ← counter_dict expression;
      subs_expr ← relabel "load" subs_expr;
      subs_assignee ← counter_dict assignee;
      subs_assignee ← relabel "store" subs_assignee;
      subs_poly ← weigh insn_inames subs_expr subs_poly;
      weigh insn_inames subs_assignee subs_poly
  | CInstruction _ => Raise AttributeError
  end.

Definition get_gmem_access_poly : result (gmap StridedGmemAccess num) :=
  foldl (λ acc insn, subs_poly ← acc; gmem_insn subs_poly insn)
    (Ok ∅) (instructions knl).
End get_gmem_access_poly.

(** ** get_barrier_poly

    The kernel is taken after [lp.get_one_scheduled_kernel]. *)

(** [functools.reduce(f, values)] on a non-empty sequence. *)
Definition reduce {A} (f : A → A → A) (values : list A) : option A :=
  match values with
  | [] => None
  | v :: vs => Some (foldl f v vs)
  end.

(** The body of the loop over [knl.schedule]; the state is
    [(iname_list, barrier_poly)]. *)
Definition barrier_item (knl : LoopKernel) (st : list string * num)
    (sched_item : ScheduleItem) : result (list string * num) :=
  let '(iname_list, barrier_poly) := st in
  match sched_item with
  | EnterLoop iname =>
      if bool_decide (iname ≠ "") then Ok (iname_list ++ [iname], barrier_poly)
      else Ok st
  | LeaveLoop iname =>
      if bool_decide (iname ≠ "") then
        match iname_list with
        | [] => Raise IndexError
        | _ => Ok (removelast iname_list, barrier_poly)
        end
      else Ok st
  | Barrier =>
      match iname_list with
      | [] => Ok (iname_list, num_add barrier_poly (PwQPolynomial 1%Qc))
      | _ =>
          let ct := [(count knl (inames_domain knl iname_list)).1] in
          match reduce num_mul ct with
          | Some c => Ok (iname_list, num_add barrier_poly c)
          | None => Raise TypeError
          end
      end
  | RunInstruction _ => Ok st
  end.

(** The loop run on a part of the schedule, from a given state. *)
Definition barrier_loop (knl : LoopKernel) (items : list ScheduleItem)
    (st : list string * num) : result (list string * num) :=
  foldl (λ acc sched_item, st ← acc; barrier_item knl st sched_item)
    (Ok st) items.

Definition get_barrier_poly (knl : LoopKernel) : result num :=
  st ← barrier_loop knl (schedule knl) ([], PwQPolynomial 0%Qc);
  Ok st.2.

(** ** gather_access_footprints *)

Section gather_access_footprints.
Variable kernel : LoopKernel.
Variable get_access_range : IslSet → list Expression → option Footprint.
Variable inherited : Expression → list (result fp_val) → result fp_val.

(** The body of the loop over [kernel.instructions]; the state is the
    diagnostics so far, [write_footprints] and [read_footprints]. *)
Definition footprint_insn (st : list string * list fp_val * list fp_val)
    (insn : Instruction) : result (list string * list fp_val * list fp_val) :=
  let '(warnings, write_footprints, read_footprints) := st in
  match insn with
  | Assignment assignee expression insn_inames =>
      let domain := inames_domain kernel insn_inames in
      let afg := AccessFootprintGatherer.rec domain get_access_range inherited in
      w ← afg assignee;
      r ← afg expression;
      Ok (warnings, write_footprints ++ [w], read_footprints ++ [r])
  | CInstruction _ =>
      Ok (warnings ++ ["count_non_assignment"],
          write_footprints, read_footprints)
  end.

(** [for vname, footprint in six.iteritems(footprints):
       result[(vname, direction)] = footprint] *)
Definition store_footprints (direction : string) (footprints : fp_val)
    (result_ : gmap (string * string) Footprint)
    : result (gmap (string * string) Footprint) :=
  match footprints with
  | FpNone => Raise AttributeError
  | FpDict d =>
      Ok (map_fold (λ vname footprint result_,
            <[(vname, direction) := footprint]> result_) result_ d)
  end.

Definition gather_access_footprints
    : result (list string * gmap (string * string) Footprint) :=
  st ← foldl (λ acc insn, st ← acc; footprint_insn st insn)
         (Ok ([], [], [])) (instructions kernel);
  let '(warnings, write_footprints, read_footprints) := st in
  write_footprints ← AccessFootprintGatherer.combine write_footprints;
  read_footprints ← AccessFootprintGatherer.combine read_footprints;
  result_ ← store_footprints "write" write_footprints ∅;
  result_ ← store_footprints "read" read_footprints result_;
  Ok (warnings, result_).
End gather_access_footprints.

(** ** Vocabulary of the statements *)

(** The sum of a list of count maps. *)
Definition sum_maps `{Countable K} (ms : list (gmap K num)) : gmap K num :=
  foldr __add__ ∅ ms.

(** The operation counter returns a count map for each of [children], the
    maps being [ms] in order. *)
Definition op_counts (type_inf : Expression → dtype)
    (children : list Expression) (ms : list (gmap TypedOp num)) : Prop :=
  Forall2 (λ child m,
      ExpressionOpCounter.rec type_inf child = Ok (PyCountMap m))
    children ms.

(** An expression made of leaves and of sums of at least one operand;
    the number of its leaves; the additions of its sum nodes that are
    counted at [key], a node of [n] operands having [n - 1]; and whether
    all its sum nodes are inferred to have the type [dt]. *)
Fixpoint additions_only (e : Expression) : bool :=
  match e with
  | Sum children =>
      match children with
      | [] => false
      | _ => forallb additions_only children
      end
  | _ => is_leaf e
  end.

Fixpoint leaves (e : Expression) : Z :=
  match e with
  | Sum children => foldr Z.add 0 (leaves <$> children)
  | _ => 1
  end.

Fixpoint adds_at (type_inf : Expression → dtype) (key : TypedOp)
    (e : Expression) : Z :=
  match e with
  | Sum children =>
      (if decide (mkTypedOp (type_inf e) "add" = key)
       then Z.of_nat (length children) - 1 else 0)
      + foldr Z.add 0 (adds_at type_inf key <$> children)
  | _ => 0
  end.

Fixpoint sums_typed (type_inf : Expression → dtype) (dt : dtype)
    (e : Expression) : bool :=
  match e with
  | Sum children =>
      bool_decide (type_inf e = dt) && forallb (sums_typed type_inf dt) children
  | _ => true
  end.

(** A count map of string keys, for examples. *)
Definition two_units : gmap string num := {[ "k" := PyInt 2 ]}.

(** The stride [count] uses for a dimension. *)
Definition stride_of (bset : BasicSet) (i : nat) : Z :=
  default 1 (get_simple_strides bset !! i).

(** [floor((max - min) / stride) + 1] for one dimension, and its product
    over the dimensions of a basic set: the number of points of the
    strided box with those bounds.  The sum over the pieces of a set. *)
Definition axis_length (bset : BasicSet) (i : nat) : Z :=
  (dim_max bset i - dim_min bset i) `div` stride_of bset i + 1.

Definition box_size (bset : BasicSet) : Z :=
  foldr Z.mul 1 (axis_length bset <$> seq 0 (bset_dim bset)).

Definition boxes_size (set : IslSet) : Z :=
  foldr Z.add 0 (box_size <$> get_basic_sets set).

(** The exact quotient [(max - min + stride) / stride] for one dimension,
    and what one basic set adds to the count: the product of the quotients
    of its dimensions, or nothing when it has no dimension. *)
Definition axis_quotient (bset : BasicSet) (i : nat) : Qc :=
  (Z2Qc (dim_max bset i - dim_min bset i + stride_of bset i)
   / Z2Qc (stride_of bset i))%Qc.

Definition piece_count (bset : BasicSet) : Qc :=
  match bset_dim bset with
  | O => 0%Qc
  | _ => foldr Qcmult 1%Qc (axis_quotient bset <$> seq 0 (bset_dim bset))
  end.

(** The box [count] rebuilds for a basic set, one conjunct per dimension,
    and whether the basic set is that box. *)
Definition rebuilt_box (bset : BasicSet) : list DimBounds :=
  (λ i, mkDimBounds (dim_min bset i) (dim_max bset i) (stride_of bset i))
    <$> seq 0 (bset_dim bset).

Definition is_its_box (bset : BasicSet) : bool :=
  bset_le bset (rebuilt_box bset) && bset_ge bset (rebuilt_box bset).

(** Every stride of the basic set is positive and divides the extent of
    its dimension. *)
Definition strides_divide (bset : BasicSet) : Prop :=
  ∀ i, (i < bset_dim bset)%nat →
    0 < stride_of bset i
    ∧ (stride_of bset i | dim_max bset i - dim_min bset i).

(** The even numbers of [0, 9], with the stride 2 on the one dimension. *)
Definition evens : IslSet :=
  {| card := None;
     get_basic_sets :=
       [basic_set_of_points 1 [[0]; [2]; [4]; [6]; [8]] {[ 0%nat := 2 ]}] |}.

(** The triangle [0 <= j <= i <= 2]. *)
Definition triangle : IslSet :=
  {| card := None;
     get_basic_sets :=
       [basic_set_of_points 2
          [[0; 0]; [1; 0]; [1; 1]; [2; 0]; [2; 1]; [2; 2]] ∅] |}.

(** A kernel with nothing in it, whose every domain is [set]. *)
Definition kernel_of_domain (set : IslSet) : LoopKernel :=
  {| arg_dict := ∅; all_inames := ∅; iname_to_tag := ∅;
     instructions := []; schedule := []; inames_domain := λ _, set |}.

(** The axes of the lane (local) tags among some inames, and their
    minimum. *)
Definition lane_axes (knl : LoopKernel) (inames : list string) : list Z :=
  omap (λ iname,
      match iname_to_tag knl !! iname with
      | Some (LocalIndexTag axis) => Some axis
      | _ => None
      end) inames.

Definition min_lane_axis (knl : LoopKernel) (inames : list string)
    : option Z :=
  match lane_axes knl inames with
  | [] => None
  | axis :: axes => Some (foldr Z.min axis axes)
  end.

Definition is_fixed_stride (axis_tag : ArrayDimTag) : bool :=
  match axis_tag with
  | FixedStrideArrayDimTag _ => true
  | _ => false
  end.

(** The weight the aggregator gives a key, from the two execution counts
    of the instruction. *)
Definition key_weight (uniform_count full_count : Qc)
    (key : StridedGmemAccess) : num :=
  PwQPolynomial (if is_uniform key then uniform_count else full_count).

(** A dictionary of the aggregator with every value multiplied by the
    weight of its key. *)
Definition weighted (uniform_count full_count : Qc)
    (d : gmap StridedGmemAccess num) : gmap StridedGmemAccess num :=
  map_imap (λ key v, Some (num_mul v (key_weight uniform_count full_count key)))
    d.

(** *** Instances of the collectors, for examples

    The names an expression mentions, and the coefficient of each variable
    in an expression built from sums, literals, variables and products of a
    literal with such an expression: coefficients add up under a sum, and
    an entry that adds up to zero stays.  On any other expression, a
    product of two variables and a subscript among them, this collector
    raises [RuntimeError]. *)
Fixpoint variables (e : Expression) : gset string :=
  match e with
  | Constant _ => ∅
  | Var name | TaggedVariable name _ => {[ name ]}
  | Call _ children | Tuple children | Sum children | Product children
  | BitwiseOr children | BitwiseXor children | BitwiseAnd children
  | LogicalOr children | LogicalAnd children | Min children | Max children
  | Slice children => ⋃ (variables <$> children)
  | Subscript a b | Quotient a b | FloorDiv a b | Remainder a b | Power a b
  | LeftShift a b | RightShift a b | Comparison a _ b =>
      variables a ∪ variables b
  | BitwiseNot c | LogicalNot c | CommonSubexpression c | Substitution c
  | Derivative c => variables c
  | If a b c | IfPositive a b c => variables a ∪ variables b ∪ variables c
  end.

Definition dependencies (index : list Expression) : gset string :=
  ⋃ (variables <$> index).

Fixpoint linear_coeffs (e : Expression) : result (gmap string Z) :=
  match e with
  | Constant _ => Ok ∅
  | Var name => Ok {[ name := 1 ]}
  | Sum children =>
      foldr (λ r rest,
          a ← r; b ← rest; Ok (union_with (λ x y, Some (x + y)) a b))
        (Ok ∅) (linear_coeffs <$> children)
  | Product [Constant c; e'] =>
      coeffs ← linear_coeffs e';
      Ok ((Z.mul c <$> coeffs) : gmap string Z)
  | _ => Raise RuntimeError
  end.

(** *** Instances of the iteration, for examples

    [every_key]: the iterator yields the keys the dictionary has when the
    loop starts, each once, and ends the loop.  [first_key_then_error]:
    it yields one key and raises [RuntimeError] when it is asked for the
    next. *)
Definition every_key `{Countable K} : iteration K :=
  λ d, ((map_to_list d).*1, false).

Definition first_key_then_error `{Countable K} : iteration K :=
  λ d, (take 1 (map_to_list d).*1, true).

(** A kernel with one global array ["a"] of one dimension and stride 1,
    and one iname ["i"] carrying lane axis 0. *)
Definition lane0_kernel : LoopKernel :=
  {| arg_dict := {[ "a" := GlobalArg [FixedStrideArrayDimTag 1] ]};
     all_inames := {[ "i" ]};
     iname_to_tag := {[ "i" := LocalIndexTag 0 ]};
     instructions := []; schedule := [];
     inames_domain := λ _, interval 8 |}.

(** [a[i - i]]: the index mentions ["i"] with coefficients 1 and -1. *)
Definition a_i_minus_i : Expression :=
  Subscript (Var "a") (Sum [Var "i"; Product [Constant (-1); Var "i"]]).

(** A kernel with the same array, a lane iname ["i"] over [0, 3] and a
    sequential iname ["j"] over [0, 7]: the domain of ["j"] alone is the
    interval, that of both inames the rectangle. *)
Definition mixed_kernel : LoopKernel :=
  {| arg_dict := {[ "a" := GlobalArg [FixedStrideArrayDimTag 1] ]};
     all_inames := {[ "i"; "j" ]};
     iname_to_tag := {[ "i" := LocalIndexTag 0 ]};
     instructions := []; schedule := [];
     inames_domain := λ inames,
       if bool_decide (inames = ["j"]) then interval 8 else rectangle 4 8 |}.

(** The same with a second array and the instruction [b[i] = a[j]] under
    both inames. *)
Definition copy_kernel : LoopKernel :=
  {| arg_dict :=
       {[ "a" := GlobalArg [FixedStrideArrayDimTag 1];
          "b" := GlobalArg [FixedStrideArrayDimTag 1] ]};
     all_inames := {[ "i"; "j" ]};
     iname_to_tag := {[ "i" := LocalIndexTag 0 ]};
     instructions :=
       [ Assignment (Subscript (Var "b") (Var "i"))
           (Subscript (Var "a") (Var "j")) ["i"; "j"] ];
     schedule := [];
     inames_domain := λ inames,
       if bool_decide (inames = ["j"]) then interval 8 else rectangle 4 8 |}.

(** A kernel with three global arrays, ["a"] and ["b"] of stride 1 and
    ["v"] without a fixed stride, the lane iname ["i"] and the sequential
    iname ["j"], and the instruction [x = a[j] + b[i] + v[i]] under both
    inames. *)
Definition reads_kernel : LoopKernel :=
  {| arg_dict :=
       {[ "a" := GlobalArg [FixedStrideArrayDimTag 1];
          "b" := GlobalArg [FixedStrideArrayDimTag 1];
          "v" := GlobalArg [VectorArrayDimTag] ]};
     all_inames := {[ "i"; "j" ]};
     iname_to_tag := {[ "i" := LocalIndexTag 0 ]};
     instructions :=
       [ Assignment (Var "x")
           (Sum [ Subscript (Var "a") (Var "j");
                  Subscript (Var "b") (Var "i");
                  Subscript (Var "v") (Var "i") ])
           ["i"; "j"] ];
     schedule := [];
     inames_domain := λ inames,
       if bool_decide (inames = ["j"]) then interval 8 else rectangle 4 8 |}.

(** The right-hand side of the instruction of [reads_kernel], and the
    counts of its subscripts before and after the directions are set. *)
Definition reads_expression : Expression :=
  Sum [ Subscript (Var "a") (Var "j");
        Subscript (Var "b") (Var "i");
        Subscript (Var "v") (Var "i") ].

Definition reads_counts (direction : option string)
    : gmap StridedGmemAccess num :=
  {[ mkStridedGmemAccess "float32" (Some 0) direction "a" := PyInt 1;
     mkStridedGmemAccess "float32" (Some 1) direction "b" := PyInt 1;
     mkStridedGmemAccess "float32" None direction "v" := PyInt 1 ]}.

(** A kernel whose only iname ["i"] is a lane iname, with the instruction
    [x = a[0]] under it: without the lane inames the instruction has no
    iname left, and the domain of no inames has no dimension. *)
Definition all_lanes_kernel : LoopKernel :=
  {| arg_dict := {[ "a" := GlobalArg [FixedStrideArrayDimTag 1] ]};
     all_inames := {[ "i" ]};
     iname_to_tag := {[ "i" := LocalIndexTag 0 ]};
     instructions :=
       [ Assignment (Var "x") (Subscript (Var "a") (Constant 0)) ["i"] ];
     schedule := [];
     inames_domain := λ inames,
       if bool_decide (inames = []) then zero_dim_set else interval 8 |}.

(** The entries of a result, each value as a rational. *)
Definition entries (r : result (gmap StridedGmemAccess num))
    : option (list (StridedGmemAccess * Q)) :=
  match r with
  | Ok m => Some ((λ p, (p.1, this (num_value p.2))) <$> map_to_list m)
  | Raise _ => None
  end.

(** A kernel whose one iname ["i"] carries lane axis 1. *)
Definition lane1_kernel : LoopKernel :=
  {| arg_dict := {[ "a" := GlobalArg [FixedStrideArrayDimTag 1] ]};
     all_inames := {[ "i" ]};
     iname_to_tag := {[ "i" := LocalIndexTag 1 ]};
     instructions := []; schedule := [];
     inames_domain := λ _, interval 8 |}.

(** A kernel like [lane0_kernel] whose array dimension has no fixed
    stride. *)
Definition lane0_vector_kernel : LoopKernel :=
  {| arg_dict := {[ "a" := GlobalArg [VectorArrayDimTag] ]};
     all_inames := {[ "i" ]};
     iname_to_tag := {[ "i" := LocalIndexTag 0 ]};
     instructions := []; schedule := [];
     inames_domain := λ _, interval 8 |}.


(** The set is one basic set of two dimensions with the bounds
    [0, N - 1] and [0, M - 1], without strides and without an exact
    cardinality. *)
Definition is_rectangle (N M : Z) (set : IslSet) : Prop :=
  card set = None
  ∧ ∃ bset, get_basic_sets set = [bset]
      ∧ bset_dim bset = 2%nat
      ∧ dim_min bset 0 = 0 ∧ dim_max bset 0 = N - 1
      ∧ dim_min bset 1 = 0 ∧ dim_max bset 1 = M - 1
      ∧ get_simple_strides bset = ∅
      ∧ is_its_box bset = true.

(** The start of the loop of [get_barrier_poly]. *)
Definition barrier_start : list string * num := ([], PwQPolynomial 0%Qc).


(** An access-range backend, for examples, that represents an index tuple
    made of leaves and raises on any other. *)
Definition leaf_access_range (domain : IslSet) (subscript : list Expression)
    : option Footprint :=
  if forallb is_leaf subscript then Some {[ [0] ]} else None.

(** No inherited method is needed by the examples. *)
Definition no_inherited (expr : Expression) (children : list (result fp_val))
    : result fp_val :=
  Raise NotImplementedError.

(** [a[i * i] = x] then [b[i] = y], both under the iname ["i"]. *)
Definition nonlinear_write_kernel : LoopKernel :=
  {| arg_dict := ∅; all_inames := {[ "i" ]}; iname_to_tag := ∅;
     instructions :=
       [ Assignment (Subscript (Var "a") (Product [Var "i"; Var "i"]))
           (Var "x") ["i"];
         Assignment (Subscript (Var "b") (Var "i")) (Var "y") ["i"] ];
     schedule := [];
     inames_domain := λ _, interval 8 |}.

(** The second instruction alone. *)
Definition linear_write_kernel : LoopKernel :=
  {| arg_dict := ∅; all_inames := {[ "i" ]}; iname_to_tag := ∅;
     instructions :=
       [ Assignment (Subscript (Var "b") (Var "i")) (Var "y") ["i"] ];
     schedule := [];
     inames_domain := λ _, interval 8 |}.

(** The diagnostics and the entries of a result of
    [gather_access_footprints], each footprint as the list of its points. *)
Definition footprint_entries
    (r : result (list string * gmap (string * string) Footprint))
    : option (list string * list (string * string * list (list Z))) :=
  match r with
  | Ok (warnings, m) =>
      Some (warnings, (λ p, (p.1, elements p.2)) <$> map_to_list m)
  | Raise _ => None
  end.

(** * More of the module

    The rest of the file's functions, and what the statements about them
    need. *)

(** The count a map holds in all, each value as a rational; and the same
    for what a counter returns, where a number counts as itself. *)
Definition units `{Countable K} (m : gmap K num) : Qc :=
  map_fold (λ _ v acc, (num_value v + acc)%Qc) 0%Qc m.

Definition obj_units `{Countable K} (r : @pyobj K _ _) : Qc :=
  match r with
  | PyCountMap m => units m
  | PyNum v => num_value v
  | PyNone => 0%Qc
  end.

(** Every value of the map is a Python integer. *)
Definition int_valued `{Countable K} (m : gmap K num) : Prop :=
  ∀ k v, m !! k = Some v → ∃ n, v = PyInt n.

(** Every key of the map satisfies [P]. *)
Definition keys_of `{Countable K} (P : K → Prop) (m : gmap K num) : Prop :=
  ∀ k v, m !! k = Some v → P k.

(** What a counter does on an expression: it raises
    [NotImplementedError] when it meets a node it does not support, and
    returns a count map of integers otherwise. *)
Definition outcome `{Countable K} (unsupported : bool)
    (r : result (@pyobj K _ _)) : Prop :=
  if unsupported then r = Raise NotImplementedError
  else ∃ m, r = Ok (PyCountMap m) ∧ int_valued m.

(** The nodes a mapper may be sent to from a node. *)
Definition subexpressions (e : Expression) : list Expression :=
  match e with
  | Constant _ | Var _ | TaggedVariable _ _ => []
  | Subscript aggregate index => [aggregate; index]
  | Call _ children | Tuple children | Sum children | Product children
  | BitwiseOr children | BitwiseXor children | BitwiseAnd children
  | LogicalOr children | LogicalAnd children | Min children | Max children
  | Slice children => children
  | Quotient a b | FloorDiv a b | Remainder a b | Power a b
  | LeftShift a b | RightShift a b | Comparison a _ b => [a; b]
  | BitwiseNot c | LogicalNot c | CommonSubexpression c | Substitution c
  | Derivative c => [c]
  | If a b c | IfPositive a b c => [a; b; c]
  end.

(** [a1 + ... + an] on integers. *)
Definition total (values : list Z) : Z := foldr Z.add 0 values.

(** ** What the operation counter walks

    The number of operations of an expression as [ExpressionOpCounter]
    meets them: one for a call and for a node of one or two operands that
    computes, one less than the number of operands for a node of several,
    where the operands of a product are its factors other than the literal
    [-1].  Comparisons, logical connectives, conditionals and tuples add
    nothing of their own, and the aggregate of a subscript is not
    visited.  The nodes the counter raises on are given no operation. *)
Fixpoint op_count (e : Expression) : Z :=
  match e with
  | Constant _ | Var _ | TaggedVariable _ _ => 0
  | Call _ parameters => 1 + total (op_count <$> parameters)
  | Subscript _ index => op_count index
  | Tuple children | LogicalOr children | LogicalAnd children =>
      total (op_count <$> children)
  | Sum children | BitwiseOr children | BitwiseXor children
  | BitwiseAnd children | Min children | Max children =>
      Z.of_nat (length children) - 1 + total (op_count <$> children)
  | Product children =>
      Z.of_nat (length (filter (λ c, ¬ is_zero_plus_one c) children)) - 1
      + total (op_count <$> children)
  | Quotient a b | FloorDiv a b | Remainder a b | Power a b
  | LeftShift a b | RightShift a b => 1 + op_count a + op_count b
  | BitwiseNot c => 1 + op_count c
  | Comparison a _ b => op_count a + op_count b
  | LogicalNot c => op_count c
  | If a b c | IfPositive a b c => op_count a + op_count b + op_count c
  | CommonSubexpression _ | Substitution _ | Derivative _ | Slice _ => 0
  end.

(** Every node the counter visits that has a list of operands has at
    least one. *)
Fixpoint nonempty_operands (e : Expression) : bool :=
  match e with
  | Constant _ | Var _ | TaggedVariable _ _ => true
  | Subscript _ index => nonempty_operands index
  | Call _ children | Tuple children | Sum children | Product children
  | BitwiseOr children | BitwiseXor children | BitwiseAnd children
  | LogicalOr children | LogicalAnd children | Min children | Max children =>
      bool_decide (children ≠ []) && forallb nonempty_operands children
  | Quotient a b | FloorDiv a b | Remainder a b | Power a b
  | LeftShift a b | RightShift a b | Comparison a _ b =>
      nonempty_operands a && nonempty_operands b
  | BitwiseNot c | LogicalNot c => nonempty_operands c
  | If a b c | IfPositive a b c =>
      nonempty_operands a && nonempty_operands b && nonempty_operands c
  | CommonSubexpression _ | Substitution _ | Derivative _ | Slice _ => true
  end.

(** The counter visits a common subexpression, a substitution, a
    derivative or a slice. *)
Fixpoint visits_unsupported (e : Expression) : bool :=
  match e with
  | Constant _ | Var _ | TaggedVariable _ _ => false
  | Subscript _ index => visits_unsupported index
  | Call _ children | Tuple children | Sum children | Product children
  | BitwiseOr children | BitwiseXor children | BitwiseAnd children
  | LogicalOr children | LogicalAnd children | Min children | Max children =>
      existsb visits_unsupported children
  | Quotient a b | FloorDiv a b | Remainder a b | Power a b
  | LeftShift a b | RightShift a b | Comparison a _ b =>
      visits_unsupported a || visits_unsupported b
  | BitwiseNot c | LogicalNot c => visits_unsupported c
  | If a b c | IfPositive a b c =>
      visits_unsupported a || visits_unsupported b || visits_unsupported c
  | CommonSubexpression _ | Substitution _ | Derivative _ | Slice _ => true
  end.

(** ** LocalSubscriptCounter *)

Record LmemAccess := mkLmemAccess {
  lmem_dtype : dtype;
  lmem_direction : option string
}.

Global Instance LmemAccess_eq_dec : EqDecision LmemAccess.
Proof. solve_decision. Defined.

Global Instance LmemAccess_countable : Countable LmemAccess :=
  inj_countable' (λ k, (lmem_dtype k, lmem_direction k))
    (λ p, mkLmemAccess p.1 p.2)
    (λ k, match k with mkLmemAccess _ _ => eq_refl end).

(** An entry of [knl.temporary_variables], as far as the counter reads
    it. *)
Record TemporaryVariable := mkTemporaryVariable {
  is_local : bool
}.

Module LocalSubscriptCounter.
Section LocalSubscriptCounter.
(** [self.knl.temporary_variables] *)
Variable temporary_variables : gmap string TemporaryVariable.
(** [self.type_inf = TypeInferenceMapper(knl)] *)
Variable type_inf : Expression → dtype.

Abbreviation res := (result (@pyobj LmemAccess _ _)).

(** [ToCountMap({LmemAccess(dtype, direction=None): 1})] *)
Definition ToCountMap1 (dt : dtype) : @pyobj LmemAccess _ _ :=
  PyCountMap {[ mkLmemAccess dt None := PyInt 1 ]}.

Definition combine (values : list res) : res := py_sum values.

Definition map_constant (expr : Expression) : res := Ok (PyCountMap ∅).

Definition map_call (rec : Expression → res)
    (parameters : list Expression) : res :=
  combine (rec <$> parameters).

Definition map_subscript (rec : Expression → res) (expr : Expression)
    (aggregate index : Expression) : res :=
  name ← aggregate_name aggregate;
  match temporary_variables !! name with
  | Some array =>
      if is_local array then
        r ← rec index;
        py_add (ToCountMap1 (type_inf expr)) r
      else rec index
  | None => rec index
  end.

Definition map_sum (rec : Expression → res)
    (children : list Expression) : res :=
  match children with
  | [] => Ok (PyCountMap ∅)
  | _ => py_sum (rec <$> children)
  end.
Definition map_product := map_sum.

Definition map_quotient (rec : Expression → res) (a b : Expression) : res :=
  ra ← rec a; rb ← rec b; py_add ra rb.
Definition map_floor_div := map_quotient.
Definition map_remainder := map_quotient.
Definition map_power := map_quotient.
Definition map_left_shift := map_quotient.
Definition map_right_shift := map_left_shift.

Definition map_bitwise_not (rec : Expression → res) (child : Expression)
    : res :=
  rec child.

Definition map_bitwise_or (rec : Expression → res)
    (children : list Expression) : res :=
  py_sum (rec <$> children).
Definition map_bitwise_xor := map_bitwise_or.
Definition map_bitwise_and := map_bitwise_or.

Definition map_comparison := map_quotient.
Definition map_logical_not := map_bitwise_not.
Definition map_logical_or := map_bitwise_or.
Definition map_logical_and := map_logical_or.

Definition map_if (rec : Expression → res) (a b c : Expression) : res :=
  ra ← rec a; rb ← rec b; s ← py_add ra rb; rc ← rec c; py_add s rc.
Definition map_if_positive := map_if.

Definition map_min := map_bitwise_or.
Definition map_max := map_min.

Definition map_common_subexpression : res := Raise NotImplementedError.
Definition map_substitution : res := Raise NotImplementedError.
Definition map_derivative : res := Raise NotImplementedError.
Definition map_slice : res := Raise NotImplementedError.

Fixpoint rec (expr : Expression) : res :=
  match expr with
  | Constant _ | Var _ | TaggedVariable _ _ => map_constant expr
  | Call _ parameters => map_call rec parameters
  | Subscript aggregate index => map_subscript rec expr aggregate index
  | Tuple items => combine (rec <$> items)
  | Sum children => map_sum rec children
  | Product children => map_product rec children
  | Quotient n d => map_quotient rec n d
  | FloorDiv n d => map_floor_div rec n d
  | Remainder n d => map_remainder rec n d
  | Power b e => map_power rec b e
  | LeftShift a b => map_left_shift rec a b
  | RightShift a b => map_right_shift rec a b
  | BitwiseNot child => map_bitwise_not rec child
  | BitwiseOr children => map_bitwise_or rec children
  | BitwiseXor children => map_bitwise_xor rec children
  | BitwiseAnd children => map_bitwise_and rec children
  | Comparison l _ r => map_comparison rec l r
  | LogicalNot child => map_logical_not rec child
  | LogicalOr children => map_logical_or rec children
  | LogicalAnd children => map_logical_and rec children
  | If c t e => map_if rec c t e
  | IfPositive c t e => map_if_positive rec c t e
  | Min children => map_min rec children
  | Max children => map_max rec children
  | CommonSubexpression _ => map_common_subexpression
  | Substitution _ => map_substitution
  | Derivative _ => map_derivative
  | Slice _ => map_slice
  end.
End LocalSubscriptCounter.
End LocalSubscriptCounter.

(** ** What the subscript counters walk

    The number of subscripts of an expression that a subscript counter
    counts: those into an array that [counted] holds of, the index of
    every subscript being searched as well.  The nodes the counters raise
    on, a subscript of something that is not a variable among them, are
    given no subscript. *)
Fixpoint subscripts (counted : string → bool) (e : Expression) : Z :=
  match e with
  | Constant _ | Var _ | TaggedVariable _ _ => 0
  | Subscript aggregate index =>
      match aggregate with
      | Var name | TaggedVariable name _ =>
          (if counted name then 1 else 0) + subscripts counted index
      | _ => 0
      end
  | Call _ children | Tuple children | Sum children | Product children
  | BitwiseOr children | BitwiseXor children | BitwiseAnd children
  | LogicalOr children | LogicalAnd children | Min children | Max children =>
      total (subscripts counted <$> children)
  | Quotient a b | FloorDiv a b | Remainder a b | Power a b
  | LeftShift a b | RightShift a b | Comparison a _ b =>
      subscripts counted a + subscripts counted b
  | BitwiseNot c | LogicalNot c => subscripts counted c
  | If a b c | IfPositive a b c =>
      subscripts counted a + subscripts counted b + subscripts counted c
  | CommonSubexpression _ | Substitution _ | Derivative _ | Slice _ => 0
  end.

(** The array is a temporary in local memory; the array is an argument in
    global memory. *)
Definition in_local_memory (temporary_variables : gmap string TemporaryVariable)
    (name : string) : bool :=
  match temporary_variables !! name with
  | Some array => is_local array
  | None => false
  end.

Definition in_global_memory (knl : LoopKernel) (name : string) : bool :=
  match arg_dict knl !! name with
  | Some (GlobalArg _) => true
  | _ => false
  end.

(** Every key of what a counter returns satisfies [P]. *)
Definition keys_in `{Countable K} (P : K → Prop) (r : @pyobj K _ _) : Prop :=
  match r with
  | PyCountMap m => ∀ k v, m !! k = Some v → P k
  | _ => True
  end.

(** ** get_op_poly

    The kernel is taken after [infer_unknown_types] and
    [preprocess_kernel]. *)

(** Python's [a * c] where [c] is a number, as [count] returns it: a
    count map answers with [ToCountMap.__mul__], a number is multiplied. *)
Definition py_mul `{Countable K} (a : @pyobj K _ _) (c : num)
    : result pyobj :=
  match a with
  | PyCountMap m => PyCountMap <$> __mul__ m (PyNum c)
  | PyNum x => Ok (PyNum (num_mul x c))
  | PyNone => Raise TypeError
  end.

Section get_op_poly.
Variable knl : LoopKernel.
Variable type_inf : Expression → dtype.

(** The body of the loop over [knl.instructions]:
    [ops = op_counter(insn.assignee) + op_counter(insn.expression)] and
    [op_poly = op_poly + ops*count(knl, domain)], where
    [ToCountMap.__add__] reads [other.dict]. *)
Definition op_insn (op_poly : gmap TypedOp num) (insn : Instruction)
    : result (gmap TypedOp num) :=
  match insn with
  | Assignment assignee expression insn_inames =>
      let domain := inames_domain knl insn_inames in
      ra ← ExpressionOpCounter.rec type_inf assignee;
      re ← ExpressionOpCounter.rec type_inf expression;
      ops ← py_add ra re;
      scaled ← py_mul ops (count knl domain).1;
      match scaled with
      | PyCountMap m => Ok (__add__ op_poly m)
      | _ => Raise AttributeError
      end
  | CInstruction _ => Raise AttributeError
  end.

Definition get_op_poly : result (gmap TypedOp num) :=
  foldl (λ acc insn, op_poly ← acc; op_insn op_poly insn)
    (Ok ∅) (instructions knl).
End get_op_poly.

(** ** get_lmem_access_poly *)

Section get_lmem_access_poly.
Variable knl : LoopKernel.
(** [knl.temporary_variables] *)
Variable temporary_variables : gmap string TemporaryVariable.
Variable type_inf : Expression → dtype.
(** What the iterator of a dictionary of these keys does while the loop
    at the head of the loop body replaces the keys. *)
Variable iterate : iteration LmemAccess.

(** The [get_insn_count] of this function: it has no [uniform] flag. *)
Definition lmem_insn_count (insn_inames : list string) : num :=
  let domain := inames_domain knl insn_inames in
  (count knl domain).1.

(** [LmemAccess(key.dtype, direction='load')] *)
Definition as_load (key : LmemAccess) : LmemAccess :=
  mkLmemAccess (lmem_dtype key) (Some "load").

(** [for key in d: d[LmemAccess(key.dtype, direction='load')] = d.pop(key)],
    over the keys the iterator of [d] yields while the loop changes [d]. *)
Definition lmem_relabel (d : gmap LmemAccess num)
    : result (gmap LmemAccess num) :=
  replace_keys iterate as_load d.

(** [for key in subs_expr.dict: poly = ToCountMap({key: ...});
       subs_poly = subs_poly + poly*get_insn_count(knl, insn_inames)] *)
Definition lmem_weigh (insn_inames : list string)
    (subs subs_poly : gmap LmemAccess num) : result (gmap LmemAccess num) :=
  map_fold (λ key v acc,
      subs_poly ← acc;
      let poly : gmap LmemAccess num := {[ key := v ]} in
      scaled ← __mul__ poly (PyNum (lmem_insn_count insn_inames));
      Ok (__add__ subs_poly scaled))
    (Ok subs_poly) subs.

(** [subscript_counter(e).dict] *)
Definition lmem_counter_dict (e : Expression)
    : result (gmap LmemAccess num) :=
  r ← LocalSubscriptCounter.rec temporary_variables type_inf e;
  match r with
  | PyCountMap m => Ok m
  | _ => Raise AttributeError
  end.

(** The body of the loop over [knl.instructions].  The counts of the
    assignee are computed and printed, not added: the code that would add
    them is commented out in the source. *)
Definition lmem_insn (subs_poly : gmap LmemAccess num) (insn : Instruction)
    : result (gmap LmemAccess num) :=
  match insn with
  | Assignment assignee expression insn_inames =>
      subs_expr ← lmem_counter_dict expression;
      subs_expr ← lmem_relabel subs_expr;
      subs_assignee ← lmem_counter_dict assignee;
      lmem_weigh insn_inames subs_expr subs_poly
  | CInstruction _ => Raise AttributeError
  end.

Definition get_lmem_access_poly : result (gmap LmemAccess num) :=
  foldl (λ acc insn, subs_poly ← acc; lmem_insn subs_poly insn)
    (Ok ∅) (instructions knl).
End get_lmem_access_poly.

(** [get_DRAM_access_poly]: the deprecated name of
    [get_gmem_access_poly]; the deprecation warning is not collected. *)
Definition get_DRAM_access_poly := get_gmem_access_poly.

(** ** Vocabulary for the aggregators *)

(** The dictionary with every key [k] replaced by [f k]. *)
Definition renamed `{Countable K} (f : K → K) (d : gmap K num) : gmap K num :=
  list_to_map (prod_map f id <$> map_to_list d).

(** On the dictionary [d] the iterator yields every key that [d] has when
    the loop starts, once, and ends the loop. *)
Definition yields_every_key `{Countable K} (iterate : iteration K)
    (d : gmap K num) : Prop :=
  NoDup (iterate d).1
  ∧ (∀ k, k ∈ (iterate d).1 ↔ is_Some (d !! k))
  ∧ (iterate d).2 = false.

(** How often an instruction runs: the count of the domain of its inames,
    as a rational. *)
Definition insn_inames_of (insn : Instruction) : list string :=
  match insn with
  | Assignment _ _ insn_inames | CInstruction insn_inames => insn_inames
  end.

Definition runs (knl : LoopKernel) (insn : Instruction) : Qc :=
  num_value (count knl (inames_domain knl (insn_inames_of insn))).1.

(** [f insn] units for every run of every instruction. *)
Definition weighted_total (knl : LoopKernel) (f : Instruction → Z) : Qc :=
  foldr Qcplus 0%Qc
    ((λ insn, (Z2Qc (f insn) * runs knl insn)%Qc) <$> instructions knl).

(** The operations of an instruction, on both sides of the assignment; the
    subscripts counted on its right-hand side. *)
Definition insn_ops (insn : Instruction) : Z :=
  match insn with
  | Assignment assignee expression _ => op_count assignee + op_count expression
  | CInstruction _ => 0
  end.

Definition insn_reads (counted : string → bool) (insn : Instruction) : Z :=
  match insn with
  | Assignment _ expression _ => subscripts counted expression
  | CInstruction _ => 0
  end.

(** The stride one dimension of a subscript gives for the lane index: the
    fixed stride of the array dimension times the coefficient of the lane
    index in the index expression, when there are both. *)
Definition axis_stride (min_lid : option string)
    (p : gmap string Z * ArrayDimTag) : option Z :=
  match GlobalSubscriptCounter.coeff_of p.1 min_lid, p.2 with
  | Some coeff_min_lid, FixedStrideArrayDimTag stride =>
      Some (stride * coeff_min_lid)
  | _, _ => None
  end.

(** The coefficients collected from the index expressions of the
    dimensions, in order, up to the first one on which the collector
    raises. *)
Definition collected
    (CoefficientCollector : Expression → result (gmap string Z))
    (pairs : list (Expression * ArrayDimTag))
    : result (list (gmap string Z * ArrayDimTag)) :=
  foldr (λ p rest,
      coeffs ← CoefficientCollector p.1;
      tables ← rest;
      Ok ((coeffs, p.2) :: tables))
    (Ok []) pairs.

(** ** Vocabulary for the schedule *)

(** Every named [LeaveLoop] of the items closes a loop that is open: one
    of the [depth] loops open at the start, or one a named [EnterLoop]
    opened before it. *)
Fixpoint leaves_matched (depth : nat) (items : list ScheduleItem) : bool :=
  match items with
  | [] => true
  | EnterLoop iname :: items =>
      leaves_matched (if bool_decide (iname ≠ "") then S depth else depth)
        items
  | LeaveLoop iname :: items =>
      if bool_decide (iname ≠ "") then
        match depth with
        | O => false
        | S depth => leaves_matched depth items
        end
      else leaves_matched depth items
  | _ :: items => leaves_matched depth items
  end.

(** The instructions that are not assignments. *)
Definition is_assignment (insn : Instruction) : bool :=
  match insn with
  | Assignment _ _ _ => true
  | CInstruction _ => false
  end.

Definition non_assignments (insns : list Instruction) : nat :=
  length (filter (λ insn, is_assignment insn = false) insns).

(** ** The summing functions

    [sum_ops_to_dtypes] and [sum_mem_access_to_bytes] take any dictionary
    and unpack its keys in the header of their loop.  A key is a tuple, here
    of strings (a dtype is known by its name), or an object of one of the
    key classes of this file, which cannot be unpacked. *)
Inductive key_object :=
| KeyTuple (fields : list string)
| KeyTypedOp (k : TypedOp)
| KeyLmemAccess (k : LmemAccess)
| KeyStridedGmemAccess (k : StridedGmemAccess).

Global Instance key_object_eq_dec : EqDecision key_object.
Proof. solve_decision. Defined.

Global Instance key_object_countable : Countable key_object :=
  inj_countable'
    (λ key, match key with
            | KeyTuple fields => inl fields
            | KeyTypedOp k => inr (inl k)
            | KeyLmemAccess k => inr (inr (inl k))
            | KeyStridedGmemAccess k => inr (inr (inr k))
            end)
    (λ s, match s with
          | inl fields => KeyTuple fields
          | inr (inl k) => KeyTypedOp k
          | inr (inr (inl k)) => KeyLmemAccess k
          | inr (inr (inr k)) => KeyStridedGmemAccess k
          end)
    (λ key, match key with
            | KeyTuple _ | KeyTypedOp _ | KeyLmemAccess _
            | KeyStridedGmemAccess _ => eq_refl
            end).

(** [if new_key in result: result[new_key] += v
     else: result[new_key] = v] *)
Definition add_to `{Countable K} (result_ : gmap K num) (new_key : K)
    (v : num) : gmap K num :=
  match result_ !! new_key with
  | Some old => <[new_key := num_add old v]> result_
  | None => <[new_key := v]> result_
  end.

(** [for (dtype, kind), v in op_poly_dict.items(): ...]: unpacking a tuple
    of another length is a [ValueError], unpacking an object that is not
    iterable a [TypeError]. *)
Definition sum_ops_to_dtypes (op_poly_dict : gmap key_object num)
    : result (gmap string num) :=
  map_fold (λ key v acc,
      result_ ← acc;
      match key with
      | KeyTuple [dtype; kind] =>
          let new_key := dtype in
          Ok (add_to result_ new_key v)
      | KeyTuple _ => Raise ValueError
      | _ => Raise TypeError
      end)
    (Ok ∅) op_poly_dict.

Section sum_mem_access_to_bytes.
(** [dtype.itemsize] *)
Variable itemsize : string → Z.

(** [for (dtype, kind, direction), v in m.items(): ...] *)
Definition sum_mem_access_to_bytes (m : gmap key_object num)
    : result (gmap (string * string) num) :=
  map_fold (λ key v acc,
      result_ ← acc;
      match key with
      | KeyTuple [dtype; kind; direction] =>
          let new_key := (kind, direction) in
          let bytes_transferred := num_mul (PyInt (itemsize dtype)) v in
          Ok (add_to result_ new_key bytes_transferred)
      | KeyTuple _ => Raise ValueError
      | _ => Raise TypeError
      end)
    (Ok ∅) m.
End sum_mem_access_to_bytes.

(** The dictionaries [get_op_poly] and [get_gmem_access_poly] return, as
    the summing functions meet them: their keys are objects. *)
Definition op_poly_dict (d : gmap TypedOp num) : gmap key_object num :=
  list_to_map (prod_map KeyTypedOp id <$> map_to_list d).

Definition gmem_poly_dict (d : gmap StridedGmemAccess num)
    : gmap key_object num :=
  list_to_map (prod_map KeyStridedGmemAccess id <$> map_to_list d).

(** The dtype of a key that is a pair [(dtype, kind)]; the kind and
    direction of a key that is a triple [(dtype, kind, direction)]. *)
Definition key_dtype (key : key_object) : option string :=
  match key with
  | KeyTuple [dtype; _] => Some dtype
  | _ => None
  end.

Definition key_transfer (key : key_object) : option (string * string) :=
  match key with
  | KeyTuple [_; kind; direction] => Some (kind, direction)
  | _ => None
  end.

(** The bytes a dictionary of transfers stands for: every value times the
    item size of the dtype its key begins with. *)
Definition key_itemsize (itemsize : string → Z) (key : key_object) : Z :=
  match key with
  | KeyTuple (dtype :: _) => itemsize dtype
  | _ => 0
  end.

Definition bytes_of (itemsize : string → Z) (m : gmap key_object num)
    : gmap key_object num :=
  map_imap (λ key v, Some (num_mul (PyInt (key_itemsize itemsize key)) v)) m.

(** The value a dictionary holds at a key, as a rational; nothing counts
    as zero. *)
Definition value_at `{Countable K} (m : gmap K num) (k : K) : Qc :=
  from_option num_value 0%Qc (m !! k).

(** ** The key classes as Python objects *)

Section key_methods.
(** [str(self.stride)], of [None] or of an integer. *)
Variable str : option Z → string.

(** [StridedGmemAccess.__eq__], for another [StridedGmemAccess]. *)
Definition StridedGmemAccess_eq (self other : StridedGmemAccess) : bool :=
  bool_decide (gmem_dtype other = gmem_dtype self)
  && bool_decide (gmem_stride other = gmem_stride self)
  && bool_decide (gmem_direction other = gmem_direction self)
  && (bool_decide (gmem_variable self = "ANY_VAR")
      || bool_decide (gmem_variable other = "ANY_VAR")
      || bool_decide (gmem_variable self = gmem_variable other)).

(** The string [StridedGmemAccess.__hash__] hashes; the variable of a key
    is a string here, so its replacement when it is [None] does not
    arise. *)
Definition StridedGmemAccess_hashed (self : StridedGmemAccess) : string :=
  let direction := default "None" (gmem_direction self) in
  let variable := gmem_variable self in
  ((gmem_dtype self +:+ str (gmem_stride self)) +:+ direction) +:+ variable.
End key_methods.

(** ** More examples *)

(** A domain whose cardinality [isl] computes: [q] points. *)
Definition exact_domain (q : Qc) : IslSet :=
  {| card := Some (PwQPolynomial q); get_basic_sets := [] |}.

(** [x = a + b * c] under the iname ["i"], which takes 8 values. *)
Definition sum_kernel : LoopKernel :=
  {| arg_dict := ∅; all_inames := {[ "i" ]}; iname_to_tag := ∅;
     instructions :=
       [ Assignment (Var "x") (Sum [Var "a"; Product [Var "b"; Var "c"]])
           ["i"] ];
     schedule := [];
     inames_domain := λ _, exact_domain (Z2Qc 8) |}.

(** [t[i] = t[i] + a] under the same iname, [t] being a temporary in local
    memory. *)
Definition local_temporaries : gmap string TemporaryVariable :=
  {[ "t" := mkTemporaryVariable true ]}.

Definition tmp_kernel : LoopKernel :=
  {| arg_dict := ∅; all_inames := {[ "i" ]}; iname_to_tag := ∅;
     instructions :=
       [ Assignment (Subscript (Var "t") (Var "i"))
           (Sum [Subscript (Var "t") (Var "i"); Var "a"]) ["i"] ];
     schedule := [];
     inames_domain := λ _, exact_domain (Z2Qc 8) |}.

(** [x = t[i] + u[i] + w[i]] under the same iname, the three temporaries
    being in local memory and of three types. *)
Definition three_temporaries : gmap string TemporaryVariable :=
  {[ "t" := mkTemporaryVariable true;
     "u" := mkTemporaryVariable true;
     "w" := mkTemporaryVariable true ]}.

Definition three_types (e : Expression) : dtype :=
  match e with
  | Subscript (Var "t") _ => "float32"
  | Subscript (Var "u") _ => "float64"
  | _ => "int32"
  end.

Definition loads_kernel : LoopKernel :=
  {| arg_dict := ∅; all_inames := {[ "i" ]}; iname_to_tag := ∅;
     instructions :=
       [ Assignment (Var "x")
           (Sum [ Subscript (Var "t") (Var "i");
                  Subscript (Var "u") (Var "i");
                  Subscript (Var "w") (Var "i") ])
           ["i"] ];
     schedule := [];
     inames_domain := λ _, exact_domain (Z2Qc 8) |}.

(** A kernel whose one instruction is not an assignment. *)
Definition c_kernel : LoopKernel :=
  {| arg_dict := ∅; all_inames := {[ "i" ]}; iname_to_tag := ∅;
     instructions := [ CInstruction ["i"] ];
     schedule := [];
     inames_domain := λ _, exact_domain (Z2Qc 8) |}.

(** The keys of a result with local-memory keys, each value as a
    rational. *)
Definition lmem_entries (r : result (gmap LmemAccess num))
    : option (list (LmemAccess * Q)) :=
  match r with
  | Ok m => Some ((λ p, (p.1, this (num_value p.2))) <$> map_to_list m)
  | Raise _ => None
  end.

(** * Properties *)

(** ** Numbers *)

Lemma Z2Qc_add (a b : Z) : Z2Qc (a + b) = (Z2Qc a + Z2Qc b)%Qc.
Proof.
  apply Qc_is_canon. unfold Z2Qc. simpl.
  rewrite !Qred_correct, inject_Z_plus. reflexivity.
Qed.

Lemma Z2Qc_mul (a b : Z) : Z2Qc (a * b) = (Z2Qc a * Z2Qc b)%Qc.
Proof.
  apply Qc_is_canon. unfold Z2Qc. simpl.
  rewrite !Qred_correct, inject_Z_mult. reflexivity.
Qed.

Lemma Z2Qc_0 : Z2Qc 0 = 0%Qc.
Proof. reflexivity. Qed.

Lemma Z2Qc_1 : Z2Qc 1 = 1%Qc.
Proof. reflexivity. Qed.

Lemma num_add_comm (a b : num) : num_add a b = num_add b a.
Proof.
  destruct a, b; simpl; f_equal; first lia; apply Qcplus_comm.
Qed.

Lemma num_add_assoc (a b c : num) :
  num_add (num_add a b) c = num_add a (num_add b c).
Proof.
  destruct a, b, c; simpl; f_equal; rewrite ?Z2Qc_add; try lia; ring.
Qed.

Lemma num_add_0_l (a : num) : num_add (PyInt 0) a = a.
Proof.
  destruct a; simpl; f_equal. rewrite Z2Qc_0. ring.
Qed.

Lemma num_add_0_r (a : num) : num_add a (PyInt 0) = a.
Proof. rewrite num_add_comm. apply num_add_0_l. Qed.

(** ** ToCountMap *)

Section ToCountMap_properties.
Context {K : Type} `{Countable K}.
Implicit Types a b c : gmap K num.

(** The value [__add__] leaves at a key. *)
Lemma lookup_add a b k :
  __add__ a b !! k =
    match b !! k with
    | Some v => Some (num_add (default (PyInt 0) (a !! k)) v)
    | None => a !! k
    end.
Proof.
  unfold __add__.
  apply (map_fold_weak_ind (λ r m,
    r !! k = match m !! k with
             | Some v => Some (num_add (default (PyInt 0) (a !! k)) v)
             | None => a !! k
             end)).
  - by rewrite lookup_empty.
  - intros i x m r Hi IH. destruct (decide (i = k)) as [->|Hne].
    + by rewrite !lookup_insert_eq.
    + by rewrite !lookup_insert_ne.
Qed.

Lemma add_comm a b : __add__ a b = __add__ b a.
Proof.
  apply map_eq. intros k. rewrite !lookup_add.
  destruct (a !! k) as [x|], (b !! k) as [y|];
    cbn [default from_option id]; rewrite ?num_add_0_l; try done.
  by rewrite num_add_comm.
Qed.

Lemma add_assoc a b c : __add__ (__add__ a b) c = __add__ a (__add__ b c).
Proof.
  apply map_eq. intros k. rewrite !lookup_add.
  destruct (a !! k) as [x|], (b !! k) as [y|], (c !! k) as [z|];
    cbn [default from_option id]; by rewrite ?num_add_0_l, ?num_add_assoc.
Qed.

Lemma add_empty_r a : __add__ a ∅ = a.
Proof. unfold __add__. by rewrite map_fold_empty. Qed.

Lemma add_empty_l a : __add__ ∅ a = a.
Proof.
  apply map_eq. intros k. rewrite lookup_add, lookup_empty.
  destruct (a !! k); cbn [default from_option id]; by rewrite ?num_add_0_l.
Qed.

(** C8. [ToCountMap.__add__] is commutative and associative, the two
    sides being equal as mappings from keys to values, and adding the
    empty map, on either side, gives the map back. *)
Theorem ToCountMap_add_laws a b c :
  __add__ a b = __add__ b a
  ∧ __add__ (__add__ a b) c = __add__ a (__add__ b c)
  ∧ __add__ a ∅ = a
  ∧ __add__ ∅ a = a.
Proof.
  split_and!;
    [apply add_comm | apply add_assoc | apply add_empty_r | apply add_empty_l].
Qed.
End ToCountMap_properties.

Section scaling.
Context {K : Type} `{Countable K}.
Implicit Types a : gmap K num.

Lemma num_mul_PwQPolynomial (v : num) (q : Qc) :
  num_mul v (PwQPolynomial q) = PwQPolynomial (num_value v * q).
Proof. by destruct v. Qed.

(** C7, as the code has it.  [ToCountMap.__mul__] succeeds exactly on an
    [isl.PwQPolynomial], and then every value is multiplied by it; any
    other multiplier, a plain number included, raises [ValueError]. *)
Theorem mul_only_by_PwQPolynomial a (other : @pyobj K _ _) :
  match other with
  | PyNum (PwQPolynomial q) =>
      ∃ r, __mul__ a other = Ok r
           ∧ ∀ k, r !! k = (λ v, PwQPolynomial (num_value v * q)) <$> a !! k
  | _ => __mul__ a other = Raise ValueError
  end.
Proof.
  destruct other as [[n|q]| |]; try done.
  eexists. split; first done.
  intros k. rewrite lookup_fmap.
  destruct (a !! k); simpl; by rewrite ?num_mul_PwQPolynomial.
Qed.
End scaling.

(** C7, counterexample.  Scaling by the plain integer -1 does not succeed:
    it raises, while scaling by the quasi-polynomial -1 returns a map. *)
Lemma mul_by_plain_scalar_raises :
  __mul__ two_units (PyNum (PyInt (-1))) = Raise ValueError
  ∧ (∃ r, __mul__ two_units (PyNum (PwQPolynomial (Z2Qc (-1)))) = Ok r)
  ∧ ¬ (∃ r, __mul__ two_units (PyNum (PyInt (-1))) = Ok r).
Proof.
  split_and!; [done | by eexists | by intros [r Hr]].
Qed.

(** ** Sums of mapper results *)

Section sums.
Context {K : Type} `{Countable K}.
Implicit Types (m : gmap K num) (ms : list (gmap K num)).

Lemma foldl_add_sum_maps ms m : foldl __add__ m ms = __add__ m (sum_maps ms).
Proof.
  revert m. induction ms as [|m' ms IH]; intros m; simpl.
  - by rewrite add_empty_r.
  - by rewrite IH, add_assoc.
Qed.

Lemma py_sum_from_maps ms m :
  foldl (λ acc value, a ← acc; v ← value; py_add a v)
    (Ok (PyCountMap m)) ((λ m', Ok (PyCountMap m')) <$> ms)
  = Ok (PyCountMap (K:=K) (__add__ m (sum_maps ms))).
Proof.
  rewrite <-foldl_add_sum_maps. revert m.
  induction ms as [|m' ms IH]; intros m; simpl; [done | apply IH].
Qed.

(** [sum] of count maps: the integer 0 for none, their sum otherwise. *)
Lemma py_sum_maps ms :
  py_sum ((λ m, Ok (PyCountMap m)) <$> ms) =
    Ok (match ms with
        | [] => PyNum (PyInt 0)
        | _ => PyCountMap (sum_maps ms)
        end).
Proof.
  destruct ms as [|m ms]; first done.
  unfold py_sum. simpl. apply py_sum_from_maps.
Qed.

Lemma singleton_add (k : K) (x y : num) :
  __add__ {[ k := x ]} {[ k := y ]} = ({[ k := num_add x y ]} : gmap K num).
Proof.
  unfold __add__. rewrite map_fold_singleton, lookup_singleton_eq. simpl.
  by rewrite insert_singleton_eq.
Qed.

Lemma add_swap m1 m2 m3 :
  __add__ (__add__ m1 m2) m3 = __add__ (__add__ m1 m3) m2.
Proof. by rewrite !add_assoc, (add_comm m2 m3). Qed.

(** Adding the same unit map to each of [n] maps adds [n] units. *)
Lemma sum_maps_units (k : K) ms :
  ms ≠ [] →
  sum_maps ((λ m, __add__ {[ k := PyInt 1 ]} m) <$> ms)
  = __add__ {[ k := PyInt (Z.of_nat (length ms)) ]} (sum_maps ms).
Proof.
  induction ms as [|m ms IH]; first done. intros _.
  destruct ms as [|m' ms'].
  { simpl. by rewrite !add_empty_r. }
  rewrite fmap_cons. change (sum_maps (?x :: ?l)) with (__add__ x (sum_maps l)).
  rewrite IH by done.
  set (S := sum_maps (m' :: ms')).
  set (un := {[k := PyInt (Z.of_nat (length (m' :: ms')))]} : gmap K num).
  set (u1 := {[k := PyInt 1]} : gmap K num).
  rewrite (add_assoc u1 m), <-(add_assoc m un S), (add_comm m un).
  rewrite (add_assoc un m S), <-(add_assoc u1 un).
  subst u1 un. rewrite singleton_add. do 3 f_equal.
  cbn [num_add length]. f_equal. lia.
Qed.
End sums.

(** ** ExpressionOpCounter *)

Section ExpressionOpCounter_properties.
Variable type_inf : Expression → dtype.
Implicit Types (children : list Expression) (ms : list (gmap TypedOp num)).

Local Abbreviation rec := (ExpressionOpCounter.rec type_inf).
Local Abbreviation counts := (op_counts type_inf).

Lemma counts_fmap children ms :
  counts children ms →
  rec <$> children = (λ m, Ok (PyCountMap m)) <$> ms.
Proof. induction 1; simpl; by f_equal. Qed.

Lemma counts_leaves children :
  forallb is_leaf children = true →
  counts children ((λ _, ∅) <$> children).
Proof.
  induction children as [|c cs IH]; simpl; first by constructor.
  intros [Hc Hcs]%andb_prop. constructor; last by apply IH.
  by destruct c.
Qed.

Lemma sum_maps_empties {A} (l : list A) :
  sum_maps ((λ _, ∅) <$> l) = (∅ : gmap TypedOp num).
Proof. induction l; simpl; [done | by rewrite add_empty_l]. Qed.

(** A sum node with [n] children, each counted as a map, is counted as
    [n - 1] units of ['add'] at the type inferred for the node, plus the
    counts of the children.  A node whose [k] children are leaves is
    counted as the map with the single entry [k - 1] at that key. *)
Lemma map_sum_node children :
  children ≠ [] →
  let add := mkTypedOp (type_inf (Sum children)) "add" in
  let n := Z.of_nat (length children) in
  (∀ ms, counts children ms →
     rec (Sum children)
     = Ok (PyCountMap (__add__ {[ add := PyInt (n - 1) ]} (sum_maps ms))))
  ∧ (forallb is_leaf children = true →
     rec (Sum children) = Ok (PyCountMap {[ add := PyInt (n - 1) ]})
     ∧ ∀ key, key ≠ add →
         __getitem__ ({[ add := PyInt (n - 1) ]} : gmap TypedOp num) key
         = PwQPolynomial 0%Qc).
Proof.
  intros Hne add n.
  assert (Hgen : ∀ ms, counts children ms →
     rec (Sum children)
     = Ok (PyCountMap (__add__ {[ add := PyInt (n - 1) ]} (sum_maps ms)))).
  { intros ms Hms. simpl.
    unfold ExpressionOpCounter.map_sum.
    destruct children as [|c cs]; first done.
    rewrite (counts_fmap _ _ Hms), py_sum_maps.
    destruct ms as [|m ms]; first by inversion Hms.
    done. }
  split; first done.
  intros Hleaves. split.
  - rewrite (Hgen _ (counts_leaves _ Hleaves)).
    by rewrite sum_maps_empties, add_empty_r.
  - intros key Hkey. unfold __getitem__.
    by rewrite lookup_singleton_ne.
Qed.

Lemma product_terms (F : Expression → result (@pyobj TypedOp _ _)) children :
  snd <$> filter (λ t, ¬ is_zero_plus_one t.1)
            ((λ child, (child, F child)) <$> children)
  = F <$> filter (λ child, ¬ is_zero_plus_one child) children.
Proof.
  induction children as [|c cs IH]; first done.
  rewrite fmap_cons, !filter_cons. cbn [fst].
  destruct (decide (¬ is_zero_plus_one c)); rewrite ?fmap_cons, IH; done.
Qed.

(** C3. A product node is counted as [m - 1] units of ['mul'] at the
    type inferred for the node, plus the counts of the children that are
    not the literal [-1], [m] being the number of those children; the
    other children add neither a unit nor a count. *)
Theorem map_product_counts children ms :
  children ≠ [] →
  counts (filter (λ child, ¬ is_zero_plus_one child) children) ms →
  let mul := mkTypedOp (type_inf (Product children)) "mul" in
  let m := Z.of_nat (length ms) in
  rec (Product children)
  = Ok (PyCountMap (__add__ {[ mul := PyInt (m - 1) ]} (sum_maps ms))).
Proof.
  intros Hne Hms mul m. simpl.
  unfold ExpressionOpCounter.map_product.
  destruct children as [|c cs]; first done.
  rewrite product_terms.
  set (F := λ child : Expression, _).
  assert (HF : F <$> filter (λ child, ¬ is_zero_plus_one child) (c :: cs)
    = (λ m', Ok (PyCountMap m'))
        <$> ((λ m', __add__ {[ mul := PyInt 1 ]} m') <$> ms)).
  { clear Hne. induction Hms as [|x m' xs ms' Hx _ IH]; first done.
    rewrite !fmap_cons, IH. f_equal. subst F. simpl.
    fold (ExpressionOpCounter.rec type_inf). by rewrite Hx. }
  rewrite HF, py_sum_maps.
  destruct ms as [|m0 ms0].
  { simpl. by rewrite add_empty_r. }
  simpl fmap at 1. cbn [mbind result_bind].
  rewrite sum_maps_units by done.
  simpl. do 2 f_equal.
  unfold ExpressionOpCounter.ToCountMap1. fold mul.
  rewrite add_swap, singleton_add. cbn [num_add].
  by replace (Z.of_nat (length (m0 :: ms0)) + -1) with (m - 1) by lia.
Qed.
End ExpressionOpCounter_properties.
Lemma map_product_counts_witness :
  ExpressionOpCounter.rec (λ _, "float32")
    (Product [Constant (-1); Var "b"; Sum [Var "a"; Var "c"]])
  = Ok (PyCountMap
          (__add__ {[ mkTypedOp "float32" "mul" := PyInt 1 ]}
             (sum_maps [∅; {[ mkTypedOp "float32" "add" := PyInt 1 ]}]))).
Proof.
  apply (map_product_counts (λ _, "float32")
           [Constant (-1); Var "b"; Sum [Var "a"; Var "c"]]
           [∅; {[ mkTypedOp "float32" "add" := PyInt 1 ]}]).
  - discriminate.
  - repeat constructor.
Defined.

(** ** count *)

Lemma Z2Qc_inj_nonzero (s : Z) : s ≠ 0 → Z2Qc s ≠ 0%Qc.
Proof.
  intros Hs Heq. apply (f_equal this) in Heq. unfold Z2Qc in Heq. simpl in Heq.
  assert (Hq : (inject_Z s == 0)%Q).
  { rewrite <-(Qred_correct (inject_Z s)), Heq. reflexivity. }
  unfold Qeq in Hq. simpl in Hq. lia.
Qed.

(** Where the stride divides the extent, the exact quotient is the floor
    of the claim. *)
Lemma axis_quotient_length (bset : BasicSet) (i : nat) :
  0 < stride_of bset i →
  (stride_of bset i | dim_max bset i - dim_min bset i) →
  axis_quotient bset i = Z2Qc (axis_length bset i).
Proof.
  intros Hpos [k Hk]. unfold axis_quotient, axis_length.
  rewrite Hk, Z.div_mul by lia.
  replace (k * stride_of bset i + stride_of bset i)
    with ((k + 1) * stride_of bset i) by lia.
  rewrite Z2Qc_mul. field. apply Z2Qc_inj_nonzero. lia.
Qed.

Lemma count_dim_fold (bset : BasicSet) (l : list nat) (c : Qc)
    (box : list DimBounds) :
  (foldl (count_dim bset) (Some c, box) l).1
  = Some (c * foldr Qcmult 1%Qc (axis_quotient bset <$> l))%Qc.
Proof.
  revert c box. induction l as [|i l IH]; intros c box; simpl.
  - f_equal. ring.
  - rewrite IH. f_equal. symmetry. apply Qcmult_assoc.
Qed.

Lemma count_dim_box (bset : BasicSet) (l : list nat) (c : option Qc)
    (box : list DimBounds) :
  (foldl (count_dim bset) (c, box) l).2
  = box ++ ((λ i, mkDimBounds (dim_min bset i) (dim_max bset i)
                    (stride_of bset i)) <$> l).
Proof.
  revert c box. induction l as [|i l IH]; intros c box.
  - simpl. by rewrite app_nil_r.
  - cbn [foldl]. unfold count_dim at 2. rewrite IH, fmap_cons.
    by rewrite <-app_assoc.
Qed.

Lemma count_dims (bset : BasicSet) :
  (foldl (count_dim bset) (None, []) (seq 0 (bset_dim bset))).1
  = match bset_dim bset with
    | O => None
    | _ => Some (piece_count bset)
    end.
Proof.
  unfold piece_count. destruct (bset_dim bset) as [|d]; first done.
  rewrite <-cons_seq. simpl foldl. rewrite count_dim_fold.
  f_equal.
Qed.

Lemma count_bset_fst (count0 : num) (warnings : list string) (bset : BasicSet) :
  num_value (count_bset (count0, warnings) bset).1
  = (num_value count0 + piece_count bset)%Qc.
Proof.
  unfold count_bset.
  pose proof (count_dims bset) as Hd.
  destruct (foldl (count_dim bset) (None, []) (seq 0 (bset_dim bset)))
    as [bset_count bset_rebuilt].
  simpl in Hd. subst bset_count.
  assert (Hv : num_value
      match (match bset_dim bset with
             | O => None
             | _ => Some (piece_count bset)
             end) with
      | Some c => num_add count0 (PwQPolynomial c)
      | None => count0
      end = (num_value count0 + piece_count bset)%Qc).
  { unfold piece_count. destruct (bset_dim bset); simpl.
    - ring.
    - by destruct count0. }
  by destruct (bset_le bset bset_rebuilt), (bset_ge bset bset_rebuilt).
Qed.

(** No diagnostic is added for a basic set that is its rebuilt box. *)
Lemma count_bset_snd (count0 : num) (warnings : list string) (bset : BasicSet) :
  is_its_box bset = true →
  (count_bset (count0, warnings) bset).2 = warnings.
Proof.
  unfold is_its_box, rebuilt_box, count_bset. intros Hbox.
  pose proof (count_dim_box bset (seq 0 (bset_dim bset)) None []) as Hb.
  destruct (foldl (count_dim bset) (None, []) (seq 0 (bset_dim bset)))
    as [bset_count bset_rebuilt].
  simpl in Hb. subst bset_rebuilt. by rewrite Hbox.
Qed.

Lemma count_bsets_snd (pieces : list BasicSet) (st : num * list string) :
  Forall (λ bset, is_its_box bset = true) pieces →
  (foldl count_bset st pieces).2 = st.2.
Proof.
  intros Hall. revert st. induction Hall as [|b bs Hb _ IH]; intros [n w].
  - done.
  - change (foldl count_bset (n, w) (b :: bs))
      with (foldl count_bset (count_bset (n, w) b) bs).
    by rewrite IH, count_bset_snd.
Qed.

Lemma count_bsets (pieces : list BasicSet) (st : num * list string) :
  num_value (foldl count_bset st pieces).1
  = (num_value st.1 + foldr Qcplus 0%Qc (piece_count <$> pieces))%Qc.
Proof.
  revert st. induction pieces as [|b bs IH]; intros [n w].
  - simpl. ring.
  - change (foldl count_bset (n, w) (b :: bs))
      with (foldl count_bset (count_bset (n, w) b) bs).
    rewrite IH, count_bset_fst, fmap_cons. cbn [foldr fst].
    by rewrite Qcplus_assoc.
Qed.

Lemma quotients_lengths (bset : BasicSet) (l : list nat) :
  (∀ i, i ∈ l → axis_quotient bset i = Z2Qc (axis_length bset i)) →
  foldr Qcmult 1%Qc (axis_quotient bset <$> l)
  = Z2Qc (foldr Z.mul 1 (axis_length bset <$> l)).
Proof.
  induction l as [|i l IH]; intros Hl; first done.
  rewrite !fmap_cons. cbn [foldr].
  rewrite Z2Qc_mul, Hl, IH; [done | | by left].
  intros j Hj. apply Hl. by right.
Qed.

Lemma piece_count_box_size (bset : BasicSet) :
  bset_dim bset ≠ O → strides_divide bset →
  piece_count bset = Z2Qc (box_size bset).
Proof.
  unfold piece_count, box_size, strides_divide. intros Hd Hs.
  destruct (bset_dim bset) as [|d]; first done.
  apply quotients_lengths.
  intros i Hi%elem_of_seq. apply axis_quotient_length; apply Hs; lia.
Qed.

Lemma pieces_box_sizes (pieces : list BasicSet) :
  Forall (λ bset, bset_dim bset ≠ O ∧ strides_divide bset) pieces →
  foldr Qcplus 0%Qc (piece_count <$> pieces)
  = Z2Qc (foldr Z.add 0 (box_size <$> pieces)).
Proof.
  induction 1 as [|b bs [Hb1 Hb2] _ IH]; first done.
  rewrite !fmap_cons. cbn [foldr].
  by rewrite Z2Qc_add, IH, piece_count_box_size.
Qed.

Lemma count_value_eq (r : num * list string) (q : Qc) (w : list string) :
  match r.1 with
  | PwQPolynomial p => (this p == this q)%Q
  | PyInt _ => False
  end →
  r.2 = w → r = (PwQPolynomial q, w).
Proof.
  destruct r as [[n|p] w']; simpl; first done.
  intros Hq ->. do 2 f_equal. by apply Qc_is_canon.
Qed.

(** A rectangle [0, N - 1] x [0, M - 1] that is its rebuilt box is counted
    as [N * M], without a diagnostic. *)
Lemma count_rectangle (kernel : LoopKernel) (set : IslSet) (N M : Z) :
  is_rectangle N M set →
  count kernel set = (PwQPolynomial (Z2Qc (N * M)), []).
Proof.
  intros (Hcard & bset & Hsets & Hdim & Hmin0 & Hmax0 & Hmin1 & Hmax1
          & Hstrides & Hbox).
  assert (Hsnd : (count kernel set).2 = []).
  { unfold count. rewrite Hcard, Hsets. by apply count_bsets_snd, Forall_singleton. }
  assert (Hfst : (count kernel set).1 = PwQPolynomial (Z2Qc (N * M))).
  { unfold count. rewrite Hcard, Hsets. cbn [foldl]. unfold count_bset.
    pose proof (count_dims bset) as Hd.
    destruct (foldl (count_dim bset) (None, []) (seq 0 (bset_dim bset)))
      as [bset_count bset_rebuilt].
    cbn [fst] in Hd. rewrite Hdim in Hd. subst bset_count.
    assert (Hp : piece_count bset = Z2Qc (N * M)).
    { unfold piece_count. rewrite Hdim. cbn [seq fmap list_fmap foldr].
      unfold axis_quotient, stride_of.
      rewrite Hstrides, !lookup_empty, Hmin0, Hmax0, Hmin1, Hmax1.
      cbn [default from_option id].
      replace (N - 1 - 0 + 1) with N by lia.
      replace (M - 1 - 0 + 1) with M by lia.
      rewrite Z2Qc_mul, Z2Qc_1. field. done. }
    rewrite Hp. cbn [num_add]. rewrite Z2Qc_0, Qcplus_0_l.
    by destruct (bset_le bset _), (bset_ge bset _). }
  destruct (count kernel set) as [c w]. simpl in *. by subst.
Qed.

(** C1, as the code has it.  Without an exact cardinality, [count] adds,
    for every basic set with at least one dimension, the product over its
    dimensions of the exact quotient [(max - min + stride) / stride], the
    stride defaulting to 1; a basic set with no dimension adds nothing.
    When every piece has a dimension and every stride divides its extent,
    that is the sum over the pieces of the product of
    [floor((max - min) / stride) + 1].  No diagnostic is emitted when every
    piece is the box rebuilt from its bounds and strides.  On a rectangle
    [0, N-1] x [0, M-1] of unit stride the result is [N * M] without a
    diagnostic; on the one given by its points at N = 4, M = 3 it is 12. *)
Theorem count_strided_boxes (kernel : LoopKernel) (set : IslSet) :
  card set = None →
  num_value (count kernel set).1
  = foldr Qcplus 0%Qc (piece_count <$> get_basic_sets set)
  ∧ (Forall (λ bset, bset_dim bset ≠ O ∧ strides_divide bset)
       (get_basic_sets set) →
     num_value (count kernel set).1 = Z2Qc (boxes_size set))
  ∧ (Forall (λ bset, is_its_box bset = true) (get_basic_sets set) →
     (count kernel set).2 = [])
  ∧ (∀ (N M : Z) (set' : IslSet),
       is_rectangle N M set' →
       count kernel set' = (PwQPolynomial (Z2Qc (N * M)), []))
  ∧ count kernel (rectangle 4 3) = (PwQPolynomial (Z2Qc 12), []).
Proof.
  intros Hcard.
  assert (Hexact : num_value (count kernel set).1
    = foldr Qcplus 0%Qc (piece_count <$> get_basic_sets set)).
  { unfold count. rewrite Hcard, count_bsets. cbn [fst num_value].
    rewrite Z2Qc_0. apply Qcplus_0_l. }
  split_and!; first done.
  - intros Hall. rewrite Hexact. by apply pieces_box_sizes.
  - intros Hall. unfold count. rewrite Hcard. by rewrite count_bsets_snd.
  - intros N M set'. apply count_rectangle.
  - apply count_value_eq; vm_compute; reflexivity.
Qed.

Lemma count_strided_boxes_witness :
  num_value (count (kernel_of_domain (rectangle 4 3)) (rectangle 4 3)).1
  = Z2Qc (boxes_size (rectangle 4 3))
  ∧ (count (kernel_of_domain (rectangle 4 3)) (rectangle 4 3)).2 = [].
Proof.
  pose proof (count_strided_boxes (kernel_of_domain (rectangle 4 3))
    (rectangle 4 3) eq_refl) as (_ & Hsize & Hbox & _).
  split.
  - apply Hsize. constructor; last constructor.
    split; first done.
    intros i Hi. split; first done.
    apply Z.divide_1_l.
  - apply Hbox. constructor; last constructor.
    vm_compute. reflexivity.
Defined.

(** C1, counterexample.  A set whose one piece has no dimension and one
    point: the product over its dimensions is the empty product 1, and
    [count] returns the integer 0. *)
Lemma count_zero_dim_piece :
  boxes_size zero_dim_set = 1
  ∧ count (kernel_of_domain zero_dim_set) zero_dim_set = (PyInt 0, [])
  ∧ num_value (count (kernel_of_domain zero_dim_set) zero_dim_set).1
    ≠ Z2Qc (boxes_size zero_dim_set).
Proof.
  split_and!; [done | done |].
  intros Heq. apply (f_equal this) in Heq. vm_compute in Heq. discriminate.
Qed.

(** The even numbers of [0, 9] are counted exactly, a triangle is counted as
    its bounding box and the overestimate is reported. *)
Example count_evens :
  count (kernel_of_domain evens) evens = (PwQPolynomial (Z2Qc 5), []).
Proof. apply count_value_eq; vm_compute; reflexivity. Qed.

Example count_triangle :
  count (kernel_of_domain triangle) triangle
  = (PwQPolynomial (Z2Qc 9), ["count_overestimate"]).
Proof. apply count_value_eq; vm_compute; reflexivity. Qed.

(** ** GlobalSubscriptCounter *)

Lemma foldr_min_swap (x y : Z) (ys : list Z) :
  Z.min x (foldr Z.min y ys) = Z.min y (foldr Z.min x ys).
Proof.
  induction ys as [|a ys IH]; simpl; lia.
Qed.

Lemma foldl_min_cons (m x : Z) (xs : list Z) :
  foldl Z.min m (x :: xs) = Z.min m (foldr Z.min x xs).
Proof.
  revert m x. induction xs as [|y ys IH]; intros m x; first done.
  change (foldl Z.min m (x :: y :: ys)) with (foldl Z.min (Z.min m x) (y :: ys)).
  rewrite IH. simpl. pose proof (foldr_min_swap x y ys). lia.
Qed.

Section GlobalSubscriptCounter_properties.
Variable knl : LoopKernel.
Variable type_inf : Expression → dtype.
Variable get_dependencies : list Expression → gset string.
Variable CoefficientCollector : Expression → result (gmap string Z).

Local Abbreviation rec :=
  (GlobalSubscriptCounter.rec knl type_inf get_dependencies
     CoefficientCollector).
Local Abbreviation my_inames :=
  (GlobalSubscriptCounter.my_inames knl get_dependencies).
Local Abbreviation find_min_tag_axis :=
  (GlobalSubscriptCounter.find_min_tag_axis knl).
Local Abbreviation find_min_lid := (GlobalSubscriptCounter.find_min_lid knl).
Local Abbreviation find_total_stride :=
  (GlobalSubscriptCounter.find_total_stride CoefficientCollector).

Lemma find_min_tag_axis_from (inames : list string) (found : bool) (m : Z) :
  foldl (λ '(local_id_found, min_tag_axis) iname,
      match iname_to_tag knl !! iname with
      | Some (LocalIndexTag axis) =>
          (true, if axis <? min_tag_axis then axis else min_tag_axis)
      | _ => (local_id_found, min_tag_axis)
      end)
    (found, m) inames
  = (found || bool_decide (lane_axes knl inames ≠ []),
     foldl Z.min m (lane_axes knl inames)).
Proof.
  revert found m. induction inames as [|iname inames IH]; intros found m.
  - simpl. by rewrite orb_false_r.
  - cbn [foldl]. unfold lane_axes. cbn [omap list_omap].
    fold (lane_axes knl inames).
    destruct (iname_to_tag knl !! iname) as [[axis| | |]|];
      rewrite IH; try done.
    cbn [foldl]. f_equal.
    + by rewrite orb_true_r.
    + f_equal. destruct (Z.ltb_spec axis m); lia.
Qed.

Lemma find_min_tag_axis_spec (inames : list string) :
  find_min_tag_axis inames
  = match min_lane_axis knl inames with
    | None => (false, sys_maxsize)
    | Some a => (true, Z.min sys_maxsize a)
    end.
Proof.
  unfold GlobalSubscriptCounter.find_min_tag_axis.
  rewrite find_min_tag_axis_from. unfold min_lane_axis.
  destruct (lane_axes knl inames) as [|x xs]; first done.
  by rewrite foldl_min_cons.
Qed.

(** No lane index among the dependencies: no lane axis. *)
Lemma no_lane_index (index : list Expression) :
  (∀ iname, iname ∈ get_dependencies index → iname ∈ all_inames knl →
     is_local_tag (iname_to_tag knl !! iname) = false) →
  min_lane_axis knl (my_inames index) = None.
Proof.
  intros Hno. unfold min_lane_axis.
  assert (Hl : ∀ iname, iname ∈ my_inames index →
    is_local_tag (iname_to_tag knl !! iname) = false).
  { intros iname Hi. unfold GlobalSubscriptCounter.my_inames in Hi.
    apply elem_of_elements, elem_of_intersection in Hi as [? ?]. auto. }
  induction (my_inames index) as [|iname inames IH]; first done.
  unfold lane_axes in *. cbn [omap list_omap].
  pose proof (Hl iname ltac:(by left)) as Hi.
  destruct (iname_to_tag knl !! iname) as [[axis| | |]|]; try done;
    apply IH; intros ? ?; apply Hl; by right.
Qed.

Lemma collected_cons (p : Expression * ArrayDimTag)
    (pairs : list (Expression * ArrayDimTag)) :
  collected CoefficientCollector (p :: pairs)
  = (coeffs ← CoefficientCollector p.1;
     tables ← collected CoefficientCollector pairs;
     Ok ((coeffs, p.2) :: tables)).
Proof. reflexivity. Qed.

(** The stride loop calls the collector on the index of every dimension
    in turn and raises what the collector raises first; when the
    collector returns each time, the stride is that of the last dimension
    that has both an entry for the lane index and a fixed stride. *)
Lemma find_total_stride_from (pairs : list (Expression * ArrayDimTag))
    (min_lid : option string) (acc : result (option Z)) :
  foldl (λ acc '(idx, axis_tag),
      total_stride ← acc;
      coeffs ← CoefficientCollector idx;
      match GlobalSubscriptCounter.coeff_of coeffs min_lid with
      | None => Ok total_stride
      | Some coeff_min_lid =>
          match axis_tag with
          | FixedStrideArrayDimTag stride =>
              Ok (Some (stride * coeff_min_lid * 1))
          | _ => Ok total_stride
          end
      end)
    acc pairs
  = (total_stride ← acc;
     tables ← collected CoefficientCollector pairs;
     Ok (match last (omap (axis_stride min_lid) tables) with
         | Some stride => Some stride
         | None => total_stride
         end)).
Proof.
  revert acc. induction pairs as [|[idx axis_tag] pairs IH]; intros acc.
  { by destruct acc. }
  cbn [foldl]. rewrite IH, collected_cons. cbn [fst snd].
  destruct acc as [total_stride|e]; last done.
  destruct (CoefficientCollector idx) as [coeffs|e]; last done.
  destruct (collected CoefficientCollector pairs) as [tables|e];
    cbn [mbind result_bind].
  2:{ destruct (GlobalSubscriptCounter.coeff_of coeffs min_lid);
        [destruct axis_tag|]; reflexivity. }
  cbn [omap list_omap]. unfold axis_stride at 2. cbn [fst snd].
  destruct (GlobalSubscriptCounter.coeff_of coeffs min_lid) as [c|];
    cbn [mbind result_bind]; last done.
  destruct axis_tag as [stride| |]; cbn [mbind result_bind]; try done.
  rewrite last_cons, Z.mul_1_r.
  by destruct (last (omap (axis_stride min_lid) tables)).
Qed.

Lemma find_total_stride_collected (index : list Expression)
    (dim_tags : list ArrayDimTag) (min_lid : option string) :
  find_total_stride index dim_tags min_lid
  = (tables ← collected CoefficientCollector (zip index dim_tags);
     Ok (last (omap (axis_stride min_lid) tables))).
Proof.
  unfold GlobalSubscriptCounter.find_total_stride.
  cbv zeta. rewrite find_total_stride_from. cbn [mbind result_bind].
  destruct (collected _ _) as [tables|e]; last done.
  cbn [mbind result_bind]. by destruct (last _).
Qed.

(** The collector returns on the index of every dimension exactly when
    every call of the loop returns. *)
Lemma collected_Ok (pairs : list (Expression * ArrayDimTag)) :
  Forall (λ p, ∃ coeffs, CoefficientCollector p.1 = Ok coeffs) pairs →
  ∃ tables, collected CoefficientCollector pairs = Ok tables
    ∧ Forall2 (λ p t, CoefficientCollector p.1 = Ok t.1 ∧ t.2 = p.2)
        pairs tables.
Proof.
  induction 1 as [|p pairs [coeffs Hc] _ (tables & Ht & Hall)].
  { exists []. by split; [|constructor]. }
  exists ((coeffs, p.2) :: tables).
  rewrite collected_cons, Hc, Ht. split; first done. by constructor.
Qed.

(** The stride loop leaves [None] when the collector returns on every
    dimension and no dimension has both an entry for the lane index and a
    fixed stride. *)
Lemma find_total_stride_None (index : list Expression)
    (dim_tags : list ArrayDimTag) (min_lid : option string) :
  Forall (λ '(idx, axis_tag),
      ∃ coeffs, CoefficientCollector idx = Ok coeffs
        ∧ (GlobalSubscriptCounter.coeff_of coeffs min_lid = None
           ∨ is_fixed_stride axis_tag = false))
    (zip index dim_tags) →
  find_total_stride index dim_tags min_lid = Ok None.
Proof.
  intros Hall. rewrite find_total_stride_collected.
  assert (Ht : ∃ tables,
    collected CoefficientCollector (zip index dim_tags) = Ok tables
    ∧ omap (axis_stride min_lid) tables = []).
  { induction Hall as [|[idx axis_tag] l (coeffs & Hcc & Hno) _
      (tables & Ht & Hnil)].
    { by exists []. }
    exists ((coeffs, axis_tag) :: tables).
    rewrite collected_cons. cbn [fst snd]. rewrite Hcc, Ht.
    split; first done.
    cbn [omap list_omap]. rewrite Hnil.
    unfold axis_stride. cbn [fst snd].
    destruct Hno as [-> | Htag]; first done.
    destruct (GlobalSubscriptCounter.coeff_of _ _); last done.
    by destruct axis_tag. }
  destruct Ht as (tables & -> & Hnil). cbn [mbind result_bind].
  by rewrite Hnil.
Qed.

Lemma find_min_lid_Some (inames : list string) (axis : Z) (lid : string) :
  find_min_lid inames axis = Some lid →
  lid ∈ inames ∧ iname_to_tag knl !! lid = Some (LocalIndexTag axis).
Proof.
  unfold GlobalSubscriptCounter.find_min_lid.
  intros [Hin Hp]%find_some. split; first by apply list_elem_of_In.
  destruct (iname_to_tag knl !! lid) as [[a| | |]|]; try done.
  by apply bool_decide_eq_true in Hp as ->.
Qed.

(** The minimum lane axis is the axis of one of the inames. *)
Lemma min_lane_axis_Some_tag (inames : list string) (a : Z) :
  min_lane_axis knl inames = Some a →
  ∃ lid, lid ∈ inames ∧ iname_to_tag knl !! lid = Some (LocalIndexTag a).
Proof.
  unfold min_lane_axis. intros Hmin.
  assert (Hin : a ∈ lane_axes knl inames).
  { destruct (lane_axes knl inames) as [|axis axes]; first done.
    injection Hmin as <-. clear. revert axis.
    induction axes as [|x xs IH]; intros axis; first by left.
    cbn [foldr]. destruct (Z.min_spec x (foldr Z.min axis xs)) as [[_ ->]|[_ ->]].
    - right. by left.
    - pose proof (IH axis) as Hin. apply elem_of_cons in Hin as [->|Hin].
      + by left.
      + right. by right. }
  unfold lane_axes in Hin. apply list_elem_of_omap in Hin as (lid & Hlid & Htag).
  exists lid. split; first done.
  by destruct (iname_to_tag knl !! lid) as [[axis| | |]|]; simplify_eq.
Qed.

(** A subscript into a global array with a lane index: the stride loop
    runs before the test of the minimum axis. *)
Lemma map_subscript_lane (aggregate index : Expression) (name : string)
    (dim_tags : list ArrayDimTag) (a : Z) :
  aggregate_name aggregate = Ok name →
  arg_dict knl !! name = Some (GlobalArg dim_tags) →
  min_lane_axis knl (my_inames (index_tuple index)) = Some a →
  let min_tag_axis := Z.min sys_maxsize a in
  rec (Subscript aggregate index)
  = (total_stride ←
       find_total_stride (index_tuple index) dim_tags
         (find_min_lid (my_inames (index_tuple index)) min_tag_axis);
     r ← rec index;
     py_add
       (PyCountMap
          {[ mkStridedGmemAccess (type_inf (Subscript aggregate index))
               (if bool_decide (min_tag_axis ≠ 0) then Some sys_maxsize
                else total_stride)
               None name := PyInt 1 ]}) r).
Proof.
  intros Hname Harg Hmin min_tag_axis.
  cbn [GlobalSubscriptCounter.rec].
  unfold GlobalSubscriptCounter.map_subscript.
  rewrite Hname. cbn [mbind result_bind]. rewrite Harg.
  rewrite find_min_tag_axis_spec, Hmin. cbn [negb]. fold min_tag_axis.
  destruct (find_total_stride _ _ _) as [total_stride|e]; last done.
  cbn [mbind result_bind]. by destruct (bool_decide (min_tag_axis ≠ 0)).
Qed.

(** C5, as the code has it.  For a subscript into a global array whose
    lane indices have a minimum axis other than 0, the stride loop runs
    first and calls the coefficient collector on the index of every
    dimension that the array has.  When the collector returns each time,
    the access is counted as one access with the stride [sys.maxsize],
    added to the count of its index, and the traversal goes on into the
    index; when the collector raises, the subscript raises the same and
    nothing is counted. *)
Theorem nonzero_min_lane_axis_sentinel (aggregate index : Expression)
    (name : string) (dim_tags : list ArrayDimTag) (a : Z) :
  aggregate_name aggregate = Ok name →
  arg_dict knl !! name = Some (GlobalArg dim_tags) →
  min_lane_axis knl (my_inames (index_tuple index)) = Some a →
  a ≠ 0 →
  let key :=
    mkStridedGmemAccess (type_inf (Subscript aggregate index))
      (Some sys_maxsize) None name in
  (Forall (λ p, ∃ coeffs, CoefficientCollector p.1 = Ok coeffs)
     (zip (index_tuple index) dim_tags) →
   rec (Subscript aggregate index)
   = (r ← rec index; py_add (PyCountMap {[ key := PyInt 1 ]}) r)
   ∧ ∀ m, rec index = Ok (PyCountMap m) →
       rec (Subscript aggregate index)
       = Ok (PyCountMap (__add__ {[ key := PyInt 1 ]} m)))
  ∧ ∀ e, collected CoefficientCollector (zip (index_tuple index) dim_tags)
         = Raise e →
      rec (Subscript aggregate index) = Raise e.
Proof.
  intros Hname Harg Hmin Ha key.
  pose proof (map_subscript_lane _ _ _ _ _ Hname Harg Hmin) as Hrec.
  cbv zeta in Hrec.
  rewrite find_total_stride_collected in Hrec.
  rewrite bool_decide_eq_true_2 in Hrec by (unfold sys_maxsize; lia).
  split.
  - intros (tables & Ht & _)%collected_Ok. rewrite Ht in Hrec.
    cbn [mbind result_bind] in Hrec. split; first done.
    intros m Hm. by rewrite Hrec, Hm.
  - intros e He. by rewrite Hrec, He.
Qed.

(** *** The weighting loop of [get_gmem_access_poly] *)

Lemma add_insert_fresh (m1 m2 : gmap StridedGmemAccess num)
    (i : StridedGmemAccess) (y : num) :
  m2 !! i = None →
  __add__ (__add__ m1 m2) {[ i := y ]} = __add__ m1 (<[i := y]> m2).
Proof.
  intros Hi. apply map_eq. intros k. rewrite !lookup_add.
  destruct (decide (i = k)) as [<-|Hne].
  - by rewrite lookup_singleton_eq, lookup_insert_eq, Hi.
  - by rewrite lookup_singleton_ne, lookup_insert_ne.
Qed.

Lemma imap_singleton (f : StridedGmemAccess → num → option num)
    (i : StridedGmemAccess) (x y : num) :
  f i x = Some y →
  map_imap f ({[ i := x ]} : gmap StridedGmemAccess num) = {[ i := y ]}.
Proof.
  intros Hf. rewrite <-insert_empty.
  by rewrite (map_imap_insert_Some _ _ _ _ _ Hf), map_imap_empty, insert_empty.
Qed.

(** Every key's value is multiplied by the weight of the key, and the
    products are added to [subs_poly]. *)
Lemma weigh_spec (insn_inames : list string)
    (subs subs_poly : gmap StridedGmemAccess num) (qu qf : Qc) :
  get_insn_count knl insn_inames true = PwQPolynomial qu →
  get_insn_count knl insn_inames false = PwQPolynomial qf →
  weigh knl insn_inames subs subs_poly
  = Ok (__add__ subs_poly (weighted qu qf subs)).
Proof.
  intros Hu Hf. unfold weigh, weighted.
  apply (map_fold_weak_ind (λ r m,
    r = Ok (__add__ subs_poly
          (map_imap (λ key v, Some (num_mul v (key_weight qu qf key))) m)))).
  - by rewrite map_imap_empty, add_empty_r.
  - intros i x m r Hi ->. cbn [mbind result_bind].
    rewrite Hu, Hf.
    assert (Hs : (if is_uniform i
                  then __mul__ {[ i := x ]} (PyNum (PwQPolynomial qu))
                  else __mul__ {[ i := x ]} (PyNum (PwQPolynomial qf)))
      = Ok ({[ i := num_mul x (key_weight qu qf i) ]}
             : gmap StridedGmemAccess num)).
    { unfold key_weight, __mul__.
      destruct (is_uniform i); by rewrite map_fmap_singleton. }
    rewrite Hs. cbn [mbind result_bind].
    rewrite add_insert_fresh by (by rewrite map_lookup_imap, Hi).
    by erewrite map_imap_insert_Some.
Qed.

(** The body of the loop of [get_gmem_access_poly] on an assignment for
    which the two loops that set the directions return. *)
Lemma gmem_insn_weighs (iterate : iteration StridedGmemAccess)
    (assignee expression : Expression) (insn_inames : list string)
    (subs_poly m_e l m_a s : gmap StridedGmemAccess num) (qu qf : Qc) :
  counter_dict knl type_inf get_dependencies CoefficientCollector expression
    = Ok m_e →
  relabel iterate "load" m_e = Ok l →
  counter_dict knl type_inf get_dependencies CoefficientCollector assignee
    = Ok m_a →
  relabel iterate "store" m_a = Ok s →
  get_insn_count knl insn_inames true = PwQPolynomial qu →
  get_insn_count knl insn_inames false = PwQPolynomial qf →
  gmem_insn knl type_inf get_dependencies CoefficientCollector iterate
    subs_poly (Assignment assignee expression insn_inames)
  = Ok (__add__ (__add__ subs_poly (weighted qu qf l)) (weighted qu qf s)).
Proof.
  intros He Hl Ha Hs Hu Hf. cbn [gmem_insn].
  rewrite He. cbn [mbind result_bind]. rewrite Hl. cbn [mbind result_bind].
  rewrite Ha. cbn [mbind result_bind]. rewrite Hs. cbn [mbind result_bind].
  rewrite (weigh_spec _ _ _ qu qf) by done. cbn [mbind result_bind].
  by rewrite (weigh_spec _ _ _ qu qf).
Qed.

Lemma weighted_lookup (qu qf : Qc) (d : gmap StridedGmemAccess num)
    (key : StridedGmemAccess) (v : num) :
  d !! key = Some v →
  weighted qu qf d !! key
  = Some (num_mul v
            (PwQPolynomial
               (if bool_decide (gmem_stride key = Some 0) then qu else qf))).
Proof.
  intros Hk. unfold weighted. by rewrite map_lookup_imap, Hk.
Qed.

(** C4, as the code has it.  A subscript into a global array whose index
    depends on no lane index is counted as one access of stride 0, added
    to the count of its index.  As for the aggregator: when the count of
    the instruction's domain over its inames without the lane-tagged
    ones and the count over all its inames are quasi-polynomials, the
    weighting loop multiplies the value of a key by the former when the
    stride of the key is the integer 0 and by the latter otherwise; and
    on an instruction for which the two loops that set the directions of
    the keys return, whatever the iterator does, the loop body adds the
    dictionaries they leave, weighted so. *)
Theorem uniform_access :
  (∀ (aggregate index : Expression) (name : string)
     (dim_tags : list ArrayDimTag),
     aggregate_name aggregate = Ok name →
     arg_dict knl !! name = Some (GlobalArg dim_tags) →
     (∀ iname, iname ∈ get_dependencies (index_tuple index) →
        iname ∈ all_inames knl →
        is_local_tag (iname_to_tag knl !! iname) = false) →
     let key :=
       mkStridedGmemAccess (type_inf (Subscript aggregate index))
         (Some 0) None name in
     rec (Subscript aggregate index)
     = (r ← rec index; py_add (PyCountMap {[ key := PyInt 1 ]}) r))
  ∧ ∀ (insn_inames : list string) (qu qf : Qc),
      (count knl (inames_domain knl
         (filter (λ iname, ¬ is_local_tag (iname_to_tag knl !! iname))
            insn_inames))).1 = PwQPolynomial qu →
      (count knl (inames_domain knl insn_inames)).1 = PwQPolynomial qf →
      let weight (key : StridedGmemAccess) :=
        PwQPolynomial
          (if bool_decide (gmem_stride key = Some 0) then qu else qf) in
      (∀ subs subs_poly,
         weigh knl insn_inames subs subs_poly
         = Ok (__add__ subs_poly
                 (map_imap (λ key v, Some (num_mul v (weight key))) subs)))
      ∧ ∀ (iterate : iteration StridedGmemAccess)
          (assignee expression : Expression)
          (subs_poly m_e l m_a s : gmap StridedGmemAccess num),
          counter_dict knl type_inf get_dependencies CoefficientCollector
            expression = Ok m_e →
          relabel iterate "load" m_e = Ok l →
          counter_dict knl type_inf get_dependencies CoefficientCollector
            assignee = Ok m_a →
          relabel iterate "store" m_a = Ok s →
          gmem_insn knl type_inf get_dependencies CoefficientCollector
            iterate subs_poly (Assignment assignee expression insn_inames)
          = Ok (__add__
                  (__add__ subs_poly
                     (map_imap (λ key v, Some (num_mul v (weight key))) l))
                  (map_imap (λ key v, Some (num_mul v (weight key))) s)).
Proof.
  split.
  - intros aggregate index name dim_tags Hname Harg Hno key.
    cbn [GlobalSubscriptCounter.rec].
    unfold GlobalSubscriptCounter.map_subscript.
    rewrite Hname. cbn [mbind result_bind]. rewrite Harg.
    by rewrite find_min_tag_axis_spec, no_lane_index.
  - intros insn_inames qu qf Hu Hf weight. split.
    + intros subs subs_poly. by apply weigh_spec.
    + intros iterate assignee expression subs_poly m_e l m_a s He Hl Ha Hs.
      by apply (gmem_insn_weighs iterate _ _ _ _ m_e l m_a s qu qf).
Qed.

(** C10, as the code has it.  When the lane indices of a global
    subscript have minimum axis 0, the coefficient collector returns on
    the index of every dimension and no array dimension has both an entry
    for the lane index of axis 0 among the coefficients collected from
    its index and a fixed stride, the access is counted with the stride
    [None].  As for the aggregator: when the count over all the inames of
    the instruction is a quasi-polynomial, the weighting loop multiplies
    the value of a key of stride [None] by it; and on an instruction for
    which the two loops that set the directions of the keys return,
    whatever the iterator does, the loop body adds every key of stride
    [None] that they leave with its value multiplied by that count. *)
Theorem unknown_stride_access :
  (∀ (aggregate index : Expression) (name : string)
     (dim_tags : list ArrayDimTag),
     aggregate_name aggregate = Ok name →
     arg_dict knl !! name = Some (GlobalArg dim_tags) →
     min_lane_axis knl (my_inames (index_tuple index)) = Some 0 →
     (∀ lid, lid ∈ my_inames (index_tuple index) →
        iname_to_tag knl !! lid = Some (LocalIndexTag 0) →
        Forall (λ '(idx, axis_tag),
            ∃ coeffs, CoefficientCollector idx = Ok coeffs
              ∧ (coeffs !! lid = None ∨ is_fixed_stride axis_tag = false))
          (zip (index_tuple index) dim_tags)) →
     let dt := type_inf (Subscript aggregate index) in
     rec (Subscript aggregate index)
     = (r ← rec index;
        py_add
          (PyCountMap {[ mkStridedGmemAccess dt None None name := PyInt 1 ]})
          r))
  ∧ ∀ (insn_inames : list string) (qf : Qc),
      (count knl (inames_domain knl insn_inames)).1 = PwQPolynomial qf →
      (∀ (key : StridedGmemAccess) (v : num)
         (subs_poly : gmap StridedGmemAccess num),
         gmem_stride key = None →
         weigh knl insn_inames {[ key := v ]} subs_poly
         = Ok (__add__ subs_poly {[ key := num_mul v (PwQPolynomial qf) ]}))
      ∧ ∀ (iterate : iteration StridedGmemAccess)
          (assignee expression : Expression) (qu : Qc)
          (subs_poly m_e l m_a s : gmap StridedGmemAccess num),
          (count knl (inames_domain knl
             (filter (λ iname, ¬ is_local_tag (iname_to_tag knl !! iname))
                insn_inames))).1 = PwQPolynomial qu →
          counter_dict knl type_inf get_dependencies CoefficientCollector
            expression = Ok m_e →
          relabel iterate "load" m_e = Ok l →
          counter_dict knl type_inf get_dependencies CoefficientCollector
            assignee = Ok m_a →
          relabel iterate "store" m_a = Ok s →
          ∃ wl ws,
            gmem_insn knl type_inf get_dependencies CoefficientCollector
              iterate subs_poly (Assignment assignee expression insn_inames)
            = Ok (__add__ (__add__ subs_poly wl) ws)
            ∧ ∀ key v, gmem_stride key = None →
                (l !! key = Some v →
                 wl !! key = Some (num_mul v (PwQPolynomial qf)))
                ∧ (s !! key = Some v →
                   ws !! key = Some (num_mul v (PwQPolynomial qf))).
Proof.
  split.
  - intros aggregate index name dim_tags Hname Harg Hmin Hnone dt.
    rewrite (map_subscript_lane _ _ name dim_tags 0 Hname Harg Hmin).
    cbv zeta. change (Z.min sys_maxsize 0) with 0.
    rewrite bool_decide_eq_false_2 by (by intros ?).
    rewrite find_total_stride_None; first done.
    destruct (find_min_lid _ 0) as [lid|] eqn:Hlid.
    + apply find_min_lid_Some in Hlid as [Hin Htag].
      apply (Hnone lid Hin Htag).
    + clear Hlid.
      destruct (min_lane_axis_Some_tag _ _ Hmin) as (lid & Hin & Htag).
      eapply Forall_impl; first exact (Hnone lid Hin Htag).
      intros [idx axis_tag] (coeffs & Hc & _). exists coeffs.
      split; [done | by left].
  - intros insn_inames qf Hf. split.
    + intros key v subs_poly Hkey.
      unfold weigh. rewrite map_fold_singleton. cbn [mbind result_bind].
      unfold is_uniform. rewrite Hkey.
      rewrite bool_decide_eq_false_2 by done.
      unfold get_insn_count. rewrite Hf. unfold __mul__.
      by rewrite map_fmap_singleton.
    + intros iterate assignee expression qu subs_poly m_e l m_a s
        Hu He Hl Ha Hs.
      exists (weighted qu qf l), (weighted qu qf s). split.
      * by apply (gmem_insn_weighs iterate _ _ _ _ m_e l m_a s qu qf).
      * intros key v Hkey.
        split; intros Hk; rewrite (weighted_lookup _ _ _ _ _ Hk), Hkey;
          by rewrite bool_decide_eq_false_2.
Qed.
End GlobalSubscriptCounter_properties.

Lemma count_fst_eq (r : num * list string) (q : Qc) :
  match r.1 with
  | PwQPolynomial p => (this p == this q)%Q
  | PyInt _ => False
  end →
  r.1 = PwQPolynomial q.
Proof.
  intros Hq. by rewrite (count_value_eq r q r.2 Hq eq_refl).
Qed.

(** A result is the dictionary [m] when it has the items of [m]. *)
Lemma Ok_by_items `{Countable K} (r : result (gmap K num)) (m : gmap K num) :
  match r with
  | Ok m' => Some (map_to_list m')
  | Raise _ => None
  end = Some (map_to_list m) →
  r = Ok m.
Proof.
  destruct r as [m'|e]; last done. intros [= Heq]. f_equal.
  apply map_to_list_inj. by rewrite Heq.
Qed.

Lemma Ok_count_map_by_items `{Countable K} (r : result (@pyobj K _ _))
    (m : gmap K num) :
  match r with
  | Ok (PyCountMap m') => Some (map_to_list m')
  | _ => None
  end = Some (map_to_list m) →
  r = Ok (PyCountMap m).
Proof.
  destruct r as [[v|m'|]|e]; try done. intros [= Heq]. do 2 f_equal.
  apply map_to_list_inj. by rewrite Heq.
Qed.

Lemma reads_counted :
  counter_dict reads_kernel (λ _, "float32") dependencies linear_coeffs
    reads_expression = Ok (reads_counts None)
  ∧ relabel every_key "load" (reads_counts None)
    = Ok (reads_counts (Some "load"))
  ∧ counter_dict reads_kernel (λ _, "float32") dependencies linear_coeffs
      (Var "x") = Ok ∅
  ∧ relabel every_key "store" ∅ = Ok ∅.
Proof. split_and!; apply Ok_by_items; vm_compute; reflexivity. Qed.

Lemma reads_executions :
  (count reads_kernel (inames_domain reads_kernel
     (filter (λ iname, ¬ is_local_tag (iname_to_tag reads_kernel !! iname))
        ["i"; "j"]))).1 = PwQPolynomial (Z2Qc 8)
  ∧ (count reads_kernel (inames_domain reads_kernel ["i"; "j"])).1
    = PwQPolynomial (Z2Qc 32).
Proof. split; apply count_fst_eq; vm_compute; reflexivity. Qed.

Lemma uniform_access_witness :
  GlobalSubscriptCounter.rec reads_kernel (λ _, "float32") dependencies
    linear_coeffs (Subscript (Var "a") (Var "j"))
  = Ok (PyCountMap
          {[ mkStridedGmemAccess "float32" (Some 0) None "a" := PyInt 1 ]})
  ∧ weigh reads_kernel ["i"; "j"]
      {[ mkStridedGmemAccess "float32" (Some 0) (Some "load") "a" := PyInt 1 ]} ∅
    = Ok {[ mkStridedGmemAccess "float32" (Some 0) (Some "load") "a"
            := PwQPolynomial (Z2Qc 8) ]}
  ∧ entries
      (gmem_insn reads_kernel (λ _, "float32") dependencies linear_coeffs
         every_key ∅ (Assignment (Var "x") reads_expression ["i"; "j"]))
    = Some
        [ (mkStridedGmemAccess "float32" (Some 0) (Some "load") "a", 8 # 1);
          (mkStridedGmemAccess "float32" None (Some "load") "v", 32 # 1);
          (mkStridedGmemAccess "float32" (Some 1) (Some "load") "b", 32 # 1) ].
Proof.
  destruct (uniform_access reads_kernel (λ _, "float32") dependencies
    linear_coeffs) as [Hrec Hagg].
  destruct reads_counted as (He & Hl & Ha & Hs).
  destruct reads_executions as [Hu Hf].
  destruct (Hagg ["i"; "j"] (Z2Qc 8) (Z2Qc 32) Hu Hf) as [Hweigh Hinsn].
  split_and!.
  - rewrite (Hrec (Var "a") (Var "j") "a" [FixedStrideArrayDimTag 1]).
    + cbn [GlobalSubscriptCounter.rec].
      unfold GlobalSubscriptCounter.map_constant.
      cbn [mbind result_bind py_add]. by rewrite add_empty_r.
    + reflexivity.
    + reflexivity.
    + intros iname Hin _.
      unfold dependencies in Hin. simpl in Hin.
      apply elem_of_union in Hin as [Hj%elem_of_singleton|[]%elem_of_empty].
      by rewrite Hj.
  - rewrite Hweigh, (imap_singleton _ _ _ _ eq_refl), add_empty_l.
    by do 2 f_equal.
  - rewrite (Hinsn every_key (Var "x") reads_expression ∅ _ _ _ _
               He Hl Ha Hs).
    vm_compute. reflexivity.
Defined.

(** C4, counterexample.  In [all_lanes_kernel] the subscript [a[0]]
    depends on no lane index and is counted with the stride 0, and every
    iname of its instruction is lane-tagged: the count without them is
    that of a domain without dimensions, the integer 0, and multiplying
    by it raises [ValueError].  The aggregator weights no key: it raises
    [ValueError] when the iterator yields the key once, and
    [RuntimeError] when the iterator raises after the key is replaced. *)
Lemma uniform_access_all_lanes_raises :
  GlobalSubscriptCounter.rec all_lanes_kernel (λ _, "float32") dependencies
    linear_coeffs (Subscript (Var "a") (Constant 0))
  = Ok (PyCountMap
          {[ mkStridedGmemAccess "float32" (Some 0) None "a" := PyInt 1 ]})
  ∧ get_insn_count all_lanes_kernel ["i"] true = PyInt 0
  ∧ weigh all_lanes_kernel ["i"]
      {[ mkStridedGmemAccess "float32" (Some 0) (Some "load") "a" := PyInt 1 ]} ∅
    = Raise ValueError
  ∧ get_gmem_access_poly all_lanes_kernel (λ _, "float32") dependencies
      linear_coeffs every_key = Raise ValueError
  ∧ get_gmem_access_poly all_lanes_kernel (λ _, "float32") dependencies
      linear_coeffs first_key_then_error = Raise RuntimeError.
Proof.
  split_and!; [apply Ok_count_map_by_items | ..]; vm_compute; reflexivity.
Qed.

(** In the same instruction a key of stride 1 is weighted by the count
    over both inames. *)
Example weigh_stride_1 :
  weigh mixed_kernel ["i"; "j"]
    {[ mkStridedGmemAccess "float32" (Some 1) (Some "load") "a" := PyInt 1 ]} ∅
  = Ok {[ mkStridedGmemAccess "float32" (Some 1) (Some "load") "a"
          := PwQPolynomial (Z2Qc 32) ]}.
Proof.
  rewrite (weigh_spec mixed_kernel _ _ _ (Z2Qc 8) (Z2Qc 32)).
  - unfold weighted. rewrite (imap_singleton _ _ _ _ eq_refl), add_empty_l.
    by do 2 f_equal.
  - apply count_fst_eq. vm_compute. reflexivity.
  - apply count_fst_eq. vm_compute. reflexivity.
Qed.

(** The whole aggregator on [x = a[j] + b[i] + v[i]], with an iterator
    that yields each of the three keys once: the load of ["a"] is uniform
    and counted once per value of ["j"], the loads of ["b"] and ["v"] are
    counted once per point of the domain. *)
Example get_gmem_access_poly_reads :
  entries (get_gmem_access_poly reads_kernel (λ _, "float32") dependencies
             linear_coeffs every_key)
  = Some
      [ (mkStridedGmemAccess "float32" (Some 0) (Some "load") "a", 8 # 1);
        (mkStridedGmemAccess "float32" None (Some "load") "v", 32 # 1);
        (mkStridedGmemAccess "float32" (Some 1) (Some "load") "b", 32 # 1) ].
Proof. vm_compute. reflexivity. Qed.

(** The whole aggregator on [b[i] = a[j]]: with an iterator that raises
    once the one key of the right-hand side is replaced, the aggregator
    raises; with one that yields the key once on either side, the load
    of ["a"] is counted once per value of ["j"] and the store to ["b"]
    once per point of the domain. *)
Example get_gmem_access_poly_copy :
  get_gmem_access_poly copy_kernel (λ _, "float32") dependencies
    linear_coeffs first_key_then_error = Raise RuntimeError
  ∧ entries (get_gmem_access_poly copy_kernel (λ _, "float32") dependencies
               linear_coeffs every_key)
    = Some
        [ (mkStridedGmemAccess "float32" (Some 0) (Some "load") "a", 8 # 1);
          (mkStridedGmemAccess "float32" (Some 1) (Some "store") "b", 32 # 1) ].
Proof. split; vm_compute; reflexivity. Qed.

Lemma nonzero_min_lane_axis_sentinel_witness :
  GlobalSubscriptCounter.rec lane1_kernel (λ _, "float32") dependencies
    linear_coeffs (Subscript (Var "a") (Var "i"))
  = Ok (PyCountMap
          {[ mkStridedGmemAccess "float32" (Some sys_maxsize) None "a"
             := PyInt 1 ]}).
Proof.
  pose proof (nonzero_min_lane_axis_sentinel lane1_kernel (λ _, "float32")
    dependencies linear_coeffs (Var "a") (Var "i") "a"
    [FixedStrideArrayDimTag 1] 1) as Hw.
  destruct Hw as [Hreturns _].
  - reflexivity.
  - reflexivity.
  - vm_compute. reflexivity.
  - lia.
  - destruct Hreturns as [_ Hrec].
    + constructor; last constructor. by eexists.
    + rewrite (Hrec ∅) by reflexivity. by rewrite add_empty_r.
Defined.

(** C5, counterexample.  In [lane1_kernel] the index of [a[i * i]]
    depends on the lane index ["i"] of axis 1, the minimum axis; the
    collector raises [RuntimeError] on [i * i], and so does the
    subscript: no key with the stride [sys.maxsize] is returned. *)
Lemma nonlinear_index_raises :
  min_lane_axis lane1_kernel
    (GlobalSubscriptCounter.my_inames lane1_kernel dependencies
       (index_tuple (Product [Var "i"; Var "i"])))
  = Some 1
  ∧ linear_coeffs (Product [Var "i"; Var "i"]) = Raise RuntimeError
  ∧ GlobalSubscriptCounter.rec lane1_kernel (λ _, "float32") dependencies
      linear_coeffs (Subscript (Var "a") (Product [Var "i"; Var "i"]))
    = Raise RuntimeError.
Proof. split_and!; vm_compute; reflexivity. Qed.

Lemma unknown_stride_access_witness :
  GlobalSubscriptCounter.rec reads_kernel (λ _, "float32") dependencies
    linear_coeffs (Subscript (Var "v") (Var "i"))
  = Ok (PyCountMap
          {[ mkStridedGmemAccess "float32" None None "v" := PyInt 1 ]})
  ∧ weigh reads_kernel ["i"; "j"]
      {[ mkStridedGmemAccess "float32" None (Some "load") "v" := PyInt 1 ]} ∅
    = Ok {[ mkStridedGmemAccess "float32" None (Some "load") "v"
            := PwQPolynomial (Z2Qc 32) ]}
  ∧ ∃ wl ws,
      gmem_insn reads_kernel (λ _, "float32") dependencies linear_coeffs
        every_key ∅ (Assignment (Var "x") reads_expression ["i"; "j"])
      = Ok (__add__ (__add__ ∅ wl) ws)
      ∧ wl !! mkStridedGmemAccess "float32" None (Some "load") "v"
        = Some (num_mul (PyInt 1) (PwQPolynomial (Z2Qc 32))).
Proof.
  destruct (unknown_stride_access reads_kernel (λ _, "float32") dependencies
    linear_coeffs) as [Hrec Hagg].
  destruct reads_counted as (He & Hl & Ha & Hs).
  destruct reads_executions as [Hu Hf].
  destruct (Hagg ["i"; "j"] (Z2Qc 32) Hf) as [Hweigh Hinsn].
  split_and!.
  - rewrite (Hrec (Var "v") (Var "i") "v" [VectorArrayDimTag]).
    + cbn [GlobalSubscriptCounter.rec].
      unfold GlobalSubscriptCounter.map_constant.
      cbn [mbind result_bind py_add]. by rewrite add_empty_r.
    + reflexivity.
    + reflexivity.
    + vm_compute. reflexivity.
    + intros lid _ _. constructor; last constructor.
      eexists. split; [reflexivity | by right].
  - rewrite Hweigh by reflexivity. rewrite add_empty_l. by do 2 f_equal.
  - destruct (Hinsn every_key (Var "x") reads_expression (Z2Qc 8) ∅ _ _ _ _
                Hu He Hl Ha Hs) as (wl & ws & Hres & Hnone).
    exists wl, ws. split; first exact Hres.
    apply (Hnone (mkStridedGmemAccess "float32" None (Some "load") "v")
             (PyInt 1) eq_refl).
    vm_compute. reflexivity.
Defined.

(** C10, counterexample.  In [a[i - i]] the lane index ["i"] of axis 0 has
    the coefficient 0 in the only dimension, which has a fixed stride: no
    dimension carries a nonzero coefficient of it, yet the entry is there,
    and the access is counted with the stride 0, not [None].  In
    [a[i * i]], where the one dimension of the array has no fixed stride,
    the collector raises [RuntimeError] on the index, and so does the
    subscript: no key is returned. *)
Lemma zero_coefficient_entry_stride :
  min_lane_axis lane0_kernel
    (GlobalSubscriptCounter.my_inames lane0_kernel dependencies
       (index_tuple (Sum [Var "i"; Product [Constant (-1); Var "i"]])))
  = Some 0
  ∧ Forall (λ '(idx, axis_tag),
        ¬ ∃ coeffs c, linear_coeffs idx = Ok coeffs
               ∧ coeffs !! "i" = Some c ∧ c ≠ 0
               ∧ is_fixed_stride axis_tag = true)
      (zip (index_tuple (Sum [Var "i"; Product [Constant (-1); Var "i"]]))
         [FixedStrideArrayDimTag 1])
  ∧ GlobalSubscriptCounter.rec lane0_kernel (λ _, "float32") dependencies
      linear_coeffs a_i_minus_i
    = Ok (PyCountMap
            {[ mkStridedGmemAccess "float32" (Some 0) None "a" := PyInt 1 ]})
  ∧ GlobalSubscriptCounter.rec lane0_kernel (λ _, "float32") dependencies
      linear_coeffs a_i_minus_i
    ≠ Ok (PyCountMap
            {[ mkStridedGmemAccess "float32" None None "a" := PyInt 1 ]})
  ∧ min_lane_axis lane0_vector_kernel
      (GlobalSubscriptCounter.my_inames lane0_vector_kernel dependencies
         (index_tuple (Product [Var "i"; Var "i"])))
    = Some 0
  ∧ arg_dict lane0_vector_kernel !! "a" = Some (GlobalArg [VectorArrayDimTag])
  ∧ GlobalSubscriptCounter.rec lane0_vector_kernel (λ _, "float32")
      dependencies linear_coeffs
      (Subscript (Var "a") (Product [Var "i"; Var "i"]))
    = Raise RuntimeError.
Proof.
  assert (Hidx : GlobalSubscriptCounter.rec lane0_kernel (λ _, "float32")
      dependencies linear_coeffs
      (Sum [Var "i"; Product [Constant (-1); Var "i"]])
    = Ok (PyCountMap ∅)).
  { vm_compute. reflexivity. }
  assert (Hrec : GlobalSubscriptCounter.rec lane0_kernel (λ _, "float32")
      dependencies linear_coeffs a_i_minus_i
    = Ok (PyCountMap
            {[ mkStridedGmemAccess "float32" (Some 0) None "a" := PyInt 1 ]})).
  { unfold a_i_minus_i. cbn [GlobalSubscriptCounter.rec].
    unfold GlobalSubscriptCounter.map_subscript.
    cbn [aggregate_name mbind result_bind].
    change (arg_dict lane0_kernel !! "a")
      with (Some (GlobalArg [FixedStrideArrayDimTag 1])).
    cbv iota beta.
    replace (GlobalSubscriptCounter.find_min_tag_axis lane0_kernel _)
      with (true, 0) by (vm_compute; reflexivity).
    cbn [negb].
    replace (GlobalSubscriptCounter.find_total_stride linear_coeffs _ _ _)
      with (Ok (Some 0) : result (option Z)) by (vm_compute; reflexivity).
    cbn [mbind result_bind].
    rewrite bool_decide_eq_false_2 by (by intros ?).
    fold (GlobalSubscriptCounter.rec lane0_kernel (λ _, "float32")
            dependencies linear_coeffs).
    rewrite Hidx. cbn [mbind result_bind py_add].
    unfold GlobalSubscriptCounter.ToCountMap1. cbn [py_add].
    by rewrite add_empty_r. }
  split_and!.
  - vm_compute. reflexivity.
  - constructor; last constructor.
    intros (coeffs & c & Hcoeffs & Hc & Hne & _).
    vm_compute in Hcoeffs. injection Hcoeffs as <-.
    vm_compute in Hc. congruence.
  - exact Hrec.
  - rewrite Hrec. intros Heq. simplify_eq.
  - vm_compute. reflexivity.
  - reflexivity.
  - vm_compute. reflexivity.
Qed.

(** ** get_barrier_poly *)

Lemma barrier_loop_app (knl : LoopKernel) (pre post : list ScheduleItem)
    (st : list string * num) :
  barrier_loop knl (pre ++ post) st
  = (st' ← barrier_loop knl pre st; barrier_loop knl post st').
Proof.
  unfold barrier_loop. rewrite foldl_app.
  destruct (foldl _ (Ok st) pre) as [st'|e]; first done.
  simpl. induction post as [|item post IH]; first done. apply IH.
Qed.




(** ** gather_access_footprints *)

Section footprints.
Variable kernel : LoopKernel.
Variable get_access_range : IslSet → list Expression → option Footprint.
Variable inherited : Expression → list (result fp_val) → result fp_val.

Local Abbreviation merge :=
  (λ (acc : result fp_val) (b : fp_val),
     a ← acc; AccessFootprintGatherer.merge_dicts a b).
Local Abbreviation step :=
  (λ acc insn,
     st ← acc; footprint_insn kernel get_access_range inherited st insn).

Lemma reduce_raised (vs : list fp_val) (e : exn) :
  foldl merge (Raise e) vs = Raise e.
Proof. induction vs as [|v vs IH]; [done | apply IH]. Qed.

(** Merging [None] into anything raises, and so does merging anything
    into [None]. *)
Lemma merge_None_r (acc : result fp_val) : ∃ e, merge acc FpNone = Raise e.
Proof. destruct acc as [[|d]|e]; by eexists. Qed.

Lemma merge_None_l (b : fp_val) : merge (Ok FpNone) b = Raise AttributeError.
Proof. done. Qed.

(** A [None] among the values still to merge makes [reduce] raise. *)
Lemma reduce_over_None (vs : list fp_val) (acc : result fp_val) :
  FpNone ∈ vs → ∃ e, foldl merge acc vs = Raise e.
Proof.
  revert acc. induction vs as [|v vs IH]; intros acc Hin.
  { by apply elem_of_nil in Hin. }
  apply elem_of_cons in Hin as [<-|Hin]; last by apply IH.
  cbn [foldl]. destruct (merge_None_r acc) as [e ->].
  exists e. apply reduce_raised.
Qed.

(** [combine] of values with a [None] among them is [None], when it is
    the only value, or an exception. *)
Lemma combine_with_None (values : list fp_val) :
  FpNone ∈ values →
  AccessFootprintGatherer.combine values = Ok FpNone
  ∨ ∃ e, AccessFootprintGatherer.combine values = Raise e.
Proof.
  destruct values as [|v vs]; first by intros ?%elem_of_nil.
  intros [<-|Hin]%elem_of_cons; unfold AccessFootprintGatherer.combine.
  - destruct vs as [|v vs]; first by left.
    right. exists AttributeError. cbn [foldl].
    rewrite merge_None_l. apply reduce_raised.
  - right. by apply reduce_over_None.
Qed.

(** The loop over the instructions keeps a [None] it has appended to
    [write_footprints] or to [read_footprints]. *)
Lemma footprint_loop_keeps_None (insns : list Instruction)
    (acc : result (list string * list fp_val * list fp_val)) :
  (∀ st, acc = Ok st → FpNone ∈ st.1.2 ∨ FpNone ∈ st.2) →
  ∀ st, foldl step acc insns = Ok st → FpNone ∈ st.1.2 ∨ FpNone ∈ st.2.
Proof.
  revert acc. induction insns as [|insn insns IH]; intros acc Hacc; first done.
  cbn [foldl]. apply IH. intros st Hst.
  destruct acc as [[[w ws] rs]|e]; last done.
  specialize (Hacc _ eq_refl). simpl in Hacc.
  cbn [mbind result_bind] in Hst. unfold footprint_insn in Hst.
  destruct insn as [assignee expression insn_inames|insn_inames].
  - destruct (AccessFootprintGatherer.rec _ _ _ assignee) as [fw|];
      last done.
    destruct (AccessFootprintGatherer.rec _ _ _ expression) as [fr|];
      last done.
    simplify_eq/=. rewrite !elem_of_app. tauto.
  - by simplify_eq/=.
Qed.

Lemma footprint_loop_appends_None (insns : list Instruction)
    (acc : result (list string * list fp_val * list fp_val))
    (assignee expression aggregate index : Expression)
    (insn_inames : list string) :
  Assignment assignee expression insn_inames ∈ insns →
  assignee = Subscript aggregate index
  ∨ expression = Subscript aggregate index →
  get_access_range (inames_domain kernel insn_inames) (index_tuple index)
  = None →
  ∀ st, foldl step acc insns = Ok st → FpNone ∈ st.1.2 ∨ FpNone ∈ st.2.
Proof.
  intros Hin Hsub Hnone. revert acc.
  induction insns as [|insn insns IH]; intros acc.
  { by apply elem_of_nil in Hin. }
  apply elem_of_cons in Hin as [<-|Hin]; last by apply IH.
  cbn [foldl]. apply footprint_loop_keeps_None.
  intros st Hst. destruct acc as [[[w ws] rs]|e]; last done.
  cbn [mbind result_bind] in Hst. unfold footprint_insn in Hst.
  assert (Hrec : AccessFootprintGatherer.rec
      (inames_domain kernel insn_inames) get_access_range inherited
      (Subscript aggregate index) = Ok FpNone).
  { cbn [AccessFootprintGatherer.rec].
    unfold AccessFootprintGatherer.map_subscript. by rewrite Hnone. }
  destruct Hsub as [->| ->].
  - rewrite Hrec in Hst. cbn [mbind result_bind] in Hst.
    destruct (AccessFootprintGatherer.rec _ _ _ expression) as [fr|];
      last done.
    simplify_eq/=. rewrite !elem_of_app, !list_elem_of_singleton. tauto.
  - destruct (AccessFootprintGatherer.rec _ _ _ assignee) as [fw|];
      last done.
    cbn [mbind result_bind] in Hst. rewrite Hrec in Hst.
    simplify_eq/=. rewrite !elem_of_app, !list_elem_of_singleton. tauto.
Qed.

(** C9, on the code.  When the access range of a subscript that is the
    target or the right-hand side of an assignment cannot be computed, the
    mapper returns [None] for it, and [gather_access_footprints] on the
    kernel raises: the subscript is not dropped, no footprint is returned
    for the other accesses.  So it is on a kernel with the instructions
    [a[i * i] = x] and [b[i] = y], where the result is [AttributeError]. *)
Theorem dropped_subscript_raises
    (assignee expression aggregate index : Expression)
    (insn_inames : list string) :
  Assignment assignee expression insn_inames ∈ instructions kernel →
  assignee = Subscript aggregate index
  ∨ expression = Subscript aggregate index →
  get_access_range (inames_domain kernel insn_inames) (index_tuple index)
  = None →
  AccessFootprintGatherer.rec (inames_domain kernel insn_inames)
    get_access_range inherited (Subscript aggregate index) = Ok FpNone
  ∧ (∃ e, gather_access_footprints kernel get_access_range inherited
          = Raise e)
  ∧ gather_access_footprints nonlinear_write_kernel leaf_access_range
      no_inherited = Raise AttributeError.
Proof.
  intros Hin Hsub Hnone. split_and!.
  - cbn [AccessFootprintGatherer.rec].
    unfold AccessFootprintGatherer.map_subscript. by rewrite Hnone.
  - unfold gather_access_footprints.
    pose proof (footprint_loop_appends_None (instructions kernel)
      (Ok ([], [], [])) _ _ _ _ _ Hin Hsub Hnone) as Hloop.
    destruct (foldl _ (Ok ([], [], [])) (instructions kernel))
      as [[[w ws] rs]|e]; last by eexists.
    specialize (Hloop _ eq_refl). simpl in Hloop.
    cbn [mbind result_bind].
    destruct Hloop as [Hws|Hrs].
    + destruct (combine_with_None ws Hws) as [->|[e ->]]; last by eexists.
      cbn [mbind result_bind].
      destruct (AccessFootprintGatherer.combine rs); by eexists.
    + destruct (AccessFootprintGatherer.combine ws) as [fw|];
        last by eexists.
      cbn [mbind result_bind].
      destruct (combine_with_None rs Hrs) as [->|[e ->]]; last by eexists.
      cbn [mbind result_bind].
      destruct fw; by eexists.
  - reflexivity.
Qed.
End footprints.

Lemma dropped_subscript_raises_witness :
  ∃ e, gather_access_footprints nonlinear_write_kernel leaf_access_range
         no_inherited = Raise e.
Proof.
  apply (dropped_subscript_raises nonlinear_write_kernel leaf_access_range
           no_inherited (Subscript (Var "a") (Product [Var "i"; Var "i"]))
           (Var "x") (Var "a") (Product [Var "i"; Var "i"]) ["i"]).
  - by left.
  - by left.
  - reflexivity.
Defined.

(** Without the first instruction the footprint of ["b"] is returned. *)
Example linear_write_footprint :
  footprint_entries
    (gather_access_footprints linear_write_kernel leaf_access_range
       no_inherited)
  = Some ([], [(("b", "write"), [[0]])]).
Proof. vm_compute. reflexivity. Qed.

(** * More properties *)

(** ** ToCountMap *)

Lemma num_value_add (a b : num) :
  num_value (num_add a b) = (num_value a + num_value b)%Qc.
Proof. destruct a, b; simpl; by rewrite ?Z2Qc_add. Qed.

Lemma num_value_mul (a b : num) :
  num_value (num_mul a b) = (num_value a * num_value b)%Qc.
Proof. destruct a, b; simpl; by rewrite ?Z2Qc_mul. Qed.

Section ToCountMap_more.
Context {K : Type} `{Countable K}.
Implicit Types a b : gmap K num.

(** X1. Reading a key of a sum gives the sum of what the two maps give at
    that key, a missing key reading as zero. *)
Theorem getitem_add a b (k : K) :
  num_value (__getitem__ (__add__ a b) k)
  = (num_value (__getitem__ a k) + num_value (__getitem__ b k))%Qc.
Proof.
  unfold __getitem__. rewrite lookup_add.
  destruct (a !! k) as [x|], (b !! k) as [y|]; cbn [default from_option id];
    rewrite ?num_value_add; cbn [num_value]; rewrite ?Z2Qc_0.
  - done.
  - by rewrite Qcplus_0_r.
  - by rewrite Qcplus_0_l.
  - by rewrite Qcplus_0_l.
Qed.

(** X2. Scaling by a quasi-polynomial distributes over the sum of two
    maps. *)
Theorem mul_add_distr a b (q : Qc) :
  ∃ ma mb,
    __mul__ a (PyNum (PwQPolynomial q)) = Ok ma
    ∧ __mul__ b (PyNum (PwQPolynomial q)) = Ok mb
    ∧ __mul__ (__add__ a b) (PyNum (PwQPolynomial q)) = Ok (__add__ ma mb).
Proof.
  do 2 eexists. split_and!; [done | done |].
  unfold __mul__. f_equal. apply map_eq. intros k.
  rewrite lookup_fmap, !lookup_add, !lookup_fmap.
  destruct (a !! k) as [x|], (b !! k) as [y|];
    cbn [default from_option id fmap option_fmap option_map];
    try done; f_equal.
  - rewrite !num_mul_PwQPolynomial. cbn [num_add]. f_equal.
    rewrite num_value_add. ring.
  - by rewrite !num_add_0_l.
Qed.

Lemma sum_maps_perm (ms ms' : list (gmap K num)) :
  ms ≡ₚ ms' → sum_maps ms = sum_maps ms'.
Proof.
  induction 1 as [|m l l' _ IH|m1 m2 l|l1 l2 l3 _ IH1 _ IH2]; simpl.
  - done.
  - by rewrite IH.
  - by rewrite <-!add_assoc, (add_comm m2 m1).
  - by rewrite IH1.
Qed.

(** X3. Python's [sum] of count maps does not depend on their order. *)
Theorem py_sum_perm (ms ms' : list (gmap K num)) :
  ms ≡ₚ ms' →
  py_sum ((λ m, Ok (PyCountMap m)) <$> ms)
  = py_sum ((λ m, Ok (PyCountMap m)) <$> ms').
Proof.
  intros Hp. rewrite !py_sum_maps.
  destruct ms as [|m ms], ms' as [|m' ms'].
  - done.
  - by apply Permutation_nil_cons in Hp.
  - symmetry in Hp. by apply Permutation_nil_cons in Hp.
  - by rewrite (sum_maps_perm _ _ Hp).
Qed.
End ToCountMap_more.

Lemma py_sum_perm_witness :
  py_sum ((λ m, Ok (PyCountMap m)) <$> [two_units; ∅])
  = py_sum ((λ m, Ok (PyCountMap m)) <$> [∅; two_units]).
Proof. apply py_sum_perm. apply Permutation_swap. Defined.

(** ** Totals of count maps *)

Lemma bind_Ok {A B} (e : result A) (k : A → result B) (b : B) :
  (x ← e; k x) = Ok b → ∃ a, e = Ok a ∧ k a = Ok b.
Proof. destruct e as [a|]; [by exists a | done]. Qed.

Section totals.
Context {K : Type} `{Countable K}.
Implicit Types (m a b : gmap K num) (r : @pyobj K _ _).

Lemma units_empty : units (∅ : gmap K num) = 0%Qc.
Proof. done. Qed.

Lemma units_insert m (k : K) (v : num) :
  m !! k = None → units (<[k := v]> m) = (num_value v + units m)%Qc.
Proof.
  intros Hk. unfold units.
  apply (map_fold_insert_L (λ _ v acc, (num_value v + acc)%Qc)); last done.
  intros. ring.
Qed.

Lemma units_delete m (k : K) (v : num) :
  m !! k = Some v → units m = (num_value v + units (delete k m))%Qc.
Proof.
  intros Hk. rewrite <-(insert_delete_id m k v) at 1 by done.
  apply units_insert, lookup_delete_eq.
Qed.

Lemma units_singleton (k : K) (v : num) :
  units ({[ k := v ]} : gmap K num) = num_value v.
Proof.
  rewrite <-insert_empty, units_insert by done.
  rewrite units_empty. ring.
Qed.

Lemma add_insert_r a b (k : K) (v : num) :
  __add__ a (<[k := v]> b)
  = <[k := num_add (default (PyInt 0) (a !! k)) v]> (__add__ a b).
Proof.
  apply map_eq. intros j. rewrite lookup_add.
  destruct (decide (k = j)) as [->|Hne].
  - by rewrite !lookup_insert_eq.
  - by rewrite !lookup_insert_ne, lookup_add.
Qed.

Lemma units_add a b : units (__add__ a b) = (units a + units b)%Qc.
Proof.
  induction b as [|k v b Hk IH] using map_ind.
  - rewrite add_empty_r, units_empty. ring.
  - rewrite add_insert_r, (units_insert b) by done.
    assert (Hl : __add__ a b !! k = a !! k) by (by rewrite lookup_add, Hk).
    destruct (a !! k) as [y|] eqn:Ha; cbn [default from_option id].
    + rewrite <-insert_delete_eq, units_insert by apply lookup_delete_eq.
      rewrite num_value_add.
      pose proof (units_delete _ _ _ Hl) as Hd. rewrite IH in Hd.
      rewrite <-Qcplus_assoc, (Qcplus_comm (num_value v)), Qcplus_assoc.
      rewrite <-(Qcplus_assoc (num_value y)), (Qcplus_comm (num_value v)).
      rewrite Qcplus_assoc, <-Hd. ring.
    + rewrite units_insert by done. rewrite num_add_0_l, IH. ring.
Qed.

Lemma units_mul m (q : Qc) :
  units ((λ v, num_mul v (PwQPolynomial q)) <$> m) = (units m * q)%Qc.
Proof.
  induction m as [|k v m Hk IH] using map_ind.
  - rewrite fmap_empty, units_empty. ring.
  - rewrite fmap_insert, !units_insert by (by rewrite ?lookup_fmap, Hk).
    rewrite IH, num_value_mul. cbn [num_value]. ring.
Qed.

(** What [+] returns holds the units of both operands. *)
Lemma py_add_units r1 r2 r :
  py_add r1 r2 = Ok r → obj_units r = (obj_units r1 + obj_units r2)%Qc.
Proof.
  destruct r1 as [x|m1|], r2 as [y|m2|]; try done; simpl.
  - intros [= <-]. apply num_value_add.
  - destruct x as [[]|]; try done. intros [= <-]. simpl.
    rewrite Z2Qc_0. ring.
  - intros [= <-]. apply units_add.
Qed.

Lemma py_sum_from_units (values : list (result (@pyobj K _ _)))
    (acc : result (@pyobj K _ _)) r :
  foldl (λ acc value, a ← acc; v ← value; py_add a v) acc values = Ok r →
  ∃ r0 rs, acc = Ok r0 ∧ values = Ok <$> rs
    ∧ obj_units r = (obj_units r0 + foldr Qcplus 0%Qc (obj_units <$> rs))%Qc.
Proof.
  revert acc. induction values as [|value values IH]; intros acc; simpl.
  - intros ->. exists r, []. split_and!; [done..|].
    cbn [fmap list_fmap foldr]. by rewrite Qcplus_0_r.
  - intros (r' & rs & Hacc & -> & Hr)%IH.
    apply bind_Ok in Hacc as (r0 & -> & Hacc).
    apply bind_Ok in Hacc as (v & -> & Hadd).
    exists r0, (v :: rs). split_and!; [done..|].
    rewrite Hr, (py_add_units _ _ _ Hadd). cbn [fmap list_fmap foldr].
    by rewrite Qcplus_assoc.
Qed.

(** What [sum] returns holds the units of all its items. *)
Lemma py_sum_units (values : list (result (@pyobj K _ _))) r :
  py_sum values = Ok r →
  ∃ rs, values = Ok <$> rs
    ∧ obj_units r = foldr Qcplus 0%Qc (obj_units <$> rs).
Proof.
  intros (r0 & rs & [= <-] & -> & Hr)%py_sum_from_units.
  exists rs. split; first done. rewrite Hr. cbn [obj_units num_value].
  by rewrite Z2Qc_0, Qcplus_0_l.
Qed.

(** A mapper that holds [f c] units for each child holds their total for
    the sum of the children. *)
Lemma py_sum_children (rec : Expression → result (@pyobj K _ _))
    (f : Expression → Z) (children : list Expression) r :
  Forall (λ c, ∀ r, rec c = Ok r → obj_units r = Z2Qc (f c)) children →
  py_sum (rec <$> children) = Ok r →
  obj_units r = Z2Qc (total (f <$> children)).
Proof.
  intros Hall (rs & Hrs & ->)%py_sum_units. clear r.
  revert rs Hrs. induction Hall as [|c cs Hc _ IH]; intros [|r rs] Hrs;
    try done; unfold total; cbn [fmap list_fmap foldr] in *.
  injection Hrs as Hr Hrs. rewrite Z2Qc_add, (Hc _ Hr). f_equal.
  by apply IH.
Qed.
End totals.

(** ** Induction on expressions *)

Lemma Expression_sub_ind (P : Expression → Prop) :
  (∀ e, Forall P (subexpressions e) → P e) → ∀ e, P e.
Proof.
  intros Hstep. fix IH 1. intros e. apply Hstep.
  assert (Hlist : ∀ l, Forall P l).
  { clear e. fix IHl 1. intros [|c cs]; constructor; [apply IH | apply IHl]. }
  destruct e; simpl; auto.
Qed.

(** ** Count maps of integers, and sums that raise *)

Section int_valued.
Context {K : Type} `{Countable K}.
Implicit Types (m a b : gmap K num).

Lemma int_valued_empty : int_valued (∅ : gmap K num).
Proof. intros k v. by rewrite lookup_empty. Qed.

Lemma int_valued_singleton (k : K) (n : Z) :
  int_valued ({[ k := PyInt n ]} : gmap K num).
Proof. intros j v [_ <-]%lookup_singleton_Some. by exists n. Qed.

Lemma int_valued_add a b : int_valued a → int_valued b → int_valued (__add__ a b).
Proof.
  intros Ha Hb k v. rewrite lookup_add.
  destruct (b !! k) as [y|] eqn:Hy; last by apply Ha.
  destruct (Hb _ _ Hy) as [n ->].
  destruct (a !! k) as [x|] eqn:Hx; cbn [default from_option id].
  - destruct (Ha _ _ Hx) as [n' ->]. intros [= <-]. by eexists.
  - intros [= <-]. by eexists.
Qed.

Lemma int_valued_sum_maps (ms : list (gmap K num)) :
  Forall int_valued ms → int_valued (sum_maps ms).
Proof.
  induction 1; simpl; [apply int_valued_empty | by apply int_valued_add].
Qed.

Lemma py_sum_from_raise (values : list (result (@pyobj K _ _))) (e : exn) :
  foldl (λ acc value, a ← acc; v ← value; py_add a v) (Raise e) values
  = Raise e.
Proof. induction values; [done | by simpl]. Qed.

Lemma py_sum_from_raises (values : list (result (@pyobj K _ _))) (e : exn)
    (acc : @pyobj K _ _) :
  acc = PyNum (PyInt 0) ∨ (∃ m, acc = PyCountMap m) →
  Forall (λ v, (∃ m, v = Ok (PyCountMap m)) ∨ v = Raise e) values →
  Exists (λ v, v = Raise e) values →
  foldl (λ acc value, a ← acc; v ← value; py_add a v) (Ok acc) values
  = Raise e.
Proof.
  intros Hacc Hall. revert acc Hacc.
  induction Hall as [|v vs Hv _ IH]; intros acc Hacc Hex.
  { by apply Exists_nil in Hex. }
  cbn [foldl mbind result_bind].
  destruct Hv as [[m ->]| ->].
  - apply Exists_cons in Hex as [?|Hex]; first done.
    destruct Hacc as [->|[m' ->]]; cbn; apply IH; eauto.
  - apply py_sum_from_raise.
Qed.

(** [sum] raises what one of its items raises when the others are count
    maps. *)
Lemma py_sum_raises (values : list (result (@pyobj K _ _))) (e : exn) :
  Forall (λ v, (∃ m, v = Ok (PyCountMap m)) ∨ v = Raise e) values →
  Exists (λ v, v = Raise e) values →
  py_sum values = Raise e.
Proof. apply py_sum_from_raises. by left. Qed.
End int_valued.

(** ** Keys of sums *)

Section keys.
Context {K : Type} `{Countable K}.
Variable P : K → Prop.

Lemma py_add_keys (r1 r2 r : @pyobj K _ _) :
  keys_in P r1 → keys_in P r2 → py_add r1 r2 = Ok r → keys_in P r.
Proof.
  destruct r1 as [x|m1|], r2 as [y|m2|]; try done; simpl.
  - by intros _ _ [= <-].
  - destruct x as [[]|]; try done. by intros _ ? [= <-].
  - intros H1 H2 [= <-] k v. rewrite lookup_add.
    destruct (m2 !! k) eqn:E2; [by eauto|]. by eauto.
Qed.

Lemma py_sum_from_keys (values : list (result (@pyobj K _ _)))
    (acc : result (@pyobj K _ _)) (r : @pyobj K _ _) :
  (∀ r0, acc = Ok r0 → keys_in P r0) →
  Forall (λ v, ∀ r0, v = Ok r0 → keys_in P r0) values →
  foldl (λ acc value, a ← acc; v ← value; py_add a v) acc values = Ok r →
  keys_in P r.
Proof.
  intros Hacc Hall. revert acc Hacc.
  induction Hall as [|v vs Hv _ IH]; intros acc Hacc; simpl.
  - intros ->. by apply Hacc.
  - apply IH. intros r0 (a & -> & (b & -> & Hadd)%bind_Ok)%bind_Ok.
    eapply py_add_keys; [| |done]; eauto.
Qed.

Lemma py_sum_keys (rec : Expression → result (@pyobj K _ _))
    (children : list Expression) (r : @pyobj K _ _) :
  Forall (λ c, ∀ r, rec c = Ok r → keys_in P r) children →
  py_sum (rec <$> children) = Ok r →
  keys_in P r.
Proof.
  intros Hall. apply py_sum_from_keys.
  - by intros r0 [= <-].
  - by apply Forall_fmap.
Qed.
End keys.

(** ** ExpressionOpCounter on whole expressions *)

Lemma total_shift {A} (f : A → Z) (l : list A) :
  total ((λ c, 1 + f c) <$> l) = Z.of_nat (length l) + total (f <$> l).
Proof.
  unfold total. induction l as [|x l IH]; first done.
  cbn [fmap list_fmap foldr length] in *. rewrite IH. lia.
Qed.

Lemma total_op_count_filter (children : list Expression) :
  total (op_count <$> filter (λ c, ¬ is_zero_plus_one c) children)
  = total (op_count <$> children).
Proof.
  unfold total. induction children as [|c cs IH]; first done.
  rewrite filter_cons. destruct (decide (¬ is_zero_plus_one c)) as [|Hc];
    cbn [fmap list_fmap foldr] in *; rewrite IH; first done.
  destruct c; try (exfalso; apply Hc; intros []). cbn [op_count]. lia.
Qed.

Lemma Forall_filter_weaken {A} (P : A → Prop) (Q : A → Prop)
    `{∀ x, Decision (Q x)} (l : list A) :
  Forall P l → Forall P (filter Q l).
Proof.
  rewrite !Forall_forall. intros Hl x [_ Hx]%list_elem_of_filter. auto.
Qed.

Ltac invert_binds :=
  repeat match goal with
  | H : mbind _ _ = Ok _ |- _ =>
      let E := fresh "E" in
      apply bind_Ok in H as (? & E & H); cbv beta in H
  end.

Section ExpressionOpCounter_whole.
Variable type_inf : Expression → dtype.
Local Abbreviation rec := (ExpressionOpCounter.rec type_inf).

Lemma obj_units_ToCountMap1 (dt : dtype) (name : string) (n : Z) :
  obj_units (ExpressionOpCounter.ToCountMap1 dt name n) = Z2Qc n.
Proof. apply units_singleton. Qed.

Lemma product_units (children : list Expression) (r : @pyobj TypedOp _ _) :
  Forall (λ c, ∀ r, rec c = Ok r → obj_units r = Z2Qc (op_count c)) children →
  ExpressionOpCounter.map_product type_inf rec (Product children) children
  = Ok r →
  obj_units r = Z2Qc (op_count (Product children)).
Proof.
  intros Hall Hr. unfold ExpressionOpCounter.map_product in Hr.
  destruct children as [|c0 cs0] eqn:El; first done. rewrite <-El in *.
  rewrite product_terms in Hr. apply bind_Ok in Hr as (s & Hs & Hr).
  apply py_add_units in Hr.
  apply (py_sum_children _ (λ c, 1 + op_count c)) in Hs.
  - rewrite Hr, Hs, obj_units_ToCountMap1, total_shift, total_op_count_filter.
    rewrite <-Z2Qc_add. f_equal. cbn [op_count]. lia.
  - apply Forall_filter_weaken. eapply Forall_impl; first exact Hall.
    intros c Hc r' (rc & Hrc & Hadd)%bind_Ok. apply py_add_units in Hadd.
    rewrite Hadd, obj_units_ToCountMap1, (Hc _ Hrc). by rewrite Z2Qc_add.
Qed.

Lemma op_units_of (e : Expression) (r : @pyobj TypedOp _ _) :
  rec e = Ok r → obj_units r = Z2Qc (op_count e).
Proof.
  revert r. induction e as [e Hsub] using Expression_sub_ind. intros r Hr.
  destruct e; cbn [subexpressions] in Hsub;
    cbn [ExpressionOpCounter.rec op_count] in Hr |- *;
    unfold
      ExpressionOpCounter.map_constant, ExpressionOpCounter.map_call,
      ExpressionOpCounter.map_subscript, ExpressionOpCounter.combine,
      ExpressionOpCounter.map_floor_div, ExpressionOpCounter.map_remainder,
      ExpressionOpCounter.map_quotient, ExpressionOpCounter.map_power,
      ExpressionOpCounter.map_right_shift, ExpressionOpCounter.map_left_shift,
      ExpressionOpCounter.map_binary, ExpressionOpCounter.map_bitwise_not,
      ExpressionOpCounter.map_bitwise_xor, ExpressionOpCounter.map_bitwise_and,
      ExpressionOpCounter.map_bitwise_or, ExpressionOpCounter.map_comparison,
      ExpressionOpCounter.map_logical_not, ExpressionOpCounter.map_logical_and,
      ExpressionOpCounter.map_logical_or, ExpressionOpCounter.map_if_positive,
      ExpressionOpCounter.map_if, ExpressionOpCounter.map_max,
      ExpressionOpCounter.map_min, ExpressionOpCounter.map_sum,
      ExpressionOpCounter.map_common_subexpression,
      ExpressionOpCounter.map_substitution,
      ExpressionOpCounter.map_derivative, ExpressionOpCounter.map_slice in Hr;
    try discriminate Hr.
  all: try (injection Hr as <-; symmetry; apply Z2Qc_0).
  all: try (by apply product_units).
  all: repeat match goal with
       | H : Forall _ (_ :: _) |- _ =>
           apply Forall_cons in H as [? H]
       end.
  all: try match type of Hr with
       | match ?l with [] => _ | _ :: _ => _ end = _ =>
           destruct l as [|c0 cs0] eqn:El; first discriminate Hr;
           rewrite <-El in *
       end.
  all: invert_binds.
  all: repeat match goal with
       | H : py_sum (_ <$> _) = Ok _ |- _ =>
           apply (py_sum_children _ op_count) in H; last assumption
       | H : py_add _ _ = Ok _ |- _ => apply py_add_units in H
       | H : rec ?c = Ok _, IH : ∀ r, rec ?c = Ok r → _ |- _ =>
           apply IH in H
       end.
  all: try (repeat match goal with
       | H : obj_units _ = _ |- _ => rewrite H; clear H
       end;
       rewrite ?obj_units_ToCountMap1, <-?Z2Qc_add; f_equal;
       rewrite ?El; cbn [length]; lia).
Qed.

Lemma outcome_plus_unit (dt : dtype) (name : string) (n : Z) (bad : bool)
    (r : result (@pyobj TypedOp _ _)) :
  outcome bad r →
  outcome bad (x ← r; py_add (ExpressionOpCounter.ToCountMap1 dt name n) x).
Proof.
  destruct bad; cbn [outcome].
  - by intros ->.
  - intros (m & -> & Hm). eexists. split; first done.
    apply int_valued_add; [apply int_valued_singleton | done].
Qed.

Lemma outcome_plus (bad1 bad2 : bool) (r1 r2 : result (@pyobj TypedOp _ _)) :
  outcome bad1 r1 → outcome bad2 r2 →
  outcome (bad1 || bad2) (x ← r1; y ← r2; py_add x y).
Proof.
  destruct bad1; cbn [outcome orb].
  - by intros ->.
  - intros (m1 & -> & Hm1). destruct bad2; cbn [outcome].
    + by intros ->.
    + intros (m2 & -> & Hm2). eexists. split; first done.
      by apply int_valued_add.
Qed.

Lemma outcome_sum (F : Expression → result (@pyobj TypedOp _ _))
    (bad : Expression → bool) (children : list Expression) :
  children ≠ [] →
  Forall (λ c, outcome (bad c) (F c)) children →
  outcome (existsb bad children) (py_sum (F <$> children)).
Proof.
  intros Hne Hall. destruct (existsb bad children) eqn:Hex; cbn [outcome].
  - apply py_sum_raises.
    + apply Forall_fmap. eapply Forall_impl; first exact Hall.
      intros c Hc. unfold compose. cbv beta in Hc.
      destruct (bad c); cbn [outcome] in Hc;
        [by right | left; destruct Hc as (m & -> & _); by eexists].
    + apply Exists_fmap. apply existsb_exists in Hex as (c & Hin & Hc).
      apply Exists_exists. exists c. split; first by apply list_elem_of_In.
      unfold compose. pose proof (proj1 (Forall_forall _ _) Hall c) as Hc'.
      cbv beta in Hc'. rewrite Hc in Hc'. apply Hc'. by apply list_elem_of_In.
  - assert (Hms : ∃ ms, F <$> children = (λ m, Ok (PyCountMap m)) <$> ms
                   ∧ Forall int_valued ms).
    { clear Hne. induction Hall as [|c cs Hc _ IH]; first by exists [].
      cbn [existsb] in Hex. apply orb_false_iff in Hex as [Hbc Hcs].
      cbv beta in Hc. rewrite Hbc in Hc. destruct Hc as (m & Hm & Hint).
      destruct (IH Hcs) as (ms & Hms & Hints).
      exists (m :: ms). rewrite !fmap_cons, Hm, Hms. by split; [|constructor]. }
    destruct Hms as (ms & Hms & Hints). rewrite Hms, py_sum_maps.
    destruct ms as [|m ms]; first by destruct children.
    eexists. split; first done. by apply int_valued_sum_maps.
Qed.

Lemma outcome_binary (dt : dtype) (kind : string) (bad1 bad2 : bool)
    (r1 r2 : result (@pyobj TypedOp _ _)) :
  outcome bad1 r1 → outcome bad2 r2 →
  outcome (bad1 || bad2)
    (ra ← r1; s ← py_add (ExpressionOpCounter.ToCountMap1 dt kind 1) ra;
     rb ← r2; py_add s rb).
Proof.
  destruct bad1; cbn [outcome orb].
  - by intros ->.
  - intros (m1 & -> & Hm1). destruct bad2; cbn [outcome].
    + by intros ->.
    + intros (m2 & -> & Hm2). eexists. split; first done.
      apply int_valued_add; last done.
      apply int_valued_add; [apply int_valued_singleton | done].
Qed.

Lemma outcome_if (bad1 bad2 bad3 : bool)
    (r1 r2 r3 : result (@pyobj TypedOp _ _)) :
  outcome bad1 r1 → outcome bad2 r2 → outcome bad3 r3 →
  outcome (bad1 || bad2 || bad3)
    (ra ← r1; rb ← r2; s ← py_add ra rb; rc ← r3; py_add s rc).
Proof.
  destruct bad1; cbn [outcome orb].
  - by intros ->.
  - intros (m1 & -> & Hm1). destruct bad2; cbn [outcome orb].
    + by intros ->.
    + intros (m2 & -> & Hm2). destruct bad3; cbn [outcome].
      * by intros ->.
      * intros (m3 & -> & Hm3). eexists. split; first done.
        by repeat apply int_valued_add.
Qed.

Lemma existsb_visits_filter (children : list Expression) :
  existsb visits_unsupported
    (filter (λ c, ¬ is_zero_plus_one c) children)
  = existsb visits_unsupported children.
Proof.
  induction children as [|c cs IH]; first done.
  rewrite filter_cons. destruct (decide (¬ is_zero_plus_one c)) as [|Hc];
    cbn [existsb]; rewrite IH; first done.
  destruct c; try (exfalso; apply Hc; intros []). done.
Qed.

Lemma outcome_product (children : list Expression) :
  children ≠ [] →
  Forall (λ c, outcome (visits_unsupported c) (rec c)) children →
  outcome (existsb visits_unsupported children)
    (ExpressionOpCounter.map_product type_inf rec (Product children) children).
Proof.
  intros Hne Hall. unfold ExpressionOpCounter.map_product.
  destruct children as [|c0 cs0] eqn:El; first done. rewrite <-El in *.
  rewrite product_terms, <-existsb_visits_filter.
  set (p := λ c : Expression, ¬ is_zero_plus_one c).
  set (F := λ child : Expression, _ ≫= _).
  destruct (filter p children) as [|c1 cs1] eqn:Ef.
  { eexists. split; first done. apply int_valued_singleton. }
  rewrite <-Ef.
  assert (Hsum : outcome (existsb visits_unsupported (filter p children))
                   (py_sum (F <$> filter p children))).
  { apply outcome_sum; first by rewrite Ef.
    apply Forall_filter_weaken. eapply Forall_impl; first exact Hall.
    intros c Hc. cbv beta in Hc. subst F. cbv beta.
    by apply outcome_plus_unit. }
  destruct (existsb visits_unsupported _); cbn [outcome] in Hsum |- *.
  - by rewrite Hsum.
  - destruct Hsum as (m & -> & Hm). eexists. split; first done.
    apply int_valued_add; [done | apply int_valued_singleton].
Qed.

Lemma op_outcome_of (e : Expression) :
  nonempty_operands e = true → outcome (visits_unsupported e) (rec e).
Proof.
  induction e as [e Hsub] using Expression_sub_ind. intros Hne.
  assert (Hlist : ∀ children,
    Forall (λ c, nonempty_operands c = true
                 → outcome (visits_unsupported c) (rec c)) children →
    bool_decide (children ≠ []) && forallb nonempty_operands children = true →
    children ≠ []
    ∧ Forall (λ c, outcome (visits_unsupported c) (rec c)) children).
  { intros children Hall [Hnil Hch]%andb_prop.
    split; first by apply bool_decide_eq_true in Hnil.
    rewrite forallb_forall in Hch. rewrite Forall_forall in Hall |- *.
    intros c Hc. apply Hall; first done. by apply Hch, list_elem_of_In. }
  destruct e; cbn [subexpressions] in Hsub;
    cbn [nonempty_operands visits_unsupported ExpressionOpCounter.rec]
      in Hne |- *;
    unfold
      ExpressionOpCounter.map_constant, ExpressionOpCounter.map_call,
      ExpressionOpCounter.map_subscript, ExpressionOpCounter.combine,
      ExpressionOpCounter.map_floor_div, ExpressionOpCounter.map_remainder,
      ExpressionOpCounter.map_quotient, ExpressionOpCounter.map_power,
      ExpressionOpCounter.map_right_shift, ExpressionOpCounter.map_left_shift,
      ExpressionOpCounter.map_binary, ExpressionOpCounter.map_bitwise_not,
      ExpressionOpCounter.map_bitwise_xor, ExpressionOpCounter.map_bitwise_and,
      ExpressionOpCounter.map_bitwise_or, ExpressionOpCounter.map_comparison,
      ExpressionOpCounter.map_logical_not, ExpressionOpCounter.map_logical_and,
      ExpressionOpCounter.map_logical_or, ExpressionOpCounter.map_if_positive,
      ExpressionOpCounter.map_if, ExpressionOpCounter.map_max,
      ExpressionOpCounter.map_min, ExpressionOpCounter.map_sum,
      ExpressionOpCounter.map_common_subexpression,
      ExpressionOpCounter.map_substitution,
      ExpressionOpCounter.map_derivative, ExpressionOpCounter.map_slice.
  all: try done.
  all: try (exists ∅; split; [done | apply int_valued_empty]).
  all: try (destruct (Hlist _ Hsub Hne) as [Hnil Hall]; clear Hlist).
  all: repeat match goal with
       | H : Forall _ (_ :: _) |- _ => apply Forall_cons in H as [? H]
       end.
  all: repeat match goal with
       | H : _ && _ = true |- _ => apply andb_prop in H as [? ?]
       end.
  all: try match goal with
       | |- outcome _ (match ?l with [] => _ | _ :: _ => _ end) =>
           destruct l as [|c0 cs0] eqn:El; first done; rewrite <-El in *
       end.
  all: try (apply outcome_plus_unit; by apply outcome_sum).
  all: try (by apply outcome_sum).
  all: try (by auto using outcome_plus_unit).
  all: try (by auto using outcome_plus).
  all: try (by apply outcome_product).
  all: try (by auto using outcome_binary).
  all: by auto using outcome_if.
Qed.
End ExpressionOpCounter_whole.

(** X4. Whatever the operation counter returns for an expression holds,
    over all its keys, as many units as the expression has operations. *)
Theorem op_units (type_inf : Expression → dtype) (e : Expression)
    (r : @pyobj TypedOp _ _) :
  ExpressionOpCounter.rec type_inf e = Ok r →
  obj_units r = Z2Qc (op_count e).
Proof. exact (op_units_of type_inf e r). Qed.

(** X5. On an expression in which every node the operation counter visits
    has an operand, the counter raises [NotImplementedError] when it
    visits a common subexpression, a substitution, a derivative or a
    slice, and returns a count map whose values are integers otherwise. *)
Theorem op_counter_outcome (type_inf : Expression → dtype) (e : Expression) :
  nonempty_operands e = true →
  if visits_unsupported e
  then ExpressionOpCounter.rec type_inf e = Raise NotImplementedError
  else ∃ m, ExpressionOpCounter.rec type_inf e = Ok (PyCountMap m)
            ∧ int_valued m.
Proof. exact (op_outcome_of type_inf e). Qed.

Lemma op_units_witness :
  ∃ r, ExpressionOpCounter.rec (λ _, "float32")
         (Quotient (Var "a") (Sum [Var "b"; Var "c"])) = Ok r
       ∧ obj_units r
         = Z2Qc (op_count (Quotient (Var "a") (Sum [Var "b"; Var "c"]))).
Proof.
  eexists. split; first reflexivity.
  apply (op_units (λ _, "float32")
           (Quotient (Var "a") (Sum [Var "b"; Var "c"]))).
  reflexivity.
Defined.

Lemma op_counter_outcome_witness :
  ExpressionOpCounter.rec (λ _, "float32")
    (Sum [Var "a"; Power (Var "b") (Slice [])])
  = Raise NotImplementedError.
Proof.
  exact (op_counter_outcome (λ _, "float32")
           (Sum [Var "a"; Power (Var "b") (Slice [])]) eq_refl).
Defined.

(** ** Expressions made of additions *)

Section additions.
Variable type_inf : Expression → dtype.

Local Abbreviation rec := (ExpressionOpCounter.rec type_inf).

Lemma value_getitem_add (a b : gmap TypedOp num) (key : TypedOp) :
  num_value (__getitem__ (__add__ a b) key)
  = (num_value (__getitem__ a key) + num_value (__getitem__ b key))%Qc.
Proof.
  unfold __getitem__. rewrite lookup_add.
  destruct (a !! key) as [x|], (b !! key) as [y|];
    cbn [default from_option id];
    rewrite ?num_value_add; cbn [num_value]; rewrite ?Z2Qc_0; ring.
Qed.

Lemma value_getitem_empty (key : TypedOp) :
  num_value (__getitem__ (∅ : gmap TypedOp num) key) = Z2Qc 0.
Proof. unfold __getitem__. by rewrite lookup_empty, Z2Qc_0. Qed.

Lemma value_getitem_singleton (key' key : TypedOp) (n : Z) :
  num_value (__getitem__ ({[ key' := PyInt n ]} : gmap TypedOp num) key)
  = Z2Qc (if decide (key' = key) then n else 0).
Proof.
  unfold __getitem__. destruct (decide (key' = key)) as [->|Hne].
  - by rewrite lookup_singleton_eq.
  - by rewrite lookup_singleton_ne, Z2Qc_0.
Qed.

(** Reading a key of the sum of the maps of the children. *)
Lemma value_getitem_children (key : TypedOp) (f : Expression → Z)
    (children : list Expression) (ms : list (gmap TypedOp num)) :
  Forall2 (λ child m, num_value (__getitem__ m key) = Z2Qc (f child))
    children ms →
  num_value (__getitem__ (sum_maps ms) key)
  = Z2Qc (foldr Z.add 0 (f <$> children)).
Proof.
  induction 1 as [|child m children ms Hm _ IH].
  { apply value_getitem_empty. }
  cbn [sum_maps foldr fmap list_fmap]. fold (sum_maps ms).
  by rewrite value_getitem_add, Hm, IH, Z2Qc_add.
Qed.

(** The counter returns on an expression made of additions, and what it
    returns reads, at each key, as the additions counted at that key. *)
Lemma additions_getitem (e : Expression) :
  additions_only e = true →
  ∃ m, rec e = Ok (PyCountMap m)
    ∧ ∀ key, num_value (__getitem__ m key) = Z2Qc (adds_at type_inf key e).
Proof.
  induction e as [e Hsub] using Expression_sub_ind. intros He.
  destruct e; try discriminate He.
  1-3: exists ∅; split; [done | intros key; apply value_getitem_empty].
  cbn [subexpressions] in Hsub. cbn [additions_only] in He.
  assert (Hne : children ≠ []) by (by destruct children).
  assert (Hall : forallb additions_only children = true) by (by destruct children).
  clear He.
  assert (Hms : ∃ ms, op_counts type_inf children ms
    ∧ ∀ key, Forall2 (λ child m,
        num_value (__getitem__ m key) = Z2Qc (adds_at type_inf key child))
        children ms).
  { clear Hne. induction children as [|c cs IH].
    { exists []. split; [by apply Forall2_nil | intros key; by apply Forall2_nil]. }
    cbn [forallb] in Hall. apply andb_prop in Hall as [Hc Hcs].
    apply Forall_cons in Hsub as [Hsubc Hsubcs].
    destruct (Hsubc Hc) as (m & Hm & Hkeys).
    destruct (IH Hsubcs Hcs) as (ms & Hms & Hkeyss).
    exists (m :: ms). split; first by apply Forall2_cons.
    intros key. by apply Forall2_cons. }
  destruct Hms as (ms & Hms & Hkeys).
  destruct (map_sum_node type_inf children Hne) as [Hnode _].
  eexists. split; first exact (Hnode ms Hms).
  intros key. cbn [adds_at].
  rewrite value_getitem_add, value_getitem_singleton.
  rewrite (value_getitem_children key _ children ms (Hkeys key)).
  by rewrite <-Z2Qc_add.
Qed.

(** No addition is counted at a key of another kind. *)
Lemma adds_at_other_kind (key : TypedOp) (e : Expression) :
  op_name key ≠ "add" → adds_at type_inf key e = 0.
Proof.
  intros Hkey. induction e as [e Hsub] using Expression_sub_ind.
  destruct e; try done. cbn [subexpressions] in Hsub. cbn [adds_at].
  rewrite decide_False by (intros <-; by apply Hkey).
  induction Hsub as [|c cs Hc _ IH]; first done.
  cbn [fmap list_fmap foldr] in *. rewrite Hc. lia.
Qed.

(** There is one addition less than there are leaves. *)
Lemma op_count_additions (e : Expression) :
  additions_only e = true → op_count e = leaves e - 1.
Proof.
  induction e as [e Hsub] using Expression_sub_ind. intros He.
  destruct e; try discriminate He; try done.
  cbn [subexpressions] in Hsub. cbn [additions_only] in He.
  assert (Hall : forallb additions_only children = true) by (by destruct children).
  clear He. cbn [op_count leaves]. unfold total.
  assert (Hl : foldr Z.add 0 (op_count <$> children)
    = foldr Z.add 0 (leaves <$> children) - Z.of_nat (length children)).
  { induction children as [|c cs IH]; first done.
    cbn [forallb] in Hall. apply andb_prop in Hall as [Hc Hcs].
    apply Forall_cons in Hsub as [Hsubc Hsubcs].
    cbn [fmap list_fmap foldr length].
    rewrite (Hsubc Hc), (IH Hsubcs Hcs). lia. }
  rewrite Hl. lia.
Qed.

(** When every sum node has the type [dt], all the additions are counted
    at the key of that type. *)
Lemma adds_at_typed (dt : dtype) (key : TypedOp) (e : Expression) :
  additions_only e = true →
  sums_typed type_inf dt e = true →
  adds_at type_inf key e
  = if decide (key = mkTypedOp dt "add") then leaves e - 1 else 0.
Proof.
  induction e as [e Hsub] using Expression_sub_ind. intros He Ht.
  destruct e; try discriminate He; try (by destruct (decide _)).
  cbn [subexpressions] in Hsub. cbn [additions_only] in He.
  assert (Hall : forallb additions_only children = true) by (by destruct children).
  assert (Hne : children ≠ []) by (by destruct children).
  clear He. cbn [sums_typed] in Ht. apply andb_prop in Ht as [Hdt Hts].
  apply bool_decide_eq_true in Hdt.
  cbn [adds_at leaves]. rewrite Hdt.
  assert (Hl : foldr Z.add 0 (adds_at type_inf key <$> children)
    = if decide (key = mkTypedOp dt "add")
      then foldr Z.add 0 (leaves <$> children) - Z.of_nat (length children) else 0).
  { clear Hne Hdt. revert Hsub Hall Hts.
    induction children as [|c cs IH]; intros Hsub Hall Hts;
      first by destruct (decide _).
    cbn [forallb] in Hall, Hts.
    apply andb_prop in Hall as [Hc Hcs]. apply andb_prop in Hts as [Htc Htcs].
    apply Forall_cons in Hsub as [Hsubc Hsubcs].
    cbn [fmap list_fmap foldr length].
    rewrite (Hsubc Hc Htc), (IH Hsubcs Hcs Htcs), Nat2Z.inj_succ.
    destruct (decide (key = mkTypedOp dt "add")); lia. }
  rewrite Hl.
  destruct (decide (mkTypedOp dt "add" = key)) as [<-|Hne'].
  - rewrite !decide_True by done. lia.
  - rewrite !decide_False by (by intros ->). done.
Qed.

(** C2, as the code has it.  A sum node with [n] operands, each counted
    as a map, is counted as [n - 1] units of ['add'] at the type
    inferred for the node, plus the counts of the operands.  On an
    expression made only of additions of [k] leaves, every sum node with
    at least one operand, the counter returns a map that holds, at the
    key of a type and ['add'], the additions of the sum nodes inferred to
    have that type, and nothing at a key of another kind; its values add
    up to [k - 1]; and when every sum node is inferred to have the type
    of the expression, as when there is a single sum node, all [k - 1]
    units are at the key of that type. *)
Theorem additions_counts :
  (∀ (children : list Expression) (ms : list (gmap TypedOp num)),
     children ≠ [] →
     op_counts type_inf children ms →
     rec (Sum children)
     = Ok (PyCountMap
             (__add__
                {[ mkTypedOp (type_inf (Sum children)) "add"
                   := PyInt (Z.of_nat (length children) - 1) ]}
                (sum_maps ms))))
  ∧ ∀ e : Expression,
      additions_only e = true →
      ∃ m, rec e = Ok (PyCountMap m)
        ∧ (∀ key,
             num_value (__getitem__ m key) = Z2Qc (adds_at type_inf key e))
        ∧ (∀ key, op_name key ≠ "add" →
             num_value (__getitem__ m key) = 0%Qc)
        ∧ units m = Z2Qc (leaves e - 1)
        ∧ (sums_typed type_inf (type_inf e) e = true →
           ∀ key,
             num_value (__getitem__ m key)
             = Z2Qc (if decide (key = mkTypedOp (type_inf e) "add")
                     then leaves e - 1 else 0)).
Proof.
  split.
  - intros children ms Hne Hms.
    destruct (map_sum_node type_inf children Hne) as [Hnode _].
    exact (Hnode ms Hms).
  - intros e He. destruct (additions_getitem e He) as (m & Hm & Hkeys).
    exists m. split_and!; try done.
    + intros key Hkey.
      by rewrite Hkeys, adds_at_other_kind, Z2Qc_0.
    + rewrite <-(op_count_additions e He).
      exact (op_units_of type_inf e (PyCountMap m) Hm).
    + intros Ht key. by rewrite Hkeys, (adds_at_typed (type_inf e)).
Qed.
End additions.

Lemma additions_counts_witness :
  ∃ m,
    ExpressionOpCounter.rec (λ _, "float32")
      (Sum [Sum [Var "a"; Var "b"]; Constant 3]) = Ok (PyCountMap m)
    ∧ num_value (__getitem__ m (mkTypedOp "float32" "add")) = Z2Qc 2
    ∧ units m = Z2Qc 2.
Proof.
  destruct (additions_counts (λ _, "float32")) as [_ Hsum].
  destruct (Hsum (Sum [Sum [Var "a"; Var "b"]; Constant 3]) eq_refl)
    as (m & Hm & _ & _ & Hunits & Htyped).
  exists m. split_and!; [exact Hm | | exact Hunits].
  exact (Htyped eq_refl (mkTypedOp "float32" "add")).
Defined.

(** C2, counterexample.  In [(i + j) + x], where the sum of the two
    indices is inferred to be an integer and the whole a float, the
    counter returns one ['add'] unit at each of the two types: at the
    type of the expression there is 1 unit, not the 2 of the three
    operands. *)
Lemma nested_sum_mixed_types :
  let type_inf (e : Expression) : dtype :=
    match e with
    | Sum [Var "i"; Var "j"] => "int32"
    | _ => "float32"
    end in
  let e := Sum [Sum [Var "i"; Var "j"]; Var "x"] in
  additions_only e = true
  ∧ leaves e = 3
  ∧ type_inf e = "float32"
  ∧ ∃ m, ExpressionOpCounter.rec type_inf e = Ok (PyCountMap m)
      ∧ map_to_list m
        = [ (mkTypedOp "int32" "add", PyInt 1);
            (mkTypedOp "float32" "add", PyInt 1) ]
      ∧ __getitem__ m (mkTypedOp (type_inf e) "add") = PyInt 1
      ∧ __getitem__ m (mkTypedOp (type_inf e) "add") ≠ PyInt (leaves e - 1).
Proof.
  intros type_inf e. split_and!; try reflexivity.
  exists ({[ mkTypedOp "int32" "add" := PyInt 1;
             mkTypedOp "float32" "add" := PyInt 1 ]}).
  split_and!.
  - apply Ok_count_map_by_items. vm_compute. reflexivity.
  - vm_compute. reflexivity.
  - reflexivity.
  - intros [=].
Qed.

(** ** The subscript counters on whole expressions *)

Ltac split_Forall :=
  repeat match goal with
  | H : Forall _ (_ :: _) |- _ => apply Forall_cons in H as [? H]
  end.

Ltac units_of_parts f :=
  invert_binds;
  repeat match goal with
  | H : py_sum (_ <$> _) = Ok _ |- _ =>
      apply (py_sum_children _ f) in H; last assumption
  | H : py_add _ _ = Ok _ |- _ => apply py_add_units in H
  | H : ?rec ?c = Ok _, IH : ∀ r, ?rec ?c = Ok r → _ |- _ => apply IH in H
  end;
  repeat match goal with
  | H : obj_units _ = _ |- _ => rewrite H; clear H
  end.

Ltac keys_of_parts :=
  invert_binds;
  repeat match goal with
  | H : py_sum (_ <$> _) = Ok _ |- _ =>
      eapply py_sum_keys in H; last eassumption
  | H : ?rec ?c = Ok _, IH : ∀ r, ?rec ?c = Ok r → _ |- _ => apply IH in H
  end;
  repeat match goal with
  | H : py_add _ _ = Ok ?r |- keys_in _ ?r =>
      eapply py_add_keys; [| |exact H]; clear H
  end;
  try assumption.

Section LocalSubscriptCounter_whole.
Variable temporary_variables : gmap string TemporaryVariable.
Variable type_inf : Expression → dtype.
Local Abbreviation rec :=
  (LocalSubscriptCounter.rec temporary_variables type_inf).
Local Abbreviation counted := (in_local_memory temporary_variables).

Ltac unfold_local H :=
  unfold
    LocalSubscriptCounter.map_constant, LocalSubscriptCounter.map_call,
    LocalSubscriptCounter.map_product, LocalSubscriptCounter.map_sum,
    LocalSubscriptCounter.combine,
    LocalSubscriptCounter.map_floor_div, LocalSubscriptCounter.map_remainder,
    LocalSubscriptCounter.map_power, LocalSubscriptCounter.map_right_shift,
    LocalSubscriptCounter.map_left_shift, LocalSubscriptCounter.map_comparison,
    LocalSubscriptCounter.map_quotient,
    LocalSubscriptCounter.map_logical_not,
    LocalSubscriptCounter.map_bitwise_not,
    LocalSubscriptCounter.map_max, LocalSubscriptCounter.map_min,
    LocalSubscriptCounter.map_logical_and, LocalSubscriptCounter.map_logical_or,
    LocalSubscriptCounter.map_bitwise_xor, LocalSubscriptCounter.map_bitwise_and,
    LocalSubscriptCounter.map_bitwise_or,
    LocalSubscriptCounter.map_if_positive, LocalSubscriptCounter.map_if,
    LocalSubscriptCounter.map_common_subexpression,
    LocalSubscriptCounter.map_substitution,
    LocalSubscriptCounter.map_derivative, LocalSubscriptCounter.map_slice in H.

Lemma local_units_of (e : Expression) (r : @pyobj LmemAccess _ _) :
  rec e = Ok r → obj_units r = Z2Qc (subscripts counted e).
Proof.
  revert r. induction e as [e Hsub] using Expression_sub_ind. intros r Hr.
  destruct e; cbn [subexpressions] in Hsub;
    cbn [LocalSubscriptCounter.rec subscripts] in Hr |- *;
    unfold_local Hr; try discriminate Hr.
  all: try (injection Hr as <-; symmetry; apply Z2Qc_0).
  all: split_Forall.
  all: try match type of Hr with
       | match ?l with [] => _ | _ :: _ => _ end = _ =>
           destruct l as [|c0 cs0] eqn:El;
           [injection Hr as <-; symmetry; apply Z2Qc_0 | rewrite <-El in *]
       end.
  all: try (units_of_parts (subscripts counted);
            rewrite <-?Z2Qc_add; f_equal; lia).
  (* the subscript *)
  unfold LocalSubscriptCounter.map_subscript in Hr.
  apply bind_Ok in Hr as (name & Hname & Hr).
  destruct e1; try discriminate Hname; injection Hname as ->.
  all: unfold in_local_memory.
  all: destruct (temporary_variables !! name) as [array|];
    [destruct (is_local array)|].
  all: units_of_parts (subscripts counted).
  all: rewrite ?(units_singleton _ _ : obj_units
         (LocalSubscriptCounter.ToCountMap1 _) = _); cbn [num_value].
  all: rewrite <-?Z2Qc_add; f_equal; lia.
Qed.

Lemma local_keys_of (e : Expression) (r : @pyobj LmemAccess _ _) :
  rec e = Ok r → keys_in (λ k, lmem_direction k = None) r.
Proof.
  revert r. induction e as [e Hsub] using Expression_sub_ind. intros r Hr.
  destruct e; cbn [subexpressions] in Hsub;
    cbn [LocalSubscriptCounter.rec] in Hr;
    unfold_local Hr; try discriminate Hr.
  all: try (injection Hr as <-; intros k v; by rewrite lookup_empty).
  all: split_Forall.
  all: try match type of Hr with
       | match ?l with [] => _ | _ :: _ => _ end = _ =>
           destruct l as [|c0 cs0] eqn:El;
           [injection Hr as <-; intros k v; by rewrite lookup_empty
           | rewrite <-El in *]
       end.
  all: try (by keys_of_parts).
  unfold LocalSubscriptCounter.map_subscript in Hr.
  apply bind_Ok in Hr as (name & Hname & Hr).
  destruct (temporary_variables !! name) as [array|];
    [destruct (is_local array)|].
  all: keys_of_parts.
  intros k v [<- _]%lookup_singleton_Some. done.
Qed.
End LocalSubscriptCounter_whole.

Section GlobalSubscriptCounter_whole.
Variable knl : LoopKernel.
Variable type_inf : Expression → dtype.
Variable get_dependencies : list Expression → gset string.
Variable CoefficientCollector : Expression → result (gmap string Z).
Local Abbreviation rec :=
  (GlobalSubscriptCounter.rec knl type_inf get_dependencies
     CoefficientCollector).
Local Abbreviation counted := (in_global_memory knl).

Ltac unfold_global H :=
  unfold
    GlobalSubscriptCounter.map_constant, GlobalSubscriptCounter.map_call,
    GlobalSubscriptCounter.map_product, GlobalSubscriptCounter.map_sum,
    GlobalSubscriptCounter.combine,
    GlobalSubscriptCounter.map_floor_div, GlobalSubscriptCounter.map_remainder,
    GlobalSubscriptCounter.map_power, GlobalSubscriptCounter.map_right_shift,
    GlobalSubscriptCounter.map_left_shift,
    GlobalSubscriptCounter.map_comparison,
    GlobalSubscriptCounter.map_quotient,
    GlobalSubscriptCounter.map_logical_not,
    GlobalSubscriptCounter.map_bitwise_not,
    GlobalSubscriptCounter.map_max, GlobalSubscriptCounter.map_min,
    GlobalSubscriptCounter.map_logical_and,
    GlobalSubscriptCounter.map_logical_or,
    GlobalSubscriptCounter.map_bitwise_xor,
    GlobalSubscriptCounter.map_bitwise_and,
    GlobalSubscriptCounter.map_bitwise_or,
    GlobalSubscriptCounter.map_if_positive, GlobalSubscriptCounter.map_if,
    GlobalSubscriptCounter.map_common_subexpression,
    GlobalSubscriptCounter.map_substitution,
    GlobalSubscriptCounter.map_derivative, GlobalSubscriptCounter.map_slice
    in H.

(** The subscript method: either the count of the index, or one unit at a
    key without direction added to it. *)
Lemma map_subscript_cases (expr aggregate index : Expression)
    (r : @pyobj StridedGmemAccess _ _) :
  GlobalSubscriptCounter.map_subscript knl type_inf get_dependencies
    CoefficientCollector rec expr aggregate index = Ok r →
  ∃ name, aggregate_name aggregate = Ok name
    ∧ if counted name
      then ∃ stride ri, rec index = Ok ri
             ∧ py_add (GlobalSubscriptCounter.ToCountMap1 (type_inf expr)
                         stride name) ri = Ok r
      else rec index = Ok r.
Proof.
  unfold GlobalSubscriptCounter.map_subscript. intros Hr.
  apply bind_Ok in Hr as (name & Hname & Hr). exists name.
  split; first done. unfold in_global_memory.
  destruct (arg_dict knl !! name) as [[dim_tags| | |]|]; try done.
  destruct (GlobalSubscriptCounter.find_min_tag_axis knl _)
    as [local_id_found min_tag_axis].
  destruct (negb local_id_found).
  - apply bind_Ok in Hr as (ri & Hri & Hr). eauto.
  - apply bind_Ok in Hr as (total_stride & _ & Hr).
    destruct (bool_decide _); apply bind_Ok in Hr as (ri & Hri & Hr); eauto.
Qed.

Lemma global_units_of (e : Expression) (r : @pyobj StridedGmemAccess _ _) :
  rec e = Ok r → obj_units r = Z2Qc (subscripts counted e).
Proof.
  revert r. induction e as [e Hsub] using Expression_sub_ind. intros r Hr.
  destruct e; cbn [subexpressions] in Hsub;
    cbn [GlobalSubscriptCounter.rec subscripts] in Hr |- *;
    unfold_global Hr; try discriminate Hr.
  all: try (injection Hr as <-; symmetry; apply Z2Qc_0).
  all: split_Forall.
  all: try match type of Hr with
       | match ?l with [] => _ | _ :: _ => _ end = _ =>
           destruct l as [|c0 cs0] eqn:El;
           [injection Hr as <-; symmetry; apply Z2Qc_0 | rewrite <-El in *]
       end.
  all: try (units_of_parts (subscripts counted);
            rewrite <-?Z2Qc_add; f_equal; lia).
  apply map_subscript_cases in Hr as (name & Hname & Hr).
  destruct e1; try discriminate Hname; injection Hname as ->.
  all: destruct (counted name); [destruct Hr as (stride & ri & Hri & Hr)|].
  all: units_of_parts (subscripts counted).
  all: rewrite ?(units_singleton _ _ : obj_units
         (GlobalSubscriptCounter.ToCountMap1 _ _ _) = _); cbn [num_value].
  all: rewrite <-?Z2Qc_add; f_equal; lia.
Qed.

Lemma global_keys_of (e : Expression) (r : @pyobj StridedGmemAccess _ _) :
  rec e = Ok r →
  keys_in (λ k, gmem_direction k = None ∧ counted (gmem_variable k) = true) r.
Proof.
  revert r. induction e as [e Hsub] using Expression_sub_ind. intros r Hr.
  destruct e; cbn [subexpressions] in Hsub;
    cbn [GlobalSubscriptCounter.rec] in Hr;
    unfold_global Hr; try discriminate Hr.
  all: try (injection Hr as <-; intros k v; by rewrite lookup_empty).
  all: split_Forall.
  all: try match type of Hr with
       | match ?l with [] => _ | _ :: _ => _ end = _ =>
           destruct l as [|c0 cs0] eqn:El;
           [injection Hr as <-; intros k v; by rewrite lookup_empty
           | rewrite <-El in *]
       end.
  all: try (by keys_of_parts).
  apply map_subscript_cases in Hr as (name & Hname & Hr).
  destruct (counted name) eqn:Hc; [destruct Hr as (stride & ri & Hri & Hr)|].
  all: keys_of_parts.
  intros k v [<- _]%lookup_singleton_Some. done.
Qed.
End GlobalSubscriptCounter_whole.

(** X6. Whatever the local subscript counter returns for an expression
    holds, over all its keys, as many units as the expression has
    subscripts into temporaries in local memory, the subscripts inside an
    index included. *)
Theorem local_units (temporary_variables : gmap string TemporaryVariable)
    (type_inf : Expression → dtype) (e : Expression)
    (r : @pyobj LmemAccess _ _) :
  LocalSubscriptCounter.rec temporary_variables type_inf e = Ok r →
  obj_units r = Z2Qc (subscripts (in_local_memory temporary_variables) e).
Proof. exact (local_units_of temporary_variables type_inf e r). Qed.

(** X7. Whatever the global subscript counter returns for an expression
    holds, over all its keys, as many units as the expression has
    subscripts into global arguments of the kernel, whatever stride each
    is given. *)
Theorem global_units (knl : LoopKernel) (type_inf : Expression → dtype)
    (get_dependencies : list Expression → gset string)
    (CoefficientCollector : Expression → result (gmap string Z))
    (e : Expression)
    (r : @pyobj StridedGmemAccess _ _) :
  GlobalSubscriptCounter.rec knl type_inf get_dependencies
    CoefficientCollector e = Ok r →
  obj_units r = Z2Qc (subscripts (in_global_memory knl) e).
Proof.
  exact (global_units_of knl type_inf get_dependencies CoefficientCollector
           e r).
Qed.

(** ** Renaming the keys of a dictionary in place *)

Section renaming.
Context {K : Type} `{Countable K}.
Variable f : K → K.
Implicit Types (d m : gmap K num) (l : list (K * num)).

(** The loop [for key in d: d[f(key)] = d.pop(key)] over given keys. *)
Local Abbreviation rename_loop := (foldl (λ (acc : result (gmap K num)) key,
    d ← acc;
    match d !! key with
    | Some v => Ok (<[f key := v]> (delete key d))
    | None => Raise KeyError
    end)).

Lemma rename_loop_spec l m :
  NoDup l.*1 →
  (∀ k1 k2, k1 ∈ l.*1 → k2 ∈ l.*1 → f k1 = f k2 → k1 = k2) →
  (∀ k, k ∈ l.*1 → f k ∉ l.*1) →
  (∀ k, k ∈ l.*1 → m !! k = None ∧ m !! f k = None) →
  rename_loop (Ok (list_to_map l ∪ m)) l.*1
  = Ok (list_to_map (prod_map f id <$> l) ∪ m).
Proof.
  revert m. induction l as [|[k v] l IH]; intros m Hnd Hinj Hfresh Hm.
  { done. }
  rewrite !fmap_cons in *. cbn [prod_map id fst snd foldl] in *.
  rewrite !list_to_map_cons.
  apply NoDup_cons in Hnd as [Hk Hnd].
  assert (Hlk : (list_to_map l : gmap K num) !! k = None)
    by (by apply not_elem_of_list_to_map_1).
  assert (Hfk : f k ∉ l.*1).
  { intros Hin. apply (Hfresh k); [left | by right]. }
  assert (Hlfk : (list_to_map l : gmap K num) !! f k = None)
    by (by apply not_elem_of_list_to_map_1).
  destruct (Hm k) as [Hmk Hmfk]; first by left.
  cbn [mbind result_bind].
  rewrite lookup_union_l by done. rewrite lookup_insert_eq.
  rewrite delete_union, delete_insert_id, (delete_id m) by done.
  rewrite insert_union_r by done.
  rewrite IH.
  - rewrite <-insert_union_r; first by rewrite insert_union_l.
    apply not_elem_of_list_to_map_1. rewrite <-list_fmap_compose.
    intros (kv & Hkv & Hin)%list_elem_of_fmap. cbn in Hkv.
    assert (Hin' : kv.1 ∈ l.*1) by (apply list_elem_of_fmap; eauto).
    apply Hk. rewrite (Hinj k kv.1); [done | by left | by right | done].
  - done.
  - intros k1 k2 H1 H2. apply Hinj; by right.
  - intros k' Hk'. intros Hin. apply (Hfresh k'); by right.
  - intros k' Hk'. destruct (Hm k') as [H1 H2]; first by right.
    split.
    + rewrite lookup_insert_ne; first done.
      intros <-. by apply Hfk.
    + rewrite lookup_insert_ne; first done.
      intros Heq. apply Hk. rewrite (Hinj k k'); [done | by left | by right | done].
Qed.

(** On a dictionary where [f] is one-to-one and leads out of the keys,
    the loop raises nothing and renames every key. *)
Lemma rename_loop_renamed d :
  (∀ k1 k2, is_Some (d !! k1) → is_Some (d !! k2) → f k1 = f k2 → k1 = k2) →
  (∀ k, is_Some (d !! k) → d !! f k = None) →
  rename_loop (Ok d) (map_to_list d).*1 = Ok (renamed f d).
Proof.
  intros Hinj Hout.
  assert (Hkeys : ∀ k, k ∈ (map_to_list d).*1 ↔ is_Some (d !! k)).
  { intros k. rewrite list_elem_of_fmap. split.
    - intros ([k' v] & -> & Hin%elem_of_map_to_list). by eexists.
    - intros [v Hv]. exists (k, v). by rewrite elem_of_map_to_list. }
  pose proof (rename_loop_spec (map_to_list d) ∅) as Hl.
  rewrite list_to_map_to_list, !(right_id_L ∅ (∪)) in Hl. apply Hl.
  - apply NoDup_fst_map_to_list.
  - intros k1 k2 H1%Hkeys H2%Hkeys. by apply Hinj.
  - intros k Hk%Hkeys Hfk%Hkeys. apply Hout in Hk.
    rewrite Hk in Hfk. by destruct Hfk.
  - intros k _. by rewrite !lookup_empty.
Qed.

Lemma renamed_lookup_Some d (j : K) (v : num) :
  renamed f d !! j = Some v → ∃ k, j = f k ∧ d !! k = Some v.
Proof.
  intros Hj%elem_of_list_to_map_2.
  apply list_elem_of_fmap in Hj as ([k v'] & [= -> ->] & Hin).
  exists k. split; first done. by apply elem_of_map_to_list.
Qed.

Lemma renamed_lookup d (k : K) :
  (∀ k1 k2, is_Some (d !! k1) → is_Some (d !! k2) → f k1 = f k2 → k1 = k2) →
  (∀ k', is_Some (d !! k') → f k' = f k → k' = k) →
  renamed f d !! f k = d !! k.
Proof.
  intros Hinj Hk. unfold renamed. destruct (d !! k) as [v|] eqn:E.
  - apply elem_of_list_to_map_1.
    + rewrite <-list_fmap_compose.
      apply (NoDup_fmap_2_strong (λ kv : K * num, f kv.1)).
      * intros [k1 v1] [k2 v2] H1%elem_of_map_to_list H2%elem_of_map_to_list.
        cbn. intros Heq.
        assert (k1 = k2) as -> by (apply Hinj; [by eexists..|done]).
        f_equal. congruence.
      * apply NoDup_map_to_list.
    + apply list_elem_of_fmap. exists (k, v). split; first done.
      by apply elem_of_map_to_list.
  - apply not_elem_of_list_to_map_1. rewrite <-list_fmap_compose.
    intros ([k' v'] & Heq & Hin%elem_of_map_to_list)%list_elem_of_fmap.
    cbn in Heq. rewrite (Hk k') in Hin; [congruence | by eexists | done].
Qed.

Lemma units_list_to_map l :
  NoDup l.*1 →
  units (list_to_map l : gmap K num)
  = foldr (λ kv acc, (num_value kv.2 + acc)%Qc) 0%Qc l.
Proof.
  induction l as [|[k v] l IH]; first done.
  rewrite fmap_cons, list_to_map_cons. cbn [fst foldr snd].
  intros [Hk Hnd]%NoDup_cons.
  rewrite units_insert by (by apply not_elem_of_list_to_map_1).
  by rewrite IH.
Qed.

Lemma units_renamed d :
  (∀ k1 k2, is_Some (d !! k1) → is_Some (d !! k2) → f k1 = f k2 → k1 = k2) →
  units (renamed f d) = units d.
Proof.
  intros Hinj. unfold renamed. rewrite units_list_to_map.
  - rewrite <-(list_to_map_to_list d) at 2.
    rewrite units_list_to_map by apply NoDup_fst_map_to_list.
    induction (map_to_list d) as [|[k v] l IH]; first done.
    cbn [fmap list_fmap foldr prod_map snd id]. by rewrite IH.
  - rewrite <-list_fmap_compose.
    apply (NoDup_fmap_2_strong (λ kv : K * num, f kv.1)).
    + intros [k1 v1] [k2 v2] H1%elem_of_map_to_list H2%elem_of_map_to_list.
      cbn. intros Heq.
      assert (k1 = k2) as -> by (apply Hinj; [by eexists..|done]).
      f_equal. congruence.
    + apply NoDup_map_to_list.
Qed.
(** The loop over keys that are those of the dictionary, each once, in
    any order. *)
Lemma rename_loop_every_key d (keys : list K) :
  NoDup keys →
  (∀ k, k ∈ keys ↔ is_Some (d !! k)) →
  (∀ k1 k2, is_Some (d !! k1) → is_Some (d !! k2) → f k1 = f k2 → k1 = k2) →
  (∀ k, is_Some (d !! k) → d !! f k = None) →
  rename_loop (Ok d) keys = Ok (renamed f d).
Proof.
  intros Hnd Hkeys Hinj Hout.
  set (l := (λ k, (k, default (PyInt 0) (d !! k))) <$> keys).
  assert (Hl1 : l.*1 = keys).
  { unfold l. rewrite <-list_fmap_compose. apply list_fmap_id. }
  assert (Hd : list_to_map l = d).
  { apply map_eq. intros k. destruct (d !! k) as [v|] eqn:Hk.
    - apply elem_of_list_to_map_1; first by rewrite Hl1.
      apply list_elem_of_fmap. exists k. rewrite Hk. split; first done.
      apply Hkeys. by eexists.
    - apply not_elem_of_list_to_map_1. rewrite Hl1. intros Hin%Hkeys.
      rewrite Hk in Hin. by destruct Hin. }
  assert (Hperm : l ≡ₚ map_to_list d).
  { rewrite <-Hd. symmetry. apply map_to_list_to_map. by rewrite Hl1. }
  pose proof (rename_loop_spec l ∅) as Hl.
  rewrite Hd, Hl1, !(right_id_L ∅ (∪)) in Hl. rewrite Hl.
  - f_equal. unfold renamed. apply list_to_map_proper; last by rewrite Hperm.
    rewrite <-list_fmap_compose.
    apply (NoDup_fmap_2_strong (λ kv : K * num, f kv.1)).
    + intros [k1 v1] [k2 v2] H1 H2. cbn. intros Heq.
      apply list_elem_of_fmap in H1 as (k1' & [= -> ->] & H1).
      apply list_elem_of_fmap in H2 as (k2' & [= -> ->] & H2).
      by rewrite (Hinj k1' k2') by (by apply Hkeys || done).
    + unfold l. apply NoDup_fmap_2; last done. by intros k1 k2 [= ->].
  - done.
  - intros k1 k2 H1%Hkeys H2%Hkeys. by apply Hinj.
  - intros k Hk%Hkeys Hfk%Hkeys. apply Hout in Hk.
    rewrite Hk in Hfk. by destruct Hfk.
  - intros k _. by rewrite !lookup_empty.
Qed.

(** What every step of the loop keeps, the loop keeps. *)
Lemma rename_loop_invariant (Inv : gmap K num → Prop) (keys : list K) d d' :
  (∀ m k v, Inv m → m !! k = Some v → Inv (<[f k := v]> (delete k m))) →
  Inv d →
  rename_loop (Ok d) keys = Ok d' →
  Inv d'.
Proof.
  intros Hstep. revert d. induction keys as [|k keys IH]; intros d Hd Hloop.
  { by injection Hloop as <-. }
  cbn [foldl mbind result_bind] in Hloop.
  destruct (d !! k) as [v|] eqn:Hk.
  - apply (IH _ (Hstep d k v Hd Hk) Hloop).
  - clear IH. exfalso. induction keys as [|k' keys IH]; first done.
    apply IH. exact Hloop.
Qed.

Variable iterate : iteration K.

Lemma replace_keys_empty : replace_keys iterate f ∅ = Ok ∅.
Proof. unfold replace_keys. by rewrite decide_True. Qed.

Lemma replace_keys_rename_loop d d' :
  replace_keys iterate f d = Ok d' →
  d = ∅ ∧ d' = ∅
  ∨ d ≠ ∅ ∧ (iterate d).2 = false ∧ rename_loop (Ok d) (iterate d).1 = Ok d'.
Proof.
  unfold replace_keys. destruct (decide (d = ∅)) as [->|Hne].
  { intros [= <-]. by left. }
  destruct (iterate d) as [keys raises]. cbn [fst snd]. intros Hd'. right.
  destruct (foldl _ _ _) as [m|e] eqn:Hloop; last done.
  cbn [mbind result_bind] in Hd'. destruct raises; first done.
  by injection Hd' as <-.
Qed.

(** When the iterator raises on a dictionary that is not empty, so does
    the loop, unless [pop] has raised before. *)
Lemma replace_keys_raises d :
  d ≠ ∅ → (iterate d).2 = true → ∃ e, replace_keys iterate f d = Raise e.
Proof.
  intros Hne Hr. unfold replace_keys. rewrite decide_False by done.
  destruct (iterate d) as [keys raises]. cbn [snd] in Hr. subst raises.
  destruct (foldl _ _ _) as [m|e]; cbn [mbind result_bind]; by eexists.
Qed.

Lemma replace_keys_invariant (Inv : gmap K num → Prop) d d' :
  (∀ m k v, Inv m → m !! k = Some v → Inv (<[f k := v]> (delete k m))) →
  Inv d →
  replace_keys iterate f d = Ok d' →
  Inv d'.
Proof.
  intros Hstep Hd [[-> ->]|(_ & _ & Hloop)]%replace_keys_rename_loop;
    first done.
  by apply (rename_loop_invariant Inv _ _ _ Hstep Hd Hloop).
Qed.

(** A property of the keys that [f] keeps is kept by the loop. *)
Lemma replace_keys_keys (P : K → Prop) d d' :
  (∀ k, P k → P (f k)) →
  keys_of P d →
  replace_keys iterate f d = Ok d' →
  keys_of P d'.
Proof.
  intros Hf. apply replace_keys_invariant. intros m k v Hm Hk k' v'.
  destruct (decide (k' = f k)) as [->|Hne].
  - intros _. apply Hf. by apply (Hm k v).
  - rewrite lookup_insert_ne by done.
    intros [_ Hk']%lookup_delete_Some. by apply (Hm k' v').
Qed.

(** The loop keeps the sum of the values when no two keys of the
    dictionary differ only in what [f] sets: [strip] erases that. *)
Lemma replace_keys_units (strip : K → K) d d' :
  (∀ k, strip (f k) = strip k) →
  (∀ k1 k2, is_Some (d !! k1) → is_Some (d !! k2) →
     strip k1 = strip k2 → k1 = k2) →
  replace_keys iterate f d = Ok d' →
  units d' = units d.
Proof.
  intros Hstrip Hinj Hd'.
  pose proof (replace_keys_invariant (λ m,
    units m = units d
    ∧ ∀ k1 k2, is_Some (m !! k1) → is_Some (m !! k2) →
        strip k1 = strip k2 → k1 = k2) d d') as Hinv.
  cbv beta in Hinv. destruct Hinv as [Hu _]; [|done|done|done].
  intros m k v [Hu Hm] Hk.
  assert (Hfresh : delete k m !! f k = None).
  { destruct (decide (f k = k)) as [->|Hne]; first apply lookup_delete_eq.
    rewrite lookup_delete_ne by done.
    destruct (m !! f k) as [w|] eqn:Hfk; last done.
    destruct Hne. apply Hm; [by eexists.. | apply Hstrip]. }
  split.
  - rewrite units_insert by done. by rewrite <-(units_delete m k v Hk).
  - assert (Hin : ∀ k', is_Some (<[f k := v]> (delete k m) !! k') →
      k' = f k ∨ k' ≠ k ∧ is_Some (m !! k')).
    { intros k' [w Hw]. destruct (decide (k' = f k)) as [->|Hne];
        first by left.
      rewrite lookup_insert_ne in Hw by done.
      apply lookup_delete_Some in Hw as [? ?]. right. split; [done | by eexists]. }
    intros k1 k2 [->|[Hn1 H1]]%Hin [->|[Hn2 H2]]%Hin Heq; first done.
    + rewrite Hstrip in Heq. destruct Hn2. symmetry.
      apply Hm; [by eexists | done | done].
    + rewrite Hstrip in Heq. destruct Hn1.
      apply Hm; [done | by eexists | done].
    + by apply Hm.
Qed.

(** When the iterator yields every key once, the loop renames every
    key. *)
Lemma replace_keys_every_key d :
  yields_every_key iterate d →
  (∀ k1 k2, is_Some (d !! k1) → is_Some (d !! k2) → f k1 = f k2 → k1 = k2) →
  (∀ k, is_Some (d !! k) → d !! f k = None) →
  replace_keys iterate f d = Ok (renamed f d).
Proof.
  intros (Hnd & Hkeys & Hstop) Hinj Hout. unfold replace_keys.
  destruct (decide (d = ∅)) as [->|Hne].
  { unfold renamed. by rewrite map_to_list_empty. }
  destruct (iterate d) as [keys raises]. cbn [fst snd] in *. subst raises.
  by rewrite (rename_loop_every_key d keys).
Qed.
End renaming.

(** ** Loops that thread a result *)

Lemma loop_Raise {A B} (step : A → B → result A) (l : list B) (e : exn) :
  foldl (λ acc x, a ← acc; step a x) (Raise e) l = Raise e.
Proof. induction l; [done | by simpl]. Qed.

Lemma loop_cons_Ok {A B} (step : A → B → result A) (x : B) (l : list B)
    (a d : A) :
  foldl (λ acc x, a ← acc; step a x) (Ok a) (x :: l) = Ok d →
  ∃ a', step a x = Ok a'
        ∧ foldl (λ acc x, a ← acc; step a x) (Ok a') l = Ok d.
Proof.
  cbn [foldl mbind result_bind]. destruct (step a x) as [a'|e] eqn:E.
  - intros Hl. by exists a'.
  - by rewrite loop_Raise.
Qed.

(** What every step keeps, the loop keeps. *)
Lemma loop_invariant {A B} (step : A → B → result A) (Inv : A → Prop)
    (l : list B) (a d : A) :
  (∀ a x a', x ∈ l → Inv a → step a x = Ok a' → Inv a') →
  Inv a →
  foldl (λ acc x, a ← acc; step a x) (Ok a) l = Ok d →
  Inv d.
Proof.
  revert a. induction l as [|x l IH]; intros a Hstep Ha.
  - by intros [= <-].
  - intros (a' & Hx & Hl)%loop_cons_Ok. apply (IH a'); [|by eauto using list_elem_of_here|done].
    intros a0 y a1 Hy. apply Hstep. by right.
Qed.

(** What every step adds, the loop adds up. *)
Lemma loop_total {A B} (step : A → B → result A) (size : A → Qc)
    (g : B → Qc) (l : list B) (a d : A) :
  (∀ a x a', x ∈ l → step a x = Ok a' → size a' = (size a + g x)%Qc) →
  foldl (λ acc x, a ← acc; step a x) (Ok a) l = Ok d →
  size d = (size a + foldr Qcplus 0%Qc (g <$> l))%Qc.
Proof.
  revert a. induction l as [|x l IH]; intros a Hstep.
  - intros [= <-]. cbn [fmap list_fmap foldr]. by rewrite Qcplus_0_r.
  - intros (a' & Hx & Hl)%loop_cons_Ok.
    rewrite (IH a'); [|intros a0 y a1 Hy; apply Hstep; by right|done].
    rewrite (Hstep _ _ _ (list_elem_of_here _ _) Hx).
    cbn [fmap list_fmap foldr]. by rewrite Qcplus_assoc.
Qed.

(** Every step of the loop returned. *)
Lemma loop_steps_Ok {A B} (step : A → B → result A) (l : list B) (a d : A) :
  foldl (λ acc x, a ← acc; step a x) (Ok a) l = Ok d →
  Forall (λ x, ∃ a0 a1, step a0 x = Ok a1) l.
Proof.
  revert a. induction l as [|x l IH]; intros a; first by constructor.
  intros (a' & Hx & Hl)%loop_cons_Ok. constructor; eauto.
Qed.

(** ** Keys and totals of scaled maps *)

Section scaled.
Context {K : Type} `{Countable K}.
Implicit Types (m : gmap K num).

Lemma keys_of_add (P : K → Prop) m1 m2 :
  keys_of P m1 → keys_of P m2 → keys_of P (__add__ m1 m2).
Proof.
  intros H1 H2.
  exact (py_add_keys P (PyCountMap m1) (PyCountMap m2) _ H1 H2 eq_refl).
Qed.

Lemma mul_Ok m (other : @pyobj K _ _) m' :
  __mul__ m other = Ok m' →
  ∃ q, other = PyNum (PwQPolynomial q)
       ∧ m' = (λ v, num_mul v (PwQPolynomial q)) <$> m.
Proof.
  destruct other as [[n|q]| |]; try done. intros [= <-]. by exists q.
Qed.

Lemma keys_of_mul (P : K → Prop) m (other : @pyobj K _ _) m' :
  __mul__ m other = Ok m' → keys_of P m → keys_of P m'.
Proof.
  intros (q & _ & ->)%mul_Ok Hm k v. rewrite lookup_fmap.
  destruct (m !! k) eqn:E; [by eauto | done].
Qed.

Lemma keys_of_singleton (P : K → Prop) (k : K) (v : num) :
  P k → keys_of P {[ k := v ]}.
Proof. by intros HP j w [<- _]%lookup_singleton_Some. Qed.

Lemma keys_of_insert_inv (P : K → Prop) m (k : K) (v : num) :
  m !! k = None → keys_of P (<[k := v]> m) → P k ∧ keys_of P m.
Proof.
  intros Hk Hm. split.
  - apply (Hm k v), lookup_insert_eq.
  - intros j w Hj. apply (Hm j w). rewrite lookup_insert_ne; first done.
    intros <-. by rewrite Hk in Hj.
Qed.
End scaled.

(** ** get_op_poly *)

Section get_op_poly_properties.
Variable knl : LoopKernel.
Variable type_inf : Expression → dtype.

Lemma op_insn_Ok (op_poly : gmap TypedOp num) (insn : Instruction)
    (d : gmap TypedOp num) :
  op_insn knl type_inf op_poly insn = Ok d →
  ∃ a e inames q,
    insn = Assignment a e inames
    ∧ (count knl (inames_domain knl inames)).1 = PwQPolynomial q
    ∧ units d = (units op_poly + Z2Qc (op_count a + op_count e) * q)%Qc.
Proof.
  destruct insn as [a e inames|]; last done. cbn [op_insn]. intros Hd.
  apply bind_Ok in Hd as (ra & Hra & Hd).
  apply bind_Ok in Hd as (re & Hre & Hd).
  apply bind_Ok in Hd as (ops & Hops & Hd).
  apply bind_Ok in Hd as (scaled & Hsc & Hd).
  destruct scaled as [|m|]; try done. injection Hd as <-.
  apply py_add_units in Hops.
  rewrite (op_units_of _ _ _ Hra), (op_units_of _ _ _ Hre) in Hops.
  destruct ops as [x|mo|]; try done.
  cbn [py_mul] in Hsc.
  destruct (__mul__ mo _) as [m'|] eqn:Hmul; last done.
  injection Hsc as ->.
  apply mul_Ok in Hmul as (q & [= Hq] & ->).
  exists a, e, inames, q. split_and!; [done..|].
  rewrite units_add, units_mul. cbn [obj_units] in Hops.
  by rewrite Hops, Z2Qc_add.
Qed.

(** X8. When [get_op_poly] returns, the counts of its result add up to
    the operations of every instruction, on both sides of the assignment,
    times the number of times the instruction runs. *)
Theorem get_op_poly_units (d : gmap TypedOp num) :
  get_op_poly knl type_inf = Ok d →
  units d = weighted_total knl insn_ops.
Proof.
  intros Hd. unfold get_op_poly in Hd.
  apply (loop_total _ units (λ insn, (Z2Qc (insn_ops insn) * runs knl insn)%Qc))
    in Hd.
  - rewrite Hd, units_empty. apply Qcplus_0_l.
  - intros acc insn acc' _ (a & e & inames & q & -> & Hq & ->)%op_insn_Ok.
    unfold runs. cbn [insn_inames_of insn_ops]. by rewrite Hq.
Qed.

(** X9. [get_op_poly] returns only if every instruction is an assignment
    and the count of its domain is a quasi-polynomial, not a Python
    integer. *)
Theorem get_op_poly_returns (d : gmap TypedOp num) :
  get_op_poly knl type_inf = Ok d →
  Forall (λ insn, ∃ a e inames q,
      insn = Assignment a e inames
      ∧ (count knl (inames_domain knl inames)).1 = PwQPolynomial q)
    (instructions knl).
Proof.
  intros Hd%loop_steps_Ok. eapply Forall_impl; first exact Hd.
  intros insn (acc & acc' & (a & e & inames & q & -> & Hq & _)%op_insn_Ok).
  by exists a, e, inames, q.
Qed.
End get_op_poly_properties.

(** ** get_lmem_access_poly *)

Section get_lmem_access_poly_properties.
Variable knl : LoopKernel.
Variable temporary_variables : gmap string TemporaryVariable.
Variable type_inf : Expression → dtype.
Variable iterate : iteration LmemAccess.

Lemma as_load_inj (d : gmap LmemAccess num) :
  keys_of (λ k, lmem_direction k = None) d →
  ∀ k1 k2, is_Some (d !! k1) → is_Some (d !! k2) →
    as_load k1 = as_load k2 → k1 = k2.
Proof.
  intros Hd [dt1 dir1] [dt2 dir2] [v1 H1] [v2 H2] [= ->].
  apply Hd in H1, H2. cbn in H1, H2. by subst.
Qed.

(** When the iterator yields every key once, every key is given the
    direction. *)
Lemma lmem_relabel_renamed (d : gmap LmemAccess num) :
  yields_every_key iterate d →
  keys_of (λ k, lmem_direction k = None) d →
  lmem_relabel iterate d = Ok (renamed as_load d).
Proof.
  intros Hall Hd. apply (replace_keys_every_key as_load); first done.
  - by apply as_load_inj.
  - intros k _. destruct (d !! as_load k) eqn:E; last done.
    by apply Hd in E.
Qed.

(** Whatever the iterator does, the loop keeps the sum of the values and
    gives no key another direction than ['load']. *)
Lemma lmem_relabel_Ok (d d' : gmap LmemAccess num) :
  keys_of (λ k, lmem_direction k = None) d →
  lmem_relabel iterate d = Ok d' →
  units d' = units d
  ∧ keys_of (λ k, lmem_direction k = Some "load" ∨ lmem_direction k = None) d'.
Proof.
  intros Hd Hd'. split.
  - apply (replace_keys_units as_load iterate
             (λ k, mkLmemAccess (lmem_dtype k) None) d d'); [done | | done].
    intros [dt1 dir1] [dt2 dir2] [v1 H1] [v2 H2].
    apply Hd in H1, H2. cbn in H1, H2. subst. by intros [= ->].
  - apply (replace_keys_keys as_load iterate _ d d'); [by left | | done].
    intros k v Hk. right. by apply (Hd k v).
Qed.

Lemma lmem_weigh_Ok (insn_inames : list string)
    (subs subs_poly d : gmap LmemAccess num) (P : LmemAccess → Prop) :
  lmem_weigh knl insn_inames subs subs_poly = Ok d →
  units d
  = (units subs_poly
     + units subs * num_value (lmem_insn_count knl insn_inames))%Qc
  ∧ (keys_of P subs → keys_of P subs_poly → keys_of P d).
Proof.
  unfold lmem_weigh. revert d.
  apply (map_fold_weak_ind (λ r m, ∀ d, r = Ok d →
    units d
    = (units subs_poly
       + units m * num_value (lmem_insn_count knl insn_inames))%Qc
    ∧ (keys_of P m → keys_of P subs_poly → keys_of P d))).
  - intros d [= <-]. split; last done. rewrite units_empty. ring.
  - intros k v m r Hk IH d Hd.
    apply bind_Ok in Hd as (sp & -> & Hd).
    apply bind_Ok in Hd as (scaled & Hmul & [= <-]).
    destruct (IH sp eq_refl) as [Hu Hkeys]. split.
    + apply mul_Ok in Hmul as (q & [= Hq] & ->).
      rewrite units_add, units_mul, units_singleton, Hu, units_insert, Hq
        by done.
      cbn [num_value]. ring.
    + intros [Pk Hm]%keys_of_insert_inv Hsp; last done.
      apply keys_of_add; first by apply Hkeys.
      eapply keys_of_mul; first exact Hmul. by apply keys_of_singleton.
Qed.

Lemma lmem_insn_Ok (subs_poly : gmap LmemAccess num) (insn : Instruction)
    (d : gmap LmemAccess num) :
  lmem_insn knl temporary_variables type_inf iterate subs_poly insn = Ok d →
  units d
  = (units subs_poly
     + Z2Qc (insn_reads (in_local_memory temporary_variables) insn)
       * runs knl insn)%Qc
  ∧ (keys_of (λ k, lmem_direction k = Some "load" ∨ lmem_direction k = None)
       subs_poly →
     keys_of (λ k, lmem_direction k = Some "load" ∨ lmem_direction k = None)
       d)
  ∧ ((∀ m, yields_every_key iterate m) →
     keys_of (λ k, lmem_direction k = Some "load") subs_poly →
     keys_of (λ k, lmem_direction k = Some "load") d).
Proof.
  destruct insn as [a e inames|]; last done. cbn [lmem_insn]. intros Hd.
  apply bind_Ok in Hd as (subs_expr & Hexpr & Hd).
  apply bind_Ok in Hd as (subs_load & Hload & Hd).
  apply bind_Ok in Hd as (subs_assignee & _ & Hd).
  apply bind_Ok in Hexpr as (r & Hr & Hexpr).
  destruct r as [|m|]; try done. injection Hexpr as ->.
  pose proof (local_keys_of _ _ _ _ Hr) as Hkeys.
  pose proof (local_units_of _ _ _ _ Hr) as Hunits.
  cbn [keys_in obj_units] in Hkeys, Hunits.
  destruct (lmem_relabel_Ok _ _ Hkeys Hload) as [Hsame Hdirs].
  split_and!.
  - apply (lmem_weigh_Ok _ _ _ _ (λ _, True)) in Hd as [Hu _].
    by rewrite Hu, Hsame, Hunits.
  - apply (lmem_weigh_Ok _ _ _ _
             (λ k, lmem_direction k = Some "load" ∨ lmem_direction k = None))
      in Hd as [_ Hk].
    by apply Hk.
  - intros Hall. rewrite lmem_relabel_renamed in Hload by done.
    injection Hload as <-.
    apply (lmem_weigh_Ok _ _ _ _ (λ k, lmem_direction k = Some "load")) in Hd
      as [_ Hk].
    apply Hk. by intros k v (k' & -> & _)%renamed_lookup_Some.
Qed.

(** X10. No key of what [get_lmem_access_poly] returns has the direction
    ['store']: every key has the direction ['load'], or none where the
    iterator has skipped it in the loop that sets the direction; stores
    are not counted.  When the iterator yields every key of a dictionary
    once, every key has the direction ['load']. *)
Theorem get_lmem_access_poly_loads (d : gmap LmemAccess num) :
  get_lmem_access_poly knl temporary_variables type_inf iterate = Ok d →
  (∀ k v, d !! k = Some v →
     lmem_direction k = Some "load" ∨ lmem_direction k = None)
  ∧ ((∀ m, yields_every_key iterate m) →
     ∀ k v, d !! k = Some v → lmem_direction k = Some "load").
Proof.
  intros Hd. split.
  - revert Hd. apply (loop_invariant _
      (keys_of (λ k, lmem_direction k = Some "load"
                     ∨ lmem_direction k = None))).
    + intros acc insn acc' _ Hacc Hstep.
      apply lmem_insn_Ok in Hstep as (_ & Hk & _). auto.
    + by intros k v.
  - intros Hall. revert Hd.
    apply (loop_invariant _ (keys_of (λ k, lmem_direction k = Some "load"))).
    + intros acc insn acc' _ Hacc Hstep.
      apply lmem_insn_Ok in Hstep as (_ & _ & Hk). auto.
    + by intros k v.
Qed.

(** X11. When [get_lmem_access_poly] returns, whatever the iterator has
    done in the loop that sets the direction, the counts of its result
    add up to the subscripts into local temporaries on the right-hand
    side of every instruction, times the number of times the instruction
    runs; the assignee adds nothing. *)
Theorem get_lmem_access_poly_units (d : gmap LmemAccess num) :
  get_lmem_access_poly knl temporary_variables type_inf iterate = Ok d →
  units d
  = weighted_total knl (insn_reads (in_local_memory temporary_variables)).
Proof.
  intros Hd. unfold get_lmem_access_poly in Hd.
  apply (loop_total _ units
    (λ insn, (Z2Qc (insn_reads (in_local_memory temporary_variables) insn)
              * runs knl insn)%Qc)) in Hd.
  - rewrite Hd, units_empty. apply Qcplus_0_l.
  - intros acc insn acc' _ Hstep. by apply lmem_insn_Ok in Hstep as [? _].
Qed.
End get_lmem_access_poly_properties.

(** ** get_gmem_access_poly *)

Section get_gmem_access_poly_properties.
Variable knl : LoopKernel.
Variable type_inf : Expression → dtype.
Variable get_dependencies : list Expression → gset string.
Variable CoefficientCollector : Expression → result (gmap string Z).
Variable iterate : iteration StridedGmemAccess.

Lemma with_direction_inj (direction : string)
    (d : gmap StridedGmemAccess num) :
  keys_of (λ k, gmem_direction k = None) d →
  ∀ k1 k2, is_Some (d !! k1) → is_Some (d !! k2) →
    with_direction direction k1 = with_direction direction k2 → k1 = k2.
Proof.
  intros Hd [dt1 s1 dir1 x1] [dt2 s2 dir2 x2] [v1 H1] [v2 H2] [= -> -> ->].
  apply Hd in H1, H2. cbn in H1, H2. by subst.
Qed.

Lemma relabel_renamed (direction : string) (d : gmap StridedGmemAccess num) :
  yields_every_key iterate d →
  keys_of (λ k, gmem_direction k = None) d →
  relabel iterate direction d = Ok (renamed (with_direction direction) d).
Proof.
  intros Hall Hd.
  apply (replace_keys_every_key (with_direction direction)); first done.
  - by apply with_direction_inj.
  - intros k _. destruct (d !! with_direction direction k) eqn:E; last done.
    by apply Hd in E.
Qed.

(** Whatever the iterator does, the loop keeps the sum of the values, and
    a key it leaves is a key of the start, with the direction set or as
    it was. *)
Lemma relabel_Ok (direction : string) (d d' : gmap StridedGmemAccess num) :
  keys_of (λ k, gmem_direction k = None) d →
  relabel iterate direction d = Ok d' →
  units d' = units d
  ∧ keys_of (λ k, ∃ k0, is_Some (d !! k0)
                    ∧ (k = k0 ∨ k = with_direction direction k0)) d'.
Proof.
  intros Hd Hd'. split.
  - apply (replace_keys_units (with_direction direction) iterate
             (λ k, mkStridedGmemAccess (gmem_dtype k) (gmem_stride k) None
                     (gmem_variable k)) d d'); [done | | done].
    intros [dt1 s1 dir1 x1] [dt2 s2 dir2 x2] [v1 H1] [v2 H2].
    apply Hd in H1, H2. cbn in H1, H2. subst. by intros [= -> -> ->].
  - apply (replace_keys_keys (with_direction direction) iterate _ d d');
      [ | | done].
    + intros k (k0 & Hk0 & [-> | ->]); exists k0; split; auto.
    + intros k v Hk. exists k. split; [by eexists | by left].
Qed.

(** X12. The loop that sets the direction of the keys, on a dictionary
    whose keys carry no direction, as the counter returns it.  On the
    empty dictionary it returns the empty dictionary.  When the iterator
    raises on a dictionary that is not empty, the loop raises.  When the
    iterator yields every key of the dictionary once, the loop returns
    the dictionary that holds, at each key with the direction set, the
    value the key without direction had, and has no other key.  And
    whatever the loop returns holds the same count in all, at keys that
    are keys of the start with the direction set or as it was. *)
Theorem relabel_undirected (direction : string)
    (d : gmap StridedGmemAccess num) :
  (∀ k v, d !! k = Some v → gmem_direction k = None) →
  (d = ∅ → relabel iterate direction d = Ok ∅)
  ∧ (d ≠ ∅ → (iterate d).2 = true →
     ∃ e, relabel iterate direction d = Raise e)
  ∧ (yields_every_key iterate d →
     ∃ d', relabel iterate direction d = Ok d'
       ∧ (∀ k, gmem_direction k = None →
            d' !! with_direction direction k = d !! k)
       ∧ (∀ k v, d' !! k = Some v → gmem_direction k = Some direction))
  ∧ (∀ d', relabel iterate direction d = Ok d' →
       units d' = units d
       ∧ ∀ k v, d' !! k = Some v →
           ∃ k0, is_Some (d !! k0)
             ∧ (k = k0 ∨ k = with_direction direction k0)).
Proof.
  intros Hd. split_and!.
  - intros ->. apply replace_keys_empty.
  - apply replace_keys_raises.
  - intros Hall. exists (renamed (with_direction direction) d).
    split_and!.
    + by apply relabel_renamed.
    + intros k Hk. apply renamed_lookup; first by apply with_direction_inj.
      intros [dt' s' dir' x'] [v' Hv'] [= -> -> ->].
      apply Hd in Hv'. cbn in Hv'. destruct k. cbn in Hk. by subst.
    + by intros k v (k' & -> & _)%renamed_lookup_Some.
  - intros d' Hd'. by apply relabel_Ok.
Qed.

Lemma weigh_keys (insn_inames : list string)
    (subs subs_poly d : gmap StridedGmemAccess num)
    (P : StridedGmemAccess → Prop) :
  weigh knl insn_inames subs subs_poly = Ok d →
  keys_of P subs → keys_of P subs_poly → keys_of P d.
Proof.
  unfold weigh. revert d.
  apply (map_fold_weak_ind (λ r m, ∀ d, r = Ok d →
    keys_of P m → keys_of P subs_poly → keys_of P d)).
  - by intros d [= <-].
  - intros k v m r Hk IH d Hd.
    apply bind_Ok in Hd as (sp & -> & Hd).
    apply bind_Ok in Hd as (scaled & Hmul & [= <-]).
    intros [Pk Hm]%keys_of_insert_inv Hsp; last done.
    apply keys_of_add; first by apply (IH sp).
    destruct (is_uniform k);
      (eapply keys_of_mul; [exact Hmul | by apply keys_of_singleton]).
Qed.

(** A key read or written in global memory; a key of global memory whose
    direction the loop may have left unset. *)
Local Abbreviation transfer := (λ k : StridedGmemAccess,
  (gmem_direction k = Some "load" ∨ gmem_direction k = Some "store")
  ∧ in_global_memory knl (gmem_variable k) = true).

Local Abbreviation access := (λ k : StridedGmemAccess,
  (gmem_direction k = Some "load" ∨ gmem_direction k = Some "store"
   ∨ gmem_direction k = None)
  ∧ in_global_memory knl (gmem_variable k) = true).

Lemma relabelled_counts (direction : string) (e : Expression)
    (m m' : gmap StridedGmemAccess num) :
  direction = "load" ∨ direction = "store" →
  counter_dict knl type_inf get_dependencies CoefficientCollector e = Ok m →
  relabel iterate direction m = Ok m' →
  keys_of access m'
  ∧ ((∀ d, yields_every_key iterate d) → keys_of transfer m').
Proof.
  intros Hdir (r & Hr & Hm)%bind_Ok Hm'.
  destruct r as [|m0|]; try done. injection Hm as ->.
  pose proof (global_keys_of _ _ _ _ _ _ Hr) as Hkeys. cbn [keys_in] in Hkeys.
  assert (Hnone : keys_of (λ k, gmem_direction k = None) m)
    by (intros k v Hk; by apply (Hkeys k v)).
  split.
  - destruct (relabel_Ok _ _ _ Hnone Hm') as [_ Hk].
    intros k v (k0 & [v0 [Hdir0 Hg]%Hkeys] & [-> | ->])%Hk.
    + split; last done. auto.
    + split; last done. cbn. destruct Hdir as [-> | ->]; auto.
  - intros Hall. rewrite relabel_renamed in Hm' by done.
    injection Hm' as <-.
    intros k v (k' & -> & [_ Hk']%Hkeys)%renamed_lookup_Some.
    split; last done. cbn. destruct Hdir as [-> | ->]; auto.
Qed.

Lemma gmem_insn_keys (subs_poly : gmap StridedGmemAccess num)
    (insn : Instruction) (d : gmap StridedGmemAccess num) :
  gmem_insn knl type_inf get_dependencies CoefficientCollector iterate
    subs_poly insn = Ok d →
  (keys_of access subs_poly → keys_of access d)
  ∧ ((∀ d, yields_every_key iterate d) →
     keys_of transfer subs_poly → keys_of transfer d).
Proof.
  destruct insn as [a e inames|]; last done. cbn [gmem_insn]. intros Hd.
  apply bind_Ok in Hd as (subs_expr & Hexpr & Hd).
  apply bind_Ok in Hd as (subs_load & Hload & Hd).
  apply bind_Ok in Hd as (subs_assignee & Hassignee & Hd).
  apply bind_Ok in Hd as (subs_store & Hstore & Hd).
  apply bind_Ok in Hd as (sp & Hw1 & Hw2).
  destruct (relabelled_counts "load" e _ _ (or_introl eq_refl) Hexpr Hload)
    as [Hl Hl'].
  destruct (relabelled_counts "store" a _ _ (or_intror eq_refl) Hassignee
              Hstore) as [Hs Hs'].
  split.
  - intros Hsp. eapply weigh_keys; [exact Hw2 | done | ].
    eapply weigh_keys; [exact Hw1 | done | done].
  - intros Hall Hsp. eapply weigh_keys; [exact Hw2 | by apply Hs' | ].
    eapply weigh_keys; [exact Hw1 | by apply Hl' | done].
Qed.

(** X13. Every key of what [get_gmem_access_poly] returns names an array
    that is a global argument of the kernel and has the direction
    ['load'] or ['store'], or none where the iterator has skipped it in
    the loops that set the direction.  When the iterator yields every
    key of a dictionary once, every key has the direction ['load'] or
    ['store']. *)
Theorem get_gmem_access_poly_keys (d : gmap StridedGmemAccess num) :
  get_gmem_access_poly knl type_inf get_dependencies CoefficientCollector
    iterate = Ok d →
  (∀ k v, d !! k = Some v →
     (gmem_direction k = Some "load" ∨ gmem_direction k = Some "store"
      ∨ gmem_direction k = None)
     ∧ in_global_memory knl (gmem_variable k) = true)
  ∧ ((∀ m, yields_every_key iterate m) →
     ∀ k v, d !! k = Some v →
       (gmem_direction k = Some "load" ∨ gmem_direction k = Some "store")
       ∧ in_global_memory knl (gmem_variable k) = true).
Proof.
  intros Hd. split.
  - revert Hd. apply (loop_invariant _ (keys_of access)).
    + intros acc insn acc' _ Hacc Hstep.
      apply gmem_insn_keys in Hstep as [Hk _]. auto.
    + by intros k v.
  - intros Hall. revert Hd. apply (loop_invariant _ (keys_of transfer)).
    + intros acc insn acc' _ Hacc Hstep.
      apply gmem_insn_keys in Hstep as [_ Hk]. auto.
    + by intros k v.
Qed.

(** ** The stride loop of GlobalSubscriptCounter *)

(** X14. The stride loop calls the coefficient collector on the index of
    every dimension in turn and raises what the collector raises first.
    When the collector returns each time, the stride found for the
    subscript is that of the last dimension of the index whose
    coefficient table has an entry for the lane index and whose array
    dimension has a fixed stride: the product of that stride and that
    coefficient.  Earlier such dimensions are overwritten, not added;
    without any the stride is [None]. *)
Theorem find_total_stride_last (index : list Expression)
    (dim_tags : list ArrayDimTag) (min_lid : option string) :
  GlobalSubscriptCounter.find_total_stride CoefficientCollector index
    dim_tags min_lid
  = (tables ← collected CoefficientCollector (zip index dim_tags);
     Ok (last (omap (axis_stride min_lid) tables))).
Proof. apply find_total_stride_collected. Qed.
End get_gmem_access_poly_properties.

(** ** More on count *)

Lemma count_bset_value (count0 : num) (warnings : list string)
    (bset : BasicSet) :
  (count_bset (count0, warnings) bset).1
  = match bset_dim bset with
    | O => count0
    | _ => num_add count0 (PwQPolynomial (piece_count bset))
    end.
Proof.
  unfold count_bset.
  pose proof (count_dims bset) as Hd.
  destruct (foldl (count_dim bset) (None, []) (seq 0 (bset_dim bset)))
    as [bset_count bset_rebuilt].
  cbn [fst] in Hd. subst bset_count.
  destruct (bset_le bset bset_rebuilt), (bset_ge bset bset_rebuilt);
    cbn [negb andb fst]; by destruct (bset_dim bset).
Qed.

Lemma count_bset_diagnostics (count0 : num) (warnings : list string)
    (bset : BasicSet) :
  (count_bset (count0, warnings) bset).2
  = if is_its_box bset then warnings
    else warnings ++ [if bset_le bset (rebuilt_box bset)
                      then "count_overestimate"
                      else if bset_ge bset (rebuilt_box bset)
                           then "count_underestimate"
                           else "count_misestimate"].
Proof.
  unfold is_its_box, rebuilt_box, count_bset.
  pose proof (count_dim_box bset (seq 0 (bset_dim bset)) None []) as Hb.
  destruct (foldl (count_dim bset) (None, []) (seq 0 (bset_dim bset)))
    as [bset_count bset_rebuilt].
  cbn [snd app] in Hb. subst bset_rebuilt.
  by destruct (bset_le bset _), (bset_ge bset _).
Qed.

Lemma count_loop_int (pieces : list BasicSet) (st : num * list string)
    (n : Z) :
  (foldl count_bset st pieces).1 = PyInt n
  ↔ st.1 = PyInt n ∧ Forall (λ bset, bset_dim bset = O) pieces.
Proof.
  revert st. induction pieces as [|b bs IH]; intros [c w].
  - cbn [foldl]. split; [by intros -> | by intros [-> _]].
  - cbn [foldl]. rewrite IH. rewrite Forall_cons.
    rewrite (surjective_pairing (count_bset (c, w) b)), count_bset_value.
    cbn [fst]. destruct (bset_dim b) as [|d].
    + tauto.
    + split; last by intros (_ & [=] & _).
      intros [Hadd _]. by destruct c.
Qed.

(** X15. Without an exact cardinality, [count] returns a Python integer
    only when no basic set of the domain has a set dimension, and the
    integer is then 0: a domain of no dimension is counted as no point,
    not as one. *)
Theorem count_int (kernel : LoopKernel) (set : IslSet) (n : Z) :
  card set = None →
  (count kernel set).1 = PyInt n
  ↔ n = 0 ∧ Forall (λ bset, bset_dim bset = O) (get_basic_sets set).
Proof.
  intros Hcard. unfold count. rewrite Hcard, count_loop_int. cbn [fst].
  split; [intros [[= <-] ?] | intros [-> ?]]; done.
Qed.

Lemma count_loop_diagnostics (pieces : list BasicSet)
    (st : num * list string) :
  ∃ more,
    (foldl count_bset st pieces).2 = st.2 ++ more
    ∧ (length more ≤ length pieces)%nat
    ∧ (more = [] ↔ Forall (λ bset, is_its_box bset = true) pieces).
Proof.
  revert st. induction pieces as [|b bs IH]; intros [c w].
  - exists []. cbn [foldl snd]. by rewrite app_nil_r.
  - cbn [foldl]. destruct (IH (count_bset (c, w) b)) as (more & -> & Hlen & Hall).
    rewrite count_bset_diagnostics. cbn [snd length].
    destruct (is_its_box b) eqn:Hb.
    + exists more. split_and!; [done | lia |].
      rewrite Forall_cons, Hall. tauto.
    + eexists (_ :: more). rewrite <-app_assoc. split_and!; [done | cbn; lia |].
      rewrite Forall_cons, Hb. split; [done | by intros [? _]].
Qed.

(** X16. Without an exact cardinality, [count] emits at most one
    diagnostic for each basic set of the domain, and none exactly when
    every basic set is the box rebuilt from its bounds and strides. *)
Theorem count_diagnostics (kernel : LoopKernel) (set : IslSet) :
  card set = None →
  (length (count kernel set).2 ≤ length (get_basic_sets set))%nat
  ∧ ((count kernel set).2 = []
     ↔ Forall (λ bset, is_its_box bset = true) (get_basic_sets set)).
Proof.
  intros Hcard. unfold count. rewrite Hcard.
  destruct (count_loop_diagnostics (get_basic_sets set) (PyInt 0, []))
    as (more & -> & Hlen & Hall).
  by cbn [snd app].
Qed.

(** ** count on a basic set given by its points *)

Lemma foldl_min_bound {A} (f : A → Z) (ys : list A) (m : Z) :
  foldl (λ m y, Z.min m (f y)) m ys ≤ m
  ∧ Forall (λ y, foldl (λ m y, Z.min m (f y)) m ys ≤ f y) ys.
Proof.
  revert m. induction ys as [|y ys IH]; intros m; cbn [foldl].
  - split; [lia | constructor].
  - destruct (IH (Z.min m (f y))) as [Hm Hys]. split; first lia.
    constructor; first lia. done.
Qed.

Lemma foldl_max_bound {A} (f : A → Z) (ys : list A) (m : Z) :
  m ≤ foldl (λ m y, Z.max m (f y)) m ys
  ∧ Forall (λ y, f y ≤ foldl (λ m y, Z.max m (f y)) m ys) ys.
Proof.
  revert m. induction ys as [|y ys IH]; intros m; cbn [foldl].
  - split; [lia | constructor].
  - destruct (IH (Z.max m (f y))) as [Hm Hys]. split; first lia.
    constructor; first lia. done.
Qed.

Lemma points_bounds (i : nat) (points : list (list Z)) (x : list Z) :
  x ∈ points →
  points_min i points ≤ coord i x ≤ points_max i points.
Proof.
  destruct points as [|p ps]; first by intros ?%elem_of_nil.
  unfold points_min, points_max.
  destruct (foldl_min_bound (coord i) ps (coord i p)) as [Hm Hms].
  destruct (foldl_max_bound (coord i) ps (coord i p)) as [HM HMs].
  rewrite Forall_forall in Hms, HMs.
  intros [->|Hx]%elem_of_cons; first done.
  split; [by apply Hms | by apply HMs].
Qed.

Lemma points_min_max (i : nat) (points : list (list Z)) :
  points_min i points ≤ points_max i points.
Proof.
  destruct points as [|p ps]; first done.
  pose proof (points_bounds i (p :: ps) p (list_elem_of_here _ _)). lia.
Qed.

(** The points of a box of unit strides. *)
Lemma elem_of_axis_points (lo hi c : Z) :
  lo ≤ hi →
  c ∈ axis_points (mkDimBounds lo hi 1) ↔ lo ≤ c ≤ hi.
Proof.
  intros Hle. unfold axis_points. cbn [box_dmin box_dmax box_stride].
  rewrite Z.div_1_r, list_elem_of_fmap. split.
  - intros (k & -> & Hk%elem_of_seq). lia.
  - intros Hc. exists (Z.to_nat (c - lo)). split; first lia.
    apply elem_of_seq. lia.
Qed.

Lemma elem_of_box_points (box : list DimBounds) (x : list Z) :
  x ∈ box_points box ↔ Forall2 (λ c b, c ∈ axis_points b) x box.
Proof.
  revert x. induction box as [|b box IH]; intros x; cbn [box_points].
  - rewrite list_elem_of_singleton. split; [by intros -> | by inversion 1].
  - rewrite list_elem_of_bind. split.
    + intros (c & (xs & -> & Hxs%IH)%list_elem_of_fmap & Hc). by constructor.
    + intros (c & xs & Hc & Hxs%IH & ->)%Forall2_cons_inv_r.
      exists c. split; last done. apply list_elem_of_fmap. by exists xs.
Qed.

Lemma NoDup_axis_points (b : DimBounds) :
  box_stride b ≠ 0 → NoDup (axis_points b).
Proof.
  intros Hs. unfold axis_points.
  apply NoDup_fmap_2_strong; last apply NoDup_seq.
  intros k1 k2 _ _ Heq. nia.
Qed.

Lemma NoDup_box_points (box : list DimBounds) :
  Forall (λ b, box_stride b ≠ 0) box → NoDup (box_points box).
Proof.
  induction 1 as [|b box Hb _ IH]; cbn [box_points].
  - apply NoDup_singleton.
  - apply NoDup_bind.
    + intros c1 c2 y _ _ (? & -> & _)%list_elem_of_fmap
        (? & [= -> _] & _)%list_elem_of_fmap. done.
    + intros c _. apply NoDup_fmap_2; last done. by intros ?? [=].
    + by apply NoDup_axis_points.
Qed.

Lemma length_box_points (box : list DimBounds) :
  length (box_points box)
  = foldr Nat.mul 1%nat ((λ b, length (axis_points b)) <$> box).
Proof.
  induction box as [|b box IH]; first done.
  cbn [box_points fmap list_fmap foldr]. rewrite <-IH.
  induction (axis_points b) as [|c cs IHc]; first done.
  rewrite bind_cons, length_app, length_fmap, IHc. done.
Qed.

Lemma product_to_nat {A} (a : A → Z) (l : list A) :
  (∀ i, 0 ≤ a i) →
  Z.of_nat (foldr Nat.mul 1%nat ((λ i, Z.to_nat (a i)) <$> l))
  = foldr Z.mul 1 (a <$> l).
Proof.
  intros Ha. induction l as [|i l IH]; first done.
  cbn [fmap list_fmap foldr]. rewrite Nat2Z.inj_mul, IH, Z2Nat.id; done.
Qed.

Section points.
Variable d : nat.
Variable points : list (list Z).
Hypothesis lengths : Forall (λ x, length x = d) points.

Local Abbreviation bset := (basic_set_of_points d points ∅).
Local Abbreviation bounds :=
  (λ i, mkDimBounds (points_min i points) (points_max i points) 1).

Lemma rebuilt_box_points : rebuilt_box bset = bounds <$> seq 0 d.
Proof. done. Qed.

Lemma strides_divide_points : strides_divide bset.
Proof.
  intros i _. unfold stride_of. cbn [get_simple_strides basic_set_of_points].
  rewrite lookup_empty. cbn [default from_option id].
  split; [lia | apply Z.divide_1_l].
Qed.

Lemma box_size_points :
  box_size bset = Z.of_nat (length (box_points (rebuilt_box bset))).
Proof.
  rewrite length_box_points, rebuilt_box_points, <-list_fmap_compose.
  unfold box_size. cbn [bset_dim basic_set_of_points].
  rewrite <-(product_to_nat (axis_length bset)).
  - do 2 f_equal. apply list_fmap_ext. intros _ i _.
    unfold compose, axis_points. by rewrite length_fmap, length_seq.
  - intros i. unfold axis_length, stride_of.
    cbn [get_simple_strides dim_max dim_min basic_set_of_points].
    rewrite lookup_empty. cbn [default from_option id]. rewrite Z.div_1_r.
    pose proof (points_min_max i points). lia.
Qed.

Lemma point_in_box (x : list Z) :
  x ∈ points → x ∈ box_points (rebuilt_box bset).
Proof using lengths.
  intros Hx. rewrite elem_of_box_points, rebuilt_box_points.
  apply Forall2_same_length_lookup. split.
  - rewrite length_fmap, length_seq.
    by apply (proj1 (Forall_forall _ _) lengths).
  - intros i c b Hc [j [-> [-> _]%lookup_seq]]%list_lookup_fmap_Some.
    pose proof (points_bounds i points x Hx) as Hb.
    rewrite <-(nth_lookup_Some _ _ 0 _ Hc). fold (coord i x).
    cbn [Nat.add]. apply elem_of_axis_points; lia.
Qed.

(** The points of the rebuilt box are the integer points between the
    least and the greatest coordinate of the set in every dimension. *)
Lemma elem_of_bounding_box (x : list Z) :
  x ∈ box_points (rebuilt_box bset)
  ↔ length x = d
    ∧ ∀ i, (i < d)%nat →
        points_min i points ≤ coord i x ≤ points_max i points.
Proof.
  rewrite elem_of_box_points, rebuilt_box_points.
  rewrite Forall2_same_length_lookup, length_fmap, length_seq.
  split; intros [Hlen Hall]; (split; first done).
  - intros i Hi.
    destruct (lookup_lt_is_Some_2 x i) as [c Hc]; first lia.
    assert (Hb : (bounds <$> seq 0 d) !! i = Some (bounds i)).
    { rewrite list_lookup_fmap, lookup_seq_lt by done. done. }
    pose proof (Hall i c _ Hc Hb) as Hin.
    apply elem_of_axis_points in Hin; last apply points_min_max.
    unfold coord. by rewrite (nth_lookup_Some _ _ 0 _ Hc).
  - intros i c b Hc [j [-> [-> Hj]%lookup_seq]]%list_lookup_fmap_Some.
    cbn [Nat.add] in *. apply elem_of_axis_points; first apply points_min_max.
    specialize (Hall i Hj). unfold coord in Hall.
    by rewrite (nth_lookup_Some _ _ 0 _ Hc) in Hall.
Qed.

Lemma bset_le_points : bset_le bset (rebuilt_box bset) = true.
Proof.
  cbn [bset_le basic_set_of_points]. apply Is_true_eq_true, forallb_True.
  apply Forall_forall. intros x Hx. unfold in_box.
  apply forallb_True, Forall_forall.
  intros [i b] (i' & b' & [= -> ->] & Hb)%elem_of_lookup_imap.
  rewrite rebuilt_box_points in Hb.
  apply list_lookup_fmap_Some in Hb as [j [-> [-> _]%lookup_seq]].
  cbn [box_dmin box_dmax box_stride Nat.add].
  pose proof (points_bounds i' points x Hx) as Hbd.
  rewrite Z.mod_1_r.
  apply Is_true_true. rewrite !andb_true_iff.
  split_and!; [apply Z.leb_le; lia | apply Z.leb_le; lia | done].
Qed.

Lemma bset_ge_points :
  bset_ge bset (rebuilt_box bset) = true
  ↔ ∀ x, x ∈ box_points (rebuilt_box bset) → x ∈ points.
Proof.
  cbn [bset_ge basic_set_of_points].
  rewrite <-Is_true_true, forallb_True, Forall_forall.
  apply forall_proper. intros x. by rewrite bool_decide_spec.
Qed.

Lemma points_fill_box :
  NoDup points →
  (Z.of_nat (length points) ≤ box_size bset)
  ∧ (bset_ge bset (rebuilt_box bset) = true
     ↔ box_size bset = Z.of_nat (length points)).
Proof using lengths.
  intros Hnd. rewrite box_size_points.
  assert (Hsub : points ⊆+ box_points (rebuilt_box bset))
    by (apply NoDup_submseteq; [done | apply point_in_box]).
  pose proof (submseteq_length _ _ Hsub) as Hlen.
  split; first lia. rewrite bset_ge_points. split.
  - intros Hge.
    assert (Hsup : box_points (rebuilt_box bset) ⊆+ points).
    { apply NoDup_submseteq; last done. apply NoDup_box_points.
      rewrite rebuilt_box_points. apply Forall_fmap, Forall_true. done. }
    apply submseteq_length in Hsup. lia.
  - intros Heq x Hx.
    assert (Hp : points ≡ₚ box_points (rebuilt_box bset))
      by (apply submseteq_length_Permutation; [done | lia]).
    by rewrite Hp.
Qed.
End points.

(** X17. For a domain of one basic set given by distinct integer points
    in [d >= 1] dimensions, without strides and without an exact
    cardinality, [count] returns the number of integer points of the
    bounding box of the set: the points of [d] coordinates that lie, in
    every dimension, between the least and the greatest coordinate of
    the points of the set.  This is never less than the number of points
    of the set, the only diagnostic possible is ["count_overestimate"],
    and no diagnostic is emitted exactly when the count is the number of
    points. *)
Theorem count_points (kernel : LoopKernel) (d : nat)
    (points : list (list Z)) :
  d ≠ O → NoDup points → Forall (λ x, length x = d) points →
  let set := {| card := None;
                get_basic_sets := [basic_set_of_points d points ∅] |} in
  let box :=
    box_points
      ((λ i, mkDimBounds (points_min i points) (points_max i points) 1)
         <$> seq 0 d) in
  (count kernel set).1 = PwQPolynomial (Z2Qc (Z.of_nat (length box)))
  ∧ NoDup box
  ∧ (∀ x, x ∈ box
       ↔ length x = d
         ∧ ∀ i, (i < d)%nat →
             points_min i points ≤ coord i x ≤ points_max i points)
  ∧ (length points ≤ length box)%nat
  ∧ ((count kernel set).2 = [] ↔ length box = length points)
  ∧ ((count kernel set).2 = []
     ∨ (count kernel set).2 = ["count_overestimate"]).
Proof.
  intros Hd Hnd Hlen set box.
  destruct (points_fill_box d points Hlen Hnd) as [Hle Hge].
  rewrite (box_size_points d points) in Hle, Hge.
  change (box_points (rebuilt_box (basic_set_of_points d points ∅)))
    with box in Hle, Hge.
  unfold count, set. cbn [card get_basic_sets foldl].
  rewrite (surjective_pairing (count_bset _ _)).
  rewrite count_bset_value, count_bset_diagnostics. cbn [fst snd app].
  unfold is_its_box. rewrite (bset_le_points d points). cbn [andb].
  split_and!.
  - cbn [bset_dim basic_set_of_points]. destruct d as [|d']; first done.
    cbn [num_add]. rewrite Z2Qc_0, Qcplus_0_l. f_equal.
    rewrite piece_count_box_size; [|done|apply strides_divide_points].
    by rewrite (box_size_points (S d') points).
  - apply NoDup_box_points, Forall_fmap, Forall_true. done.
  - apply (elem_of_bounding_box d points).
  - lia.
  - rewrite <-(Nat2Z.inj_iff (length box)), <-Hge. by destruct (bset_ge _ _).
  - destruct (bset_ge _ _); auto.
Qed.

(** ** More on get_barrier_poly *)

Section barriers.
Variable knl : LoopKernel.

Lemma barrier_loop_cons (item : ScheduleItem) (items : list ScheduleItem)
    (st : list string * num) :
  barrier_loop knl (item :: items) st
  = (st' ← barrier_item knl st item; barrier_loop knl items st').
Proof.
  unfold barrier_loop. cbn [foldl mbind result_bind].
  destruct (barrier_item knl st item) as [st'|e]; first done.
  apply loop_Raise.
Qed.

Lemma length_removelast {A} (l : list A) :
  length (removelast l) = pred (length l).
Proof.
  induction l as [|x [|y l] IH]; [done..|].
  change (removelast (x :: y :: l)) with (x :: removelast (y :: l)).
  cbn [length] in *. by rewrite IH.
Qed.

Lemma barrier_loop_outcome (items : list ScheduleItem)
    (iname_list : list string) (barrier_poly : num) :
  if leaves_matched (length iname_list) items
  then ∃ st, barrier_loop knl items (iname_list, barrier_poly) = Ok st
  else barrier_loop knl items (iname_list, barrier_poly) = Raise IndexError.
Proof.
  revert iname_list barrier_poly.
  induction items as [|item items IH]; intros iname_list barrier_poly.
  { by eexists. }
  rewrite barrier_loop_cons.
  destruct item as [iname|iname|insn_id|]; cbn [leaves_matched barrier_item].
  - destruct (bool_decide (iname ≠ "")); cbn [mbind result_bind].
    + specialize (IH (iname_list ++ [iname]) barrier_poly).
      rewrite length_app, Nat.add_1_r in IH. done.
    + apply IH.
  - destruct (bool_decide (iname ≠ "")); cbn [mbind result_bind];
      last apply IH.
    destruct iname_list as [|i0 rest]; first done.
    cbn [mbind result_bind length].
    specialize (IH (removelast (i0 :: rest)) barrier_poly).
    by rewrite length_removelast in IH.
  - apply IH.
  - destruct iname_list as [|i0 rest]; cbn [mbind result_bind reduce foldl];
      apply IH.
Qed.

(** X18. [get_barrier_poly] raises [IndexError] when the schedule has a
    named [LeaveLoop] with no loop open, and returns otherwise: nothing
    else in a schedule makes it raise. *)
Theorem get_barrier_poly_outcome :
  if leaves_matched 0 (schedule knl)
  then ∃ barrier_poly, get_barrier_poly knl = Ok barrier_poly
  else get_barrier_poly knl = Raise IndexError.
Proof.
  unfold get_barrier_poly.
  pose proof (barrier_loop_outcome (schedule knl) [] (PwQPolynomial 0%Qc))
    as Hl. cbn [length] in Hl.
  destruct (leaves_matched 0 (schedule knl)).
  - destruct Hl as [st ->]. by eexists.
  - by rewrite Hl.
Qed.

Lemma barrier_item_shift (item : ScheduleItem) (iname_list l' : list string)
    (p a : Qc) (x : num) :
  barrier_item knl (iname_list, PwQPolynomial p) item = Ok (l', x) →
  ∃ q, x = PwQPolynomial q
    ∧ barrier_item knl (iname_list, PwQPolynomial (a + p)) item
      = Ok (l', PwQPolynomial (a + q)).
Proof.
  destruct item as [iname|iname|insn_id|]; cbn [barrier_item].
  - destruct (bool_decide (iname ≠ "")); intros [= <- <-]; by eexists.
  - destruct (bool_decide (iname ≠ "")); last (intros [= <- <-]; by eexists).
    destruct iname_list; first done. intros [= <- <-]; by eexists.
  - intros [= <- <-]; by eexists.
  - destruct iname_list as [|i0 rest]; cbn [reduce foldl].
    + intros [= <- <-]. eexists. split; first done.
      cbn [num_add]. by rewrite Qcplus_assoc.
    + intros [= <- <-].
      destruct (count knl _).1 as [n|c]; cbn [num_add];
        (eexists; split; first done); by rewrite Qcplus_assoc.
Qed.

Lemma barrier_loop_shift (items : list ScheduleItem)
    (iname_list l' : list string) (p a : Qc) (x : num) :
  barrier_loop knl items (iname_list, PwQPolynomial p) = Ok (l', x) →
  ∃ q, x = PwQPolynomial q
    ∧ barrier_loop knl items (iname_list, PwQPolynomial (a + p))
      = Ok (l', PwQPolynomial (a + q)).
Proof.
  revert iname_list p. induction items as [|item items IH];
    intros iname_list p.
  { intros [= <- <-]. by eexists. }
  rewrite !barrier_loop_cons. intros ([l1 x1] & Hitem & Hrest)%bind_Ok.
  apply (barrier_item_shift _ _ _ _ a) in Hitem as (q1 & -> & ->).
  cbn [mbind result_bind]. by apply IH.
Qed.

(** X19. The barrier counts of two consecutive parts of a schedule add
    up when the first part leaves no loop open: the loop run on both
    returns the sum of what it returns on each. *)
Theorem barrier_loop_additive (pre post : list ScheduleItem)
    (iname_list : list string) (p1 p2 : Qc) :
  barrier_loop knl pre barrier_start = Ok ([], PwQPolynomial p1) →
  barrier_loop knl post barrier_start = Ok (iname_list, PwQPolynomial p2) →
  barrier_loop knl (pre ++ post) barrier_start
  = Ok (iname_list, PwQPolynomial (p1 + p2)).
Proof.
  intros Hpre Hpost. rewrite barrier_loop_app, Hpre.
  cbn [mbind result_bind].
  apply (barrier_loop_shift _ _ _ _ p1) in Hpost as (q & [= <-] & Hpost).
  by rewrite Qcplus_0_r in Hpost.
Qed.
End barriers.

(** ** More on the footprints *)

Section merging.
Implicit Types (a b c : gmap string (gset (list Z))).

Local Abbreviation merge :=
  (λ (acc : result fp_val) (b : fp_val),
     a ← acc; AccessFootprintGatherer.merge_dicts a b).

(** The dictionary [merge_dicts] builds has, for each array, the union of
    the footprints the two dictionaries have for it. *)
Lemma merge_dicts_lookup a b :
  ∃ c, AccessFootprintGatherer.merge_dicts (FpDict a) (FpDict b)
       = Ok (FpDict c)
    ∧ ∀ name, c !! name
        = union_with (λ x y, Some (x ∪ y)) (a !! name) (b !! name).
Proof.
  eexists. split; first done. intros name.
  apply (map_fold_weak_ind (λ r m,
    r !! name = union_with (λ x y, Some (x ∪ y)) (a !! name) (m !! name))).
  - rewrite lookup_empty. by destruct (a !! name).
  - intros i x m r Hi IH. destruct (decide (i = name)) as [->|Hne].
    + rewrite Hi in IH. rewrite lookup_insert_eq.
      destruct (r !! name) as [old|] eqn:Hr; rewrite lookup_insert_eq;
        by destruct (a !! name); simplify_eq/=.
    + rewrite (lookup_insert_ne m) by done.
      destruct (r !! i); by rewrite lookup_insert_ne.
Qed.

(** An index tuple is in the footprint a dictionary has for an array. *)
Local Abbreviation touches := (λ c (name : string) (x : list Z),
  ∃ fp : gset (list Z), c !! name = Some fp ∧ x ∈ fp).

Lemma merge_dicts_touches a b :
  ∃ c, AccessFootprintGatherer.merge_dicts (FpDict a) (FpDict b)
       = Ok (FpDict c)
    ∧ (∀ name, is_Some (c !! name)
         ↔ is_Some (a !! name) ∨ is_Some (b !! name))
    ∧ (∀ name x, touches c name x ↔ touches a name x ∨ touches b name x).
Proof.
  destruct (merge_dicts_lookup a b) as (c & Hc & Hl). exists c.
  split; first done. split.
  - intros name. rewrite Hl, !is_Some_alt.
    destruct (a !! name), (b !! name); cbn; tauto.
  - intros name x. rewrite Hl.
    destruct (a !! name) as [fa|], (b !! name) as [fb|]; cbn; split.
    + intros (fp & [= <-] & [Hx|Hx]%elem_of_union); eauto.
    + intros [(fp & [= <-] & Hx)|(fp & [= <-] & Hx)];
        (eexists; split; first done); apply elem_of_union; auto.
    + intros (fp & [= <-] & Hx). eauto.
    + intros [(fp & [= <-] & Hx)|(fp & [=] & _)]. eauto.
    + intros (fp & [= <-] & Hx). eauto.
    + intros [(fp & [=] & _)|(fp & [= <-] & Hx)]. eauto.
    + by intros (fp & [=] & _).
    + by intros [(fp & [=] & _)|(fp & [=] & _)].
Qed.

Lemma reduce_dicts a (ds : list (gmap string (gset (list Z)))) :
  ∃ c, foldl merge (Ok (FpDict a)) (FpDict <$> ds) = Ok (FpDict c)
    ∧ (∀ name, is_Some (c !! name)
         ↔ ∃ d, d ∈ a :: ds ∧ is_Some (d !! name))
    ∧ (∀ name x, touches c name x ↔ ∃ d, d ∈ a :: ds ∧ touches d name x).
Proof.
  revert a. induction ds as [|d ds IH]; intros a.
  - exists a. split; first done. split.
    + intros name. split; first by (exists a; split; [left|]).
      by intros (d & ->%list_elem_of_singleton & ?).
    + intros name x. split; first by (exists a; split; [left|]).
      by intros (d & ->%list_elem_of_singleton & ?).
  - rewrite fmap_cons. cbn [foldl mbind result_bind].
    destruct (merge_dicts_touches a d) as (ad & -> & Hs & Ht).
    destruct (IH ad) as (c & -> & Hcs & Hct). exists c.
    split; first done. split.
    + intros name. rewrite Hcs. split.
      * intros (d' & [->|Hin]%elem_of_cons & Hd').
        -- apply Hs in Hd' as [?|?];
             [exists a; split; [by left | done]
             |exists d; split; [by right; left | done]].
        -- exists d'. split; last done. by do 2 right.
      * intros (d' & Hin & Hd').
        apply elem_of_cons in Hin as [->|[->|Hin]%elem_of_cons].
        -- exists ad. split; first by left. apply Hs. by left.
        -- exists ad. split; first by left. apply Hs. by right.
        -- exists d'. split; last done. by right.
    + intros name x. rewrite Hct. split.
      * intros (d' & [->|Hin]%elem_of_cons & Hd').
        -- apply Ht in Hd' as [?|?];
             [exists a; split; [by left | done]
             |exists d; split; [by right; left | done]].
        -- exists d'. split; last done. by do 2 right.
      * intros (d' & Hin & Hd').
        apply elem_of_cons in Hin as [->|[->|Hin]%elem_of_cons].
        -- exists ad. split; first by left. apply Ht. by left.
        -- exists ad. split; first by left. apply Ht. by right.
        -- exists d'. split; last done. by right.
Qed.

(** X20. [combine] of one or more dictionaries returns a dictionary that
    has an entry for an array when one of them has, and whose footprint
    for the array is the union of theirs: an index tuple is in it exactly
    when it is in the footprint one of them has for the array. *)
Theorem combine_dicts (ds : list (gmap string (gset (list Z)))) :
  ds ≠ [] →
  ∃ c, AccessFootprintGatherer.combine (FpDict <$> ds) = Ok (FpDict c)
    ∧ (∀ name, is_Some (c !! name) ↔ ∃ d, d ∈ ds ∧ is_Some (d !! name))
    ∧ (∀ name x,
         (∃ fp, c !! name = Some fp ∧ x ∈ fp)
         ↔ ∃ d fp, d ∈ ds ∧ d !! name = Some fp ∧ x ∈ fp).
Proof.
  destruct ds as [|a ds]; first done. intros _.
  destruct (reduce_dicts a ds) as (c & Hc & Hs & Ht). exists c.
  split; first done. split; first done.
  intros name x. rewrite Ht. split.
  - intros (d & Hd & fp & Hfp & Hx). by exists d, fp.
  - intros (d & fp & Hd & Hfp & Hx). exists d. split; first done. by exists fp.
Qed.
End merging.

Section subscript_footprint.
Variable domain : IslSet.
Variable get_access_range : IslSet → list Expression → option Footprint.
Variable inherited : Expression → list (result fp_val) → result fp_val.
Local Abbreviation rec :=
  (AccessFootprintGatherer.rec domain get_access_range inherited).

(** X21. For a subscript of an array whose access range can be computed
    and whose index gives a dictionary, the gatherer returns that
    dictionary with the access range added to the footprint of the array:
    the entry of the array is the union of the range and what the index
    had for it, and no other entry changes. *)
Theorem map_subscript_footprint (name : string) (index : Expression)
    (d : gmap string (gset (list Z))) (access_range : gset (list Z)) :
  get_access_range domain (index_tuple index) = Some access_range →
  rec index = Ok (FpDict d) →
  ∃ c, rec (Subscript (Var name) index) = Ok (FpDict c)
    ∧ c !! name = Some (default ∅ (d !! name) ∪ access_range)
    ∧ ∀ other, other ≠ name → c !! other = d !! other.
Proof.
  intros Hrange Hindex. cbn [AccessFootprintGatherer.rec].
  unfold AccessFootprintGatherer.map_subscript.
  fold (AccessFootprintGatherer.rec domain get_access_range inherited).
  rewrite Hrange, Hindex. cbn [mbind result_bind].
  unfold AccessFootprintGatherer.combine. cbn [foldl mbind result_bind].
  destruct (merge_dicts_lookup d {[ name := access_range ]})
    as (c & -> & Hc).
  exists c. split; first done. split.
  - rewrite Hc, lookup_singleton_eq.
    destruct (d !! name); cbn; [done | by rewrite (left_id_L ∅ (∪))].
  - intros other Hne. rewrite Hc, lookup_singleton_ne by done.
    by destruct (d !! other).
Qed.
End subscript_footprint.

Section gathering.
Variable kernel : LoopKernel.
Variable get_access_range : IslSet → list Expression → option Footprint.
Variable inherited : Expression → list (result fp_val) → result fp_val.

Local Abbreviation step :=
  (λ acc insn,
     st ← acc; footprint_insn kernel get_access_range inherited st insn).

Lemma footprint_loop_no_assignment (insns : list Instruction)
    (warnings : list string) (ws rs : list fp_val) :
  Forall (λ insn, ∃ insn_inames, insn = CInstruction insn_inames) insns →
  ∃ warnings', foldl step (Ok (warnings, ws, rs)) insns
               = Ok (warnings', ws, rs).
Proof.
  intros Hall. revert warnings.
  induction Hall as [|insn insns [inames ->] _ IH]; intros warnings.
  - by eexists.
  - cbn [foldl mbind result_bind footprint_insn]. apply IH.
Qed.

(** X22. On a kernel without an assignment, in particular one without
    instructions, [gather_access_footprints] raises [AssertionError]:
    there is no footprint to combine. *)
Theorem gather_access_footprints_no_assignment :
  Forall (λ insn, ∃ insn_inames, insn = CInstruction insn_inames)
    (instructions kernel) →
  gather_access_footprints kernel get_access_range inherited
  = Raise AssertionError.
Proof.
  intros Hall. unfold gather_access_footprints.
  destruct (footprint_loop_no_assignment _ [] [] [] Hall) as [w ->].
  done.
Qed.

Lemma store_footprints_keys (direction : string) (footprints : fp_val)
    (result_ result' : gmap (string * string) (gset (list Z)))
    (P : string → Prop) :
  store_footprints direction footprints result_ = Ok result' →
  P direction →
  (∀ key fp, result_ !! key = Some fp → P key.2) →
  ∀ key fp, result' !! key = Some fp → P key.2.
Proof.
  destruct footprints as [|d]; first done. intros [= <-] Hdir Hres.
  apply (map_fold_weak_ind (λ r (m : gmap string (gset (list Z))),
    ∀ key fp, r !! key = Some fp → P key.2)); first done.
  intros vname footprint m r _ IH key fp.
  destruct (decide ((vname, direction) = key)) as [<-|Hne].
  - done.
  - rewrite lookup_insert_ne by done. apply IH.
Qed.

Lemma footprint_loop_diagnostics (insns : list Instruction)
    (st st' : list string * list fp_val * list fp_val) :
  foldl step (Ok st) insns = Ok st' →
  st'.1.1
  = st.1.1 ++ replicate (non_assignments insns) "count_non_assignment".
Proof.
  revert st. induction insns as [|insn insns IH]; intros [[w ws] rs].
  - intros [= <-]. cbn. by rewrite app_nil_r.
  - intros (st1 & Hinsn & Hrest)%loop_cons_Ok.
    rewrite (IH _ Hrest). unfold non_assignments. rewrite filter_cons.
    destruct insn as [a e inames|inames]; cbn [footprint_insn] in Hinsn.
    + rewrite decide_False by done.
      apply bind_Ok in Hinsn as (fw & _ & Hinsn).
      apply bind_Ok in Hinsn as (fr & _ & [= <-]). done.
    + rewrite decide_True by done. injection Hinsn as <-.
      cbn [fst length replicate]. by rewrite <-app_assoc.
Qed.

(** X23. What [gather_access_footprints] returns carries one diagnostic
    ["count_non_assignment"] for each instruction that is not an
    assignment, and no other. *)
Theorem gather_access_footprints_diagnostics (warnings : list string)
    (result_ : gmap (string * string) (gset (list Z))) :
  gather_access_footprints kernel get_access_range inherited
  = Ok (warnings, result_) →
  warnings
  = replicate (non_assignments (instructions kernel)) "count_non_assignment".
Proof.
  unfold gather_access_footprints. intros Hg.
  apply bind_Ok in Hg as ([[w ws] rs] & Hloop & Hg).
  apply bind_Ok in Hg as (wf & _ & Hg).
  apply bind_Ok in Hg as (rf & _ & Hg).
  apply bind_Ok in Hg as (r1 & _ & Hg).
  apply bind_Ok in Hg as (r2 & _ & [= <- _]).
  by apply footprint_loop_diagnostics in Hloop.
Qed.

(** X24. Every key of what [gather_access_footprints] returns is an
    array name with the direction ["write"] or ["read"]. *)
Theorem gather_access_footprints_keys (warnings : list string)
    (result_ : gmap (string * string) (gset (list Z))) :
  gather_access_footprints kernel get_access_range inherited
  = Ok (warnings, result_) →
  ∀ name direction fp, result_ !! (name, direction) = Some fp →
    direction = "write" ∨ direction = "read".
Proof.
  unfold gather_access_footprints. intros Hg name direction fp Hfp.
  apply bind_Ok in Hg as ([[w ws] rs] & _ & Hg).
  apply bind_Ok in Hg as (wf & _ & Hg).
  apply bind_Ok in Hg as (rf & _ & Hg).
  apply bind_Ok in Hg as (r1 & Hr1 & Hg).
  apply bind_Ok in Hg as (r2 & Hr2 & [= _ <-]).
  assert (Hwrite : ∀ key fp', r1 !! key = Some fp' →
            key.2 = "write" ∨ key.2 = "read").
  { apply (store_footprints_keys _ _ _ _
             (λ dir, dir = "write" ∨ dir = "read") Hr1); first by left.
    intros key fp'. by rewrite lookup_empty. }
  apply (store_footprints_keys _ _ _ _
           (λ dir, dir = "write" ∨ dir = "read") Hr2 (or_intror eq_refl)
           Hwrite (name, direction) fp Hfp).
Qed.
End gathering.

(** ** The summing functions *)

Section add_to.
Context {K : Type} `{Countable K}.
Implicit Types (m : gmap K num).

Lemma units_add_to m (k : K) (v : num) :
  units (add_to m k v) = (units m + num_value v)%Qc.
Proof.
  unfold add_to. destruct (m !! k) as [old|] eqn:Hk.
  - rewrite <-insert_delete_eq, units_insert by apply lookup_delete_eq.
    rewrite (units_delete _ _ _ Hk), num_value_add. ring.
  - rewrite units_insert by done. ring.
Qed.

Lemma value_at_add_to m (k k' : K) (v : num) :
  value_at (add_to m k v) k'
  = (value_at m k' + if decide (k = k') then num_value v else 0)%Qc.
Proof.
  unfold value_at, add_to. destruct (decide (k = k')) as [<-|Hne].
  - destruct (m !! k) as [old|] eqn:Hk; rewrite lookup_insert_eq;
      cbn [from_option]; [apply num_value_add | ring].
  - destruct (m !! k); rewrite lookup_insert_ne by done; ring.
Qed.
End add_to.

Lemma sum_ops_to_dtypes_pairs (op_poly_dict : gmap key_object num) :
  (∀ key v, op_poly_dict !! key = Some v → is_Some (key_dtype key)) →
  ∃ result_,
    sum_ops_to_dtypes op_poly_dict = Ok result_
    ∧ units result_ = units op_poly_dict
    ∧ ∀ dtype, value_at result_ dtype
        = units (filter (λ kv, key_dtype kv.1 = Some dtype) op_poly_dict).
Proof.
  unfold sum_ops_to_dtypes.
  apply (map_fold_weak_ind (λ r m,
    (∀ key v, m !! key = Some v → is_Some (key_dtype key)) →
    ∃ result_, r = Ok result_ ∧ units result_ = units m
      ∧ ∀ dtype, value_at result_ dtype
          = units (filter (λ kv, key_dtype kv.1 = Some dtype) m))).
  - intros _. exists ∅. split_and!; [done..|].
    intros dtype. by rewrite map_filter_empty.
  - intros key v m r Hfresh IH Hkeys.
    destruct IH as (res & -> & Hunits & Hvalues).
    { intros key' v' Hk'. apply (Hkeys key' v').
      rewrite lookup_insert_ne; first done. intros <-. congruence. }
    destruct (Hkeys key v (lookup_insert_eq _ _ _)) as [dt0 Hdt0].
    destruct key as [[|dt [|kind [|? ?]]]| | |]; try discriminate Hdt0.
    injection Hdt0 as ->. cbn [mbind result_bind].
    eexists. split_and!; first done.
    + by rewrite units_add_to, units_insert, Hunits, Qcplus_comm.
    + intros dtype. rewrite value_at_add_to, Hvalues.
      destruct (decide (dt0 = dtype)) as [->|Hne].
      * rewrite map_filter_insert_True by done.
        rewrite units_insert; first by rewrite Qcplus_comm.
        apply map_lookup_filter_None_2. by left.
      * rewrite map_filter_insert_not'; first by rewrite Qcplus_0_r.
        -- cbn. congruence.
        -- intros y Hy. congruence.
Qed.

(** X25. On a dictionary whose keys are pairs [(dtype, kind)],
    [sum_ops_to_dtypes] returns a dictionary that holds, for each dtype,
    the sum of the values of the keys with that dtype, and so as many
    units in all as its argument. *)
Theorem sum_ops_to_dtypes_sums (op_poly_dict : gmap key_object num) :
  (∀ key v, op_poly_dict !! key = Some v →
     ∃ dtype kind, key = KeyTuple [dtype; kind]) →
  ∃ result_,
    sum_ops_to_dtypes op_poly_dict = Ok result_
    ∧ units result_ = units op_poly_dict
    ∧ ∀ dtype, value_at result_ dtype
        = units (filter (λ kv, key_dtype kv.1 = Some dtype) op_poly_dict).
Proof.
  intros Hkeys. apply sum_ops_to_dtypes_pairs.
  intros key v (dtype & kind & ->)%Hkeys. by eexists.
Qed.

(** X26. On a dictionary whose keys are triples [(dtype, kind, direction)],
    [sum_mem_access_to_bytes] returns a dictionary that holds, for each
    kind and direction, the sum over the keys with that kind and direction
    of the value times the item size of the dtype. *)
Theorem sum_mem_access_to_bytes_sums (itemsize : string → Z)
    (m : gmap key_object num) :
  (∀ key v, m !! key = Some v →
     ∃ dtype kind direction, key = KeyTuple [dtype; kind; direction]) →
  ∃ result_,
    sum_mem_access_to_bytes itemsize m = Ok result_
    ∧ ∀ kind direction, value_at result_ (kind, direction)
        = units (bytes_of itemsize
                   (filter (λ kv, key_transfer kv.1 = Some (kind, direction))
                      m)).
Proof.
  unfold sum_mem_access_to_bytes.
  apply (map_fold_weak_ind (λ r m0,
    (∀ key v, m0 !! key = Some v →
       ∃ dtype kind direction, key = KeyTuple [dtype; kind; direction]) →
    ∃ result_, r = Ok result_
      ∧ ∀ kind direction, value_at result_ (kind, direction)
          = units (bytes_of itemsize
                     (filter (λ kv, key_transfer kv.1 = Some (kind, direction))
                        m0)))).
  - intros _. exists ∅. split; first done.
    intros kind direction. by rewrite map_filter_empty.
  - intros key v m0 r Hfresh IH Hkeys.
    destruct IH as (res & -> & Hvalues).
    { intros key' v' Hk'. apply (Hkeys key' v').
      rewrite lookup_insert_ne; first done. intros <-. congruence. }
    destruct (Hkeys key v (lookup_insert_eq _ _ _))
      as (dt0 & kind0 & dir0 & ->).
    cbn [mbind result_bind]. eexists. split; first done.
    intros kind direction. rewrite value_at_add_to, Hvalues.
    destruct (decide ((kind0, dir0) = (kind, direction))) as [[= -> ->]|Hne].
    + rewrite map_filter_insert_True by done. unfold bytes_of.
      erewrite map_imap_insert_Some by done.
      rewrite units_insert; first by rewrite Qcplus_comm.
      rewrite map_lookup_imap, (map_lookup_filter_None_2 _ m0); first done.
      by left.
    + rewrite map_filter_insert_not'; first by rewrite Qcplus_0_r.
      * cbn. congruence.
      * intros y Hy. congruence.
Qed.

(** A loop over a dictionary that raises at every key raises on every
    dictionary but the empty one. *)
Lemma map_fold_raises {A} (f : key_object → num → result A → result A)
    (init : A) (e : exn) (d : gmap key_object num) :
  (∀ key v acc, d !! key = Some v →
     f key v acc = match acc with Ok _ => Raise e | Raise e' => Raise e' end) →
  d ≠ ∅ →
  map_fold f (Ok init) d = Raise e.
Proof.
  intros Hf Hne.
  pose proof (map_fold_weak_ind (λ r m,
    (∀ key v, m !! key = Some v → d !! key = Some v) →
    (m = ∅ ∧ r = Ok init) ∨ (m ≠ ∅ ∧ r = Raise e)) f (Ok init)) as Hind.
  destruct (λ H0 H1, Hind H0 H1 d) as [[? _]|[_ ?]]; try done.
  - intros _. by left.
  - intros key v m r Hfresh IH Hsub. right.
    split; first apply insert_non_empty.
    rewrite (Hf key v r); last (apply Hsub, lookup_insert_eq).
    destruct IH as [[_ ->]|[_ ->]]; [|done..].
    intros key' v' Hk'. apply Hsub. rewrite lookup_insert_ne; first done.
    intros <-. congruence.
Qed.

Lemma object_keys {K} `{Countable K} (wrap : K → key_object)
    (d : gmap K num) (key : key_object) (v : num) :
  (list_to_map (prod_map wrap id <$> map_to_list d) : gmap key_object num)
    !! key = Some v →
  ∃ k, key = wrap k.
Proof.
  intros Hk%elem_of_list_to_map_2.
  apply list_elem_of_fmap in Hk as ([k v'] & [= -> _] & _). by exists k.
Qed.

Lemma object_dict_non_empty {K} `{Countable K} (wrap : K → key_object)
    (d : gmap K num) :
  d ≠ ∅ →
  (list_to_map (prod_map wrap id <$> map_to_list d) : gmap key_object num)
  ≠ ∅.
Proof.
  intros Hne. destruct (map_to_list d) as [|[k v] l] eqn:El.
  - by apply map_to_list_empty_iff in El.
  - rewrite fmap_cons. cbn [prod_map fst snd]. rewrite list_to_map_cons.
    apply insert_non_empty.
Qed.

(** X27. [sum_ops_to_dtypes] raises [TypeError] on every dictionary that
    [get_op_poly] can return except the empty one: the keys are [TypedOp]
    objects, which the loop header cannot unpack. *)
Theorem sum_ops_to_dtypes_of_op_poly (d : gmap TypedOp num) :
  d ≠ ∅ →
  sum_ops_to_dtypes (op_poly_dict d) = Raise TypeError.
Proof.
  intros Hne. apply map_fold_raises; last by apply object_dict_non_empty.
  intros key v acc [k ->]%object_keys. by destruct acc.
Qed.

(** X28. [sum_mem_access_to_bytes] raises [TypeError] on every dictionary
    that [get_gmem_access_poly] can return except the empty one: the keys
    are [StridedGmemAccess] objects, which the loop header cannot
    unpack. *)
Theorem sum_mem_access_to_bytes_of_gmem_poly (itemsize : string → Z)
    (d : gmap StridedGmemAccess num) :
  d ≠ ∅ →
  sum_mem_access_to_bytes itemsize (gmem_poly_dict d) = Raise TypeError.
Proof.
  intros Hne. apply map_fold_raises; last by apply object_dict_non_empty.
  intros key v acc [k ->]%object_keys. by destruct acc.
Qed.

(** ** The key classes *)

(** X29. Two [StridedGmemAccess] keys that [__eq__] finds equal are
    hashed from the same string only if their variables are the same: a
    key with the wildcard ['ANY_VAR'] equals a key that names an array,
    and is hashed from another string. *)
Theorem StridedGmemAccess_eq_hashed (str : option Z → string)
    (self other : StridedGmemAccess) :
  StridedGmemAccess_eq self other = true →
  StridedGmemAccess_hashed str self = StridedGmemAccess_hashed str other
  ↔ gmem_variable self = gmem_variable other.
Proof.
  unfold StridedGmemAccess_eq, StridedGmemAccess_hashed.
  rewrite !andb_true_iff, !bool_decide_eq_true.
  intros [[[-> ->] ->] _]. split; [apply (inj _) | by intros ->].
Qed.

(** X30. [StridedGmemAccess.__eq__] is not transitive: two keys that
    differ in their variable only are both equal to the key with the
    wildcard ['ANY_VAR'] in its place, and not to each other. *)
Theorem StridedGmemAccess_eq_not_transitive (dt : string)
    (stride : option Z) (direction : option string) (x y : string) :
  x ≠ y → x ≠ "ANY_VAR" → y ≠ "ANY_VAR" →
  let key := mkStridedGmemAccess dt stride direction in
  StridedGmemAccess_eq (key x) (key "ANY_VAR") = true
  ∧ StridedGmemAccess_eq (key "ANY_VAR") (key y) = true
  ∧ StridedGmemAccess_eq (key x) (key y) = false.
Proof.
  intros Hxy Hx Hy key. unfold StridedGmemAccess_eq, key.
  cbn [gmem_dtype gmem_stride gmem_direction gmem_variable].
  rewrite !(bool_decide_eq_true_2 (dt = dt)) by done.
  rewrite !(bool_decide_eq_true_2 (stride = stride)) by done.
  rewrite !(bool_decide_eq_true_2 (direction = direction)) by done.
  rewrite !(bool_decide_eq_true_2 ("ANY_VAR" = "ANY_VAR")) by done.
  rewrite (bool_decide_eq_false_2 (x = "ANY_VAR")) by done.
  rewrite (bool_decide_eq_false_2 (y = "ANY_VAR")) by done.
  rewrite (bool_decide_eq_false_2 (x = y)) by done.
  done.
Qed.

(** ** The statements at concrete inputs *)

Lemma local_units_witness :
  ∃ r, LocalSubscriptCounter.rec local_temporaries (λ _, "float32")
         (Sum [Subscript (Var "t") (Subscript (Var "t") (Var "i")); Var "a"])
       = Ok r
    ∧ obj_units r
      = Z2Qc (subscripts (in_local_memory local_temporaries)
                (Sum [Subscript (Var "t") (Subscript (Var "t") (Var "i"));
                      Var "a"])).
Proof.
  eexists. split; first reflexivity.
  apply (local_units local_temporaries (λ _, "float32")
           (Sum [Subscript (Var "t") (Subscript (Var "t") (Var "i"));
                 Var "a"])).
  reflexivity.
Defined.

Lemma global_units_witness :
  ∃ r, GlobalSubscriptCounter.rec mixed_kernel (λ _, "float32") dependencies
         linear_coeffs (Subscript (Var "a") (Var "j")) = Ok r
    ∧ obj_units r
      = Z2Qc (subscripts (in_global_memory mixed_kernel)
                (Subscript (Var "a") (Var "j"))).
Proof.
  eexists. split; first reflexivity.
  apply (global_units mixed_kernel (λ _, "float32") dependencies
           linear_coeffs (Subscript (Var "a") (Var "j"))).
  reflexivity.
Defined.

Lemma get_op_poly_units_witness :
  ∃ d, get_op_poly sum_kernel (λ _, "float32") = Ok d
    ∧ units d = weighted_total sum_kernel insn_ops.
Proof.
  eexists. split; first reflexivity.
  apply (get_op_poly_units sum_kernel (λ _, "float32")). reflexivity.
Defined.

Lemma get_op_poly_returns_witness :
  Forall (λ insn, ∃ a e inames q,
      insn = Assignment a e inames
      ∧ (count sum_kernel (inames_domain sum_kernel inames)).1
        = PwQPolynomial q)
    (instructions sum_kernel).
Proof.
  eapply (get_op_poly_returns sum_kernel (λ _, "float32")). reflexivity.
Defined.

(** The iteration [every_key] yields every key of every dictionary
    once. *)
Lemma every_key_yields `{Countable K} (d : gmap K num) :
  yields_every_key every_key d.
Proof.
  split_and!; cbn [every_key fst snd]; [apply NoDup_fst_map_to_list | | done].
  intros k. rewrite list_elem_of_fmap. split.
  - intros ([k' v] & -> & Hin%elem_of_map_to_list). by eexists.
  - intros [v Hv]. exists (k, v). by rewrite elem_of_map_to_list.
Qed.

(** On [t[i] = t[i] + a]: with an iterator that raises once the one key
    of the right-hand side is replaced, the function raises; with one
    that yields the key once, the one load of [t] is counted once per
    value of ["i"], and the store is not counted. *)
Example get_lmem_access_poly_tmp :
  get_lmem_access_poly tmp_kernel local_temporaries (λ _, "float32")
    first_key_then_error = Raise RuntimeError
  ∧ lmem_entries
      (get_lmem_access_poly tmp_kernel local_temporaries (λ _, "float32")
         every_key)
    = Some [ (mkLmemAccess "float32" (Some "load"), 8 # 1) ].
Proof. split; vm_compute; reflexivity. Qed.

(** On [x = t[i] + u[i] + w[i]], with an iterator that yields each of
    the three keys once, every load is counted once per value of
    ["i"]. *)
Example get_lmem_access_poly_loads_kernel :
  lmem_entries
    (get_lmem_access_poly loads_kernel three_temporaries three_types
       every_key)
  = Some [ (mkLmemAccess "int32" (Some "load"), 8 # 1);
           (mkLmemAccess "float32" (Some "load"), 8 # 1);
           (mkLmemAccess "float64" (Some "load"), 8 # 1) ].
Proof. vm_compute. reflexivity. Qed.

Lemma lmem_entries_Ok (r : result (gmap LmemAccess num))
    (l : list (LmemAccess * Q)) :
  lmem_entries r = Some l → ∃ d, r = Ok d.
Proof. destruct r as [d|]; [by exists d | done]. Qed.

Lemma get_lmem_access_poly_loads_witness :
  ∃ d, get_lmem_access_poly loads_kernel three_temporaries three_types
         every_key = Ok d
    ∧ (∀ k v, d !! k = Some v →
         lmem_direction k = Some "load" ∨ lmem_direction k = None)
    ∧ ∀ k v, d !! k = Some v → lmem_direction k = Some "load".
Proof.
  destruct (lmem_entries_Ok _ _ get_lmem_access_poly_loads_kernel) as [d Hd].
  exists d. split; first exact Hd.
  destruct (get_lmem_access_poly_loads loads_kernel three_temporaries
              three_types every_key d Hd) as [Hany Hevery].
  split; first exact Hany.
  apply Hevery. intros m. apply every_key_yields.
Defined.

Lemma get_lmem_access_poly_units_witness :
  ∃ d, get_lmem_access_poly loads_kernel three_temporaries three_types
         every_key = Ok d
    ∧ units d
      = weighted_total loads_kernel
          (insn_reads (in_local_memory three_temporaries)).
Proof.
  destruct (lmem_entries_Ok _ _ get_lmem_access_poly_loads_kernel) as [d Hd].
  exists d. split; first exact Hd.
  exact (get_lmem_access_poly_units loads_kernel three_temporaries
           three_types every_key d Hd).
Defined.

Lemma relabel_undirected_witness :
  relabel every_key "load" ∅ = Ok ∅
  ∧ (∃ d', relabel every_key "load" (reads_counts None) = Ok d'
       ∧ (∀ k, gmem_direction k = None →
            d' !! with_direction "load" k = reads_counts None !! k)
       ∧ (∀ k v, d' !! k = Some v → gmem_direction k = Some "load"))
  ∧ units (reads_counts (Some "load")) = units (reads_counts None).
Proof.
  assert (Hnone : ∀ k v, reads_counts None !! k = Some v →
    gmem_direction k = None).
  { apply (bool_decide_unpack (map_Forall (λ k _, gmem_direction k = None)
                                 (reads_counts None))).
    vm_compute. reflexivity. }
  destruct (relabel_undirected every_key "load" (reads_counts None) Hnone)
    as (_ & _ & Hevery & Hany).
  split_and!.
  - destruct (relabel_undirected every_key "load" ∅) as [Hempty _].
    + intros k v Hk. by rewrite lookup_empty in Hk.
    + by apply Hempty.
  - apply Hevery, every_key_yields.
  - destruct reads_counted as (_ & Hl & _). by apply Hany in Hl as [? _].
Defined.

Lemma entries_Ok (r : result (gmap StridedGmemAccess num))
    (l : list (StridedGmemAccess * Q)) :
  entries r = Some l → ∃ d, r = Ok d.
Proof. destruct r as [d|]; [by exists d | done]. Qed.

Lemma get_gmem_access_poly_keys_witness :
  ∃ d, get_gmem_access_poly reads_kernel (λ _, "float32") dependencies
         linear_coeffs every_key = Ok d
    ∧ (∀ k v, d !! k = Some v →
         (gmem_direction k = Some "load" ∨ gmem_direction k = Some "store"
          ∨ gmem_direction k = None)
         ∧ in_global_memory reads_kernel (gmem_variable k) = true)
    ∧ ∀ k v, d !! k = Some v →
        (gmem_direction k = Some "load" ∨ gmem_direction k = Some "store")
        ∧ in_global_memory reads_kernel (gmem_variable k) = true.
Proof.
  destruct (entries_Ok _ _ get_gmem_access_poly_reads) as [d Hd].
  exists d. split; first exact Hd.
  destruct (get_gmem_access_poly_keys reads_kernel (λ _, "float32")
              dependencies linear_coeffs every_key d Hd) as [Hany Hevery].
  split; first exact Hany.
  apply Hevery. intros m. apply every_key_yields.
Defined.

Lemma count_int_witness :
  (count (kernel_of_domain zero_dim_set) zero_dim_set).1 = PyInt 0
  ↔ 0 = 0 ∧ Forall (λ bset, bset_dim bset = O) (get_basic_sets zero_dim_set).
Proof.
  exact (count_int (kernel_of_domain zero_dim_set) zero_dim_set 0 eq_refl).
Defined.

Lemma count_diagnostics_witness :
  (length (count (kernel_of_domain triangle) triangle).2
   ≤ length (get_basic_sets triangle))%nat
  ∧ ((count (kernel_of_domain triangle) triangle).2 = []
     ↔ Forall (λ bset, is_its_box bset = true) (get_basic_sets triangle)).
Proof.
  exact (count_diagnostics (kernel_of_domain triangle) triangle eq_refl).
Defined.

Lemma count_points_witness :
  (count (kernel_of_domain triangle) triangle).1 = PwQPolynomial (Z2Qc 9)
  ∧ (count (kernel_of_domain triangle) triangle).2 = ["count_overestimate"].
Proof.
  destruct (count_points (kernel_of_domain triangle) 2
              [[0; 0]; [1; 0]; [1; 1]; [2; 0]; [2; 1]; [2; 2]])
    as (Hvalue & _ & _ & _ & Hnone & Hsome).
  - discriminate.
  - apply (bool_decide_unpack _). vm_compute. reflexivity.
  - repeat constructor.
  - split; first exact Hvalue.
    destruct Hsome as [Hno | Hover]; last exact Hover.
    apply Hnone in Hno. vm_compute in Hno. discriminate Hno.
Defined.

Lemma barrier_loop_additive_witness :
  barrier_loop sum_kernel
    ([EnterLoop "i"; Barrier; LeaveLoop "i"] ++ [Barrier]) barrier_start
  = Ok ([], PwQPolynomial (0 + Z2Qc 8 + (0 + 1))).
Proof.
  apply barrier_loop_additive; reflexivity.
Defined.

Lemma combine_dicts_witness :
  ∃ c, AccessFootprintGatherer.combine
         (FpDict <$> [ {[ "a" := {[ [0] ]} ]}; {[ "a" := {[ [1] ]} ]} ])
       = Ok (FpDict c)
    ∧ (∀ name, is_Some (c !! name)
         ↔ ∃ d, d ∈ [ ({[ "a" := {[ [0] ]} ]} : gmap string (gset (list Z)));
                      {[ "a" := {[ [1] ]} ]} ]
                ∧ is_Some (d !! name))
    ∧ (∀ name x,
         (∃ fp, c !! name = Some fp ∧ x ∈ fp)
         ↔ ∃ d fp,
             d ∈ [ ({[ "a" := {[ [0] ]} ]} : gmap string (gset (list Z)));
                   {[ "a" := {[ [1] ]} ]} ]
             ∧ d !! name = Some fp ∧ x ∈ fp).
Proof. apply combine_dicts. discriminate. Defined.

Lemma gather_access_footprints_no_assignment_witness :
  gather_access_footprints c_kernel leaf_access_range no_inherited
  = Raise AssertionError.
Proof.
  apply gather_access_footprints_no_assignment.
  constructor; [by exists ["i"] | constructor].
Defined.

Lemma footprint_entries_Ok
    (r : result (list string * gmap (string * string) (gset (list Z))))
    (l : list string * list (string * string * list (list Z))) :
  footprint_entries r = Some l → ∃ warnings result_, r = Ok (warnings, result_).
Proof. destruct r as [[w m]|]; [by exists w, m | done]. Qed.

Lemma gather_access_footprints_keys_witness :
  ∃ warnings result_,
    gather_access_footprints linear_write_kernel leaf_access_range
      no_inherited = Ok (warnings, result_)
    ∧ ∀ name direction fp, result_ !! (name, direction) = Some fp →
        direction = "write" ∨ direction = "read".
Proof.
  destruct (footprint_entries_Ok _ _ linear_write_footprint)
    as (warnings & result_ & Hr).
  exists warnings, result_. split; first exact Hr.
  exact (gather_access_footprints_keys linear_write_kernel leaf_access_range
           no_inherited warnings result_ Hr).
Defined.

Lemma sum_ops_to_dtypes_sums_witness :
  ∃ result_,
    sum_ops_to_dtypes {[ KeyTuple ["float32"; "add"] := PyInt 2 ]}
    = Ok result_
    ∧ units result_
      = units ({[ KeyTuple ["float32"; "add"] := PyInt 2 ]}
                 : gmap key_object num)
    ∧ ∀ dtype, value_at result_ dtype
        = units (filter (λ kv, key_dtype kv.1 = Some dtype)
                   ({[ KeyTuple ["float32"; "add"] := PyInt 2 ]}
                      : gmap key_object num)).
Proof.
  apply sum_ops_to_dtypes_sums.
  intros key v [<- _]%lookup_singleton_Some. by exists "float32", "add".
Defined.

Lemma sum_ops_to_dtypes_of_op_poly_witness :
  sum_ops_to_dtypes (op_poly_dict {[ mkTypedOp "float32" "add" := PyInt 2 ]})
  = Raise TypeError.
Proof.
  apply sum_ops_to_dtypes_of_op_poly. apply map_non_empty_singleton.
Defined.

Lemma sum_mem_access_to_bytes_of_gmem_poly_witness :
  sum_mem_access_to_bytes (λ _, 4)
    (gmem_poly_dict
       {[ mkStridedGmemAccess "float32" (Some 1) (Some "load") "a"
          := PwQPolynomial (Z2Qc 8) ]})
  = Raise TypeError.
Proof.
  apply sum_mem_access_to_bytes_of_gmem_poly. apply map_non_empty_singleton.
Defined.

Lemma StridedGmemAccess_eq_hashed_witness :
  StridedGmemAccess_hashed (λ _, "1")
    (mkStridedGmemAccess "float32" (Some 1) (Some "load") "a")
  = StridedGmemAccess_hashed (λ _, "1")
      (mkStridedGmemAccess "float32" (Some 1) (Some "load") "ANY_VAR")
  ↔ "a" = "ANY_VAR".
Proof.
  exact (StridedGmemAccess_eq_hashed (λ _, "1")
           (mkStridedGmemAccess "float32" (Some 1) (Some "load") "a")
           (mkStridedGmemAccess "float32" (Some 1) (Some "load") "ANY_VAR")
           eq_refl).
Defined.

Lemma StridedGmemAccess_eq_not_transitive_witness :
  StridedGmemAccess_eq
    (mkStridedGmemAccess "float32" (Some 1) None "a")
    (mkStridedGmemAccess "float32" (Some 1) None "ANY_VAR") = true
  ∧ StridedGmemAccess_eq
      (mkStridedGmemAccess "float32" (Some 1) None "ANY_VAR")
      (mkStridedGmemAccess "float32" (Some 1) None "b") = true
  ∧ StridedGmemAccess_eq
      (mkStridedGmemAccess "float32" (Some 1) None "a")
      (mkStridedGmemAccess "float32" (Some 1) None "b") = false.
Proof.
  apply (StridedGmemAccess_eq_not_transitive "float32" (Some 1) None "a" "b");
    discriminate.
Defined.

Lemma sum_mem_access_to_bytes_sums_witness :
  ∃ result_,
    sum_mem_access_to_bytes (λ _, 4)
      {[ KeyTuple ["float32"; "consecutive"; "load"] := PyInt 3 ]}
    = Ok result_
    ∧ ∀ kind direction, value_at result_ (kind, direction)
        = units (bytes_of (λ _, 4)
                   (filter (λ kv, key_transfer kv.1 = Some (kind, direction))
                      ({[ KeyTuple ["float32"; "consecutive"; "load"]
                          := PyInt 3 ]} : gmap key_object num))).
Proof.
  apply sum_mem_access_to_bytes_sums.
  intros key v [<- _]%lookup_singleton_Some.
  by exists "float32", "consecutive", "load".
Defined.

Lemma map_subscript_footprint_witness :
  ∃ c, AccessFootprintGatherer.rec (interval 8) leaf_access_range
         no_inherited (Subscript (Var "b") (Var "i")) = Ok (FpDict c)
    ∧ c !! "b" = Some (default ∅ ((∅ : gmap string (gset (list Z))) !! "b")
                       ∪ {[ [0] ]})
    ∧ ∀ other, other ≠ "b"
        → c !! other = (∅ : gmap string (gset (list Z))) !! other.
Proof.
  apply (map_subscript_footprint (interval 8) leaf_access_range no_inherited
           "b" (Var "i") ∅ {[ [0] ]}); reflexivity.
Defined.

Lemma gather_access_footprints_diagnostics_witness :
  ∃ warnings result_,
    gather_access_footprints linear_write_kernel leaf_access_range
      no_inherited = Ok (warnings, result_)
    ∧ warnings
      = replicate (non_assignments (instructions linear_write_kernel))
          "count_non_assignment".
Proof.
  destruct (footprint_entries_Ok _ _ linear_write_footprint)
    as (warnings & result_ & Hr).
  exists warnings, result_. split; first exact Hr.
  exact (gather_access_footprints_diagnostics linear_write_kernel
           leaf_access_range no_inherited warnings result_ Hr).
Defined.
